(** * MyPaint tiled surface: dab rasterisation, tile cache, dirty region

    A shallow embedding of [lib/tiledsurface.hpp]: the class [TiledSurface]
    ([begin_atomic], [end_atomic], [get_tile_memory], [draw_dab],
    [get_color], [get_alpha]) and the free function
    [composite_tile_over_rgb8].

    Conventions of the embedding.
    - C++ [int] is [Z]; signed overflow and out-of-range conversions are
      undefined in the source and are not part of the model.  Unsigned
      types wrap: [uint32], [uint16] and [uint8] reduce modulo their width
      wherever the source computes in or stores into such a type.
    - [float] and [double] are one abstract type with the operations of
      the class [FloatOps]; the code is written once against that
      interface, and what is proved for every instance holds whatever the
      rounding.  [Q_FloatOps] interprets the interface with exact rational
      arithmetic (no rounding, no infinities or NaN).
    - The Python half of the class ([self]) is an explicit collaborator
      [PyObject] whose two methods answer as a function of the calls made
      so far; every call is logged in the [trace].  Python neither calls
      back into the object nor writes the tile buffers during a call.
    - Tile buffers live in a [heap] indexed by address; an access outside
      a mapped buffer, or through a null pointer, is a [MemoryFault]; a
      failed [assert] is an [AssertionFailed].  The messages printed with
      [printf] are not modelled. *)

From Stdlib Require Import ZArith QArith Qround Lia Lqa.
From stdpp Require Import base list gmap.

#[local] Open Scope Z_scope.

(** ** Constants and machine integers *)

Definition TILE_SIZE : Z := 64.
Definition TILE_MEMORY_SIZE : Z := 8.

Definition wrap (bits z : Z) : Z := z mod 2 ^ bits.
Definition uint32 : Z → Z := wrap 32.
Definition uint16 : Z → Z := wrap 16.
Definition uint8 : Z → Z := wrap 8.

(** ** Floating-point interface *)

Class FloatOps (F : Type) : Type := {
  fadd : F → F → F;
  fsub : F → F → F;
  fmul : F → F → F;
  fdiv : F → F → F;
  feqb : F → F → bool;
  fltb : F → F → bool;
  fleb : F → F → bool;
  ffloor : F → F;
  fceil : F → F;
  (** conversion of an integer to floating point *)
  of_int : Z → F;
  (** conversion of a floating-point value to an integer type: the
      fractional part is discarded *)
  to_int : F → Z
}.

Declare Scope flt_scope.
Delimit Scope flt_scope with flt.
Infix "+" := fadd : flt_scope.
Infix "-" := fsub : flt_scope.
Infix "*" := fmul : flt_scope.
Infix "/" := fdiv : flt_scope.
Infix "=?" := feqb : flt_scope.
Infix "<?" := fltb : flt_scope.
Infix "<=?" := fleb : flt_scope.

(** Exact rational arithmetic. *)
#[export] Instance Q_FloatOps : FloatOps Q := {|
  fadd := Qplus;
  fsub := Qminus;
  fmul := Qmult;
  fdiv := Qdiv;
  feqb := Qeq_bool;
  fltb := λ a b, negb (Qle_bool b a);
  fleb := Qle_bool;
  ffloor := λ a, inject_Z (Qfloor a);
  fceil := λ a, inject_Z (Qceiling a);
  of_int := inject_Z;
  to_int := λ a, Z.quot (Qnum a) (Z.pos (Qden a))
|}.

(** ** Rectangles *)

Module Rect.
(** Modelled from the spec: the struct [Rect] is declared in a helper
    header outside this file; the code uses its fields [x], [y], [w], [h].
    The design document has it as "{x, y, w, h} in pixel space, ...
    w == 0 denotes empty". *)
Record t : Type := mk { x : Z; y : Z; w : Z; h : Z }.

Definition set_w (r : t) (w' : Z) : t := mk (x r) (y r) w' (h r).

(** pixel [(px, py)] lies in the rectangle *)
Definition contains (r : t) (px py : Z) : bool :=
  (x r <=? px) && (px <? x r + w r) && (y r <=? py) && (py <? y r + h r).
End Rect.

(** Modelled from the spec: [ExpandRectToIncludePoint] is declared in a
    helper header outside this file.  The design document describes it
    as: "expand(px, py) grows the box to include point (px,py)", for a box
    that is "union-accumulated; w == 0 denotes empty".  The model is the
    smallest box that holds the old box and the point. *)
Definition ExpandRectToIncludePoint (r : Rect.t) (x y : Z) : Rect.t :=
  if Rect.w r =? 0 then Rect.mk x y 1 1
  else
    let x0 := Z.min (Rect.x r) x in
    let y0 := Z.min (Rect.y r) y in
    let x1 := Z.max (Rect.x r + Rect.w r - 1) x in
    let y1 := Z.max (Rect.y r + Rect.h r - 1) y in
    Rect.mk x0 y0 (x1 - x0 + 1) (y1 - y0 + 1).

(** ** The Python collaborator *)

(** Address of a tile buffer ([uint16_t *]); the null pointer is [None]. *)
Definition ptr : Type := Z.

Inductive Event : Type :=
| EvGetTileMemory (tx ty : Z) (readonly : bool) (res : option ptr)
| EvNotifyObservers (x y w h : Z) (ok : bool).

(** [self]: the two methods the C++ half calls.  [None] and [false] stand
    for a Python exception ([PyObject_CallMethod] returning [NULL]). *)
Record PyObject : Type := {
  py_get_tile_memory : list Event → Z → Z → bool → option ptr;
  py_notify_observers : list Event → Z → Z → Z → Z → bool
}.

(** ** The class state *)

Module TileMemory.
Record t : Type := mk { tx : Z; ty : Z; rgba_p : ptr }.
End TileMemory.

Record TiledSurface : Type := {
  self : PyObject;
  dirty_bbox : Rect.t;
  atomic : Z;
  tileMemory : list TileMemory.t;
  tileMemoryValid : Z;
  tileMemoryWrite : Z
}.

Definition set_dirty_bbox (r : Rect.t) (t : TiledSurface) : TiledSurface :=
  {| self := self t; dirty_bbox := r; atomic := atomic t;
     tileMemory := tileMemory t; tileMemoryValid := tileMemoryValid t;
     tileMemoryWrite := tileMemoryWrite t |}.
Definition set_atomic (a : Z) (t : TiledSurface) : TiledSurface :=
  {| self := self t; dirty_bbox := dirty_bbox t; atomic := a;
     tileMemory := tileMemory t; tileMemoryValid := tileMemoryValid t;
     tileMemoryWrite := tileMemoryWrite t |}.
Definition set_tileMemory (m : list TileMemory.t) (t : TiledSurface) : TiledSurface :=
  {| self := self t; dirty_bbox := dirty_bbox t; atomic := atomic t;
     tileMemory := m; tileMemoryValid := tileMemoryValid t;
     tileMemoryWrite := tileMemoryWrite t |}.
Definition set_tileMemoryValid (v : Z) (t : TiledSurface) : TiledSurface :=
  {| self := self t; dirty_bbox := dirty_bbox t; atomic := atomic t;
     tileMemory := tileMemory t; tileMemoryValid := v;
     tileMemoryWrite := tileMemoryWrite t |}.
Definition set_tileMemoryWrite (v : Z) (t : TiledSurface) : TiledSurface :=
  {| self := self t; dirty_bbox := dirty_bbox t; atomic := atomic t;
     tileMemory := tileMemory t; tileMemoryValid := tileMemoryValid t;
     tileMemoryWrite := v |}.

(** The whole machine: the object, the tile buffers it points into and
    the calls made to Python so far (oldest first). *)
Record State : Type := {
  surf : TiledSurface;
  heap : gmap ptr (list Z);
  trace : list Event
}.

(** ** Outcomes and the state monad *)

Inductive outcome (A : Type) : Type :=
| Ok (a : A)
| AssertionFailed
| MemoryFault.
Arguments Ok {A} a.
Arguments AssertionFailed {A}.
Arguments MemoryFault {A}.

Definition M (A : Type) : Type := State → outcome A * State.

Definition ret {A : Type} (a : A) : M A := λ s, (Ok a, s).
#[export] Instance M_ret : MRet M := @ret.
#[export] Instance M_bind : MBind M := λ A B k m s,
  match m s with
  | (Ok a, s') => k a s'
  | (AssertionFailed, s') => (AssertionFailed, s')
  | (MemoryFault, s') => (MemoryFault, s')
  end.

Definition get_surf : M TiledSurface := λ s, (Ok (surf s), s).
Definition modify_surf (f : TiledSurface → TiledSurface) : M unit :=
  λ s, (Ok tt, {| surf := f (surf s); heap := heap s; trace := trace s |}).
Definition assert (b : bool) : M unit :=
  λ s, if b then (Ok tt, s) else (AssertionFailed, s).
Definition fault {A : Type} : M A := λ s, (MemoryFault, s).

(** [PyObject_CallMethod(self, "get_tile_memory", "(iii)", tx, ty, readonly)] *)
Definition call_get_tile_memory (tx ty : Z) (readonly : bool) : M (option ptr) :=
  λ s, let res := py_get_tile_memory (self (surf s)) (trace s) tx ty readonly in
       (Ok res, {| surf := surf s; heap := heap s;
                   trace := trace s ++ [EvGetTileMemory tx ty readonly res] |}).

(** [PyObject_CallMethod(self, "notify_observers", "(iiii)", x, y, w, h)] *)
Definition call_notify_observers (r : Rect.t) : M bool :=
  λ s, let ok := py_notify_observers (self (surf s)) (trace s)
                   (Rect.x r) (Rect.y r) (Rect.w r) (Rect.h r) in
       (Ok ok, {| surf := surf s; heap := heap s;
                  trace := trace s ++
                    [EvNotifyObservers (Rect.x r) (Rect.y r) (Rect.w r) (Rect.h r) ok] |}).

(** [p[i]] as an rvalue and [p[i] = v], on [uint16_t *p] *)
Definition load (p : ptr) (i : Z) : M Z :=
  λ s, match heap s !! p with
       | Some buf =>
           if 0 <=? i then
             match buf !! Z.to_nat i with
             | Some v => (Ok v, s)
             | None => (MemoryFault, s)
             end
           else (MemoryFault, s)
       | None => (MemoryFault, s)
       end.
Definition store (p : ptr) (i : Z) (v : Z) : M unit :=
  λ s, match heap s !! p with
       | Some buf =>
           if (0 <=? i) && (i <? Z.of_nat (length buf)) then
             (Ok tt, {| surf := surf s;
                        heap := <[p := <[Z.to_nat i := uint16 v]> buf]> (heap s);
                        trace := trace s |})
           else (MemoryFault, s)
       | None => (MemoryFault, s)
       end.

(** [for (i = lo; i <= hi; i++) body], with a loop-carried value [acc];
    a body that answers [inr r] returns [r] from the enclosing function. *)
Fixpoint for_loop {A R : Type} (n : nat) (i : Z)
    (body : Z → A → M (A + R)) (acc : A) : M (A + R) :=
  match n with
  | O => ret (inl acc)
  | S n' =>
      r ← body i acc;
      match r with
      | inl acc' => for_loop n' (i + 1) body acc'
      | inr v => ret (inr v)
      end
  end.
Definition for_range {A R : Type} (lo hi : Z)
    (body : Z → A → M (A + R)) (acc : A) : M (A + R) :=
  for_loop (Z.to_nat (hi - lo + 1)) lo body acc.

(** ** Constructor and batches *)

(** The constructor leaves [dirty_bbox.x/y/h] and the cache slots
    uninitialised: they are whatever [bbox0] and [slots0] hold. *)
Definition TiledSurface_new (self_ : PyObject) (bbox0 : Rect.t)
    (slots0 : list TileMemory.t) : TiledSurface :=
  {| self := self_;
     atomic := 0;
     dirty_bbox := Rect.set_w bbox0 0;
     tileMemory := slots0;
     tileMemoryValid := 0;
     tileMemoryWrite := 0 |}.

Definition begin_atomic : M unit :=
  t ← get_surf;
  (if atomic t =? 0 then
     assert (Rect.w (dirty_bbox t) =? 0);;
     assert (tileMemoryValid t =? 0)
   else ret tt);;
  modify_surf (λ t, set_atomic (atomic t + 1) t).

(** [end_atomic], up to the point where Python is called: the depth is
    decremented and, at depth 0, cache and dirty box are reset.  The
    answer is the copy [bbox] when it has to be reported. *)
Definition end_atomic_reset : M (option Rect.t) :=
  t ← get_surf;
  assert (0 <? atomic t);;
  modify_surf (λ t, set_atomic (atomic t - 1) t);;
  t ← get_surf;
  if atomic t =? 0 then
    modify_surf (set_tileMemoryValid 0);;
    modify_surf (set_tileMemoryWrite 0);;
    t ← get_surf;
    let bbox := dirty_bbox t in
    modify_surf (λ t, set_dirty_bbox (Rect.set_w (dirty_bbox t) 0) t);;
    if 0 <? Rect.w bbox then ret (Some bbox) else ret None
  else ret None.

(** The call itself.  After a Python exception [res] is [NULL]; the
    message is printed and [Py_DECREF(res)] dereferences it. *)
Definition end_atomic_notify (bbox : Rect.t) : M unit :=
  res ← call_notify_observers bbox;
  if (res : bool) then ret tt else fault.

Definition end_atomic : M unit :=
  r ← end_atomic_reset;
  match r with
  | Some bbox => end_atomic_notify bbox
  | None => ret tt
  end.

(** ** The tile cache *)

(** the scan [for (i = 0; i < tileMemoryValid; i++)] over the first
    [tileMemoryValid] slots *)
Fixpoint find_tile (slots : list TileMemory.t) (tx ty : Z) : option ptr :=
  match slots with
  | [] => None
  | e :: rest =>
      if (TileMemory.tx e =? tx) && (TileMemory.ty e =? ty)
      then Some (TileMemory.rgba_p e)
      else find_tile rest tx ty
  end.

Definition cache_lookup (t : TiledSurface) (tx ty : Z) : option ptr :=
  find_tile (take (Z.to_nat (tileMemoryValid t)) (tileMemory t)) tx ty.

Definition cache_insert (tx ty : Z) (rgba_p : ptr) (t : TiledSurface) : TiledSurface :=
  let t := if tileMemoryValid t <? TILE_MEMORY_SIZE
           then set_tileMemoryValid (tileMemoryValid t + 1) t else t in
  let t := set_tileMemory
             (<[Z.to_nat (tileMemoryWrite t) := TileMemory.mk tx ty rgba_p]>
                (tileMemory t)) t in
  set_tileMemoryWrite (Z.rem (tileMemoryWrite t + 1) TILE_MEMORY_SIZE) t.

Definition get_tile_memory (tx ty : Z) (readonly : bool) : M (option ptr) :=
  t ← get_surf;
  match cache_lookup t tx ty with
  | Some p => ret (Some p)
  | None =>
      rgba ← call_get_tile_memory tx ty readonly;
      match rgba with
      | None => ret None
      | Some rgba_p =>
          (if negb readonly
           then modify_surf (cache_insert tx ty rgba_p)
           else ret tt : M unit);;
          ret (Some rgba_p)
      end
  end.

(** ** Rasterising a dab *)

Definition mul32 (a b : Z) : Z := uint32 (a * b).
Definition add32 (a b : Z) : Z := uint32 (a + b).
Definition sub32 (a b : Z) : Z := uint32 (a - b).

Section Dab.
Context {F : Type} {FO : FloatOps F}.

(** the literals [0.5], [0.1] and [1.001] *)
Definition lit_0_5 : F := (of_int 1 / of_int 2)%flt.
Definition lit_0_1 : F := (of_int 1 / of_int 10)%flt.
Definition lit_1_001 : F := (of_int 1001 / of_int 1000)%flt.

(** [0.0 <= c && c <= 1.0] *)
Definition unit_range (c : F) : bool :=
  ((of_int 0 <=? c) && (c <=? of_int 1))%flt.

(** conversion of a floating-point value to [uint32_t] *)
Definition to_uint32 (v : F) : Z := uint32 (to_int v).

(** The opacity of the dab at squared relative distance [rr]; the
    source has this block twice, in [draw_dab] and in [get_color]. *)
Definition falloff (opaque hardness rr : F) : F :=
  if (hardness <? of_int 1)%flt then
    if (rr <? hardness)%flt
    then (opaque * (rr + of_int 1 - rr / hardness))%flt
    else (opaque * (hardness / (hardness - of_int 1) * (rr - of_int 1)))%flt
  else opaque.

(** The clipped pixel range of one axis of one tile: [x0], [x1] (resp.
    [y0], [y1]) for the tile-local centre coordinate [c]. *)
Definition clip_lo (c r_fringe : F) : Z :=
  let x0 := to_int (ffloor (c - r_fringe)%flt) in
  if x0 <? 0 then 0 else x0.
Definition clip_hi (c r_fringe : F) : Z :=
  let x1 := to_int (fceil (c + r_fringe)%flt) in
  if TILE_SIZE - 1 <? x1 then TILE_SIZE - 1 else x1.

(** The tile range of one axis: [tx1], [tx2] (resp. [ty1], [ty2]). *)
Definition tile_lo (c r_fringe : F) : Z :=
  to_int (ffloor (ffloor (c - r_fringe) / of_int TILE_SIZE)%flt).
Definition tile_hi (c r_fringe : F) : Z :=
  to_int (ffloor (ffloor (c + r_fringe) / of_int TILE_SIZE)%flt).

(** index of pixel [(xp, yp)] in a tile buffer *)
Definition pixel_idx (xp yp : Z) : Z := (yp * TILE_SIZE + xp) * 4.

(** The fixed-point weights of one pixel: [opa_a] (after the eraser
    factor) and [opa_b]. *)
Definition dab_weights (opa alpha_eraser : F) : Z * Z :=
  let opa_a := to_uint32 (of_int (1 ≪ 15) * opa)%flt in
  let opa_b := sub32 (1 ≪ 15) opa_a in
  let opa_a := to_uint32 (of_int opa_a * alpha_eraser)%flt in
  (opa_a, opa_b).

(** body of the innermost loop of [draw_dab] *)
Definition draw_dab_pixel (rgba_p : ptr) (xc one_over_radius2 : F)
    (color_r_ color_g_ color_b_ : Z) (opaque hardness alpha_eraser : F)
    (yy : F) (yp xp : Z) : M unit :=
  let xx := (of_int xp + lit_0_5 - xc)%flt in
  let xx := (xx * xx)%flt in
  let rr := ((yy + xx) * one_over_radius2)%flt in
  if (rr <=? of_int 1)%flt then
    let opa := falloff opaque hardness rr in
    let '(opa_a, opa_b) := dab_weights opa alpha_eraser in
    let idx := pixel_idx xp yp in
    a ← load rgba_p (idx + 3);
    store rgba_p (idx + 3) (add32 opa_a (mul32 opa_b a / (1 ≪ 15)));;
    r ← load rgba_p (idx + 0);
    store rgba_p (idx + 0)
      (add32 (mul32 opa_a color_r_) (mul32 opa_b r) / (1 ≪ 15));;
    g ← load rgba_p (idx + 1);
    store rgba_p (idx + 1)
      (add32 (mul32 opa_a color_g_) (mul32 opa_b g) / (1 ≪ 15));;
    b ← load rgba_p (idx + 2);
    store rgba_p (idx + 2)
      (add32 (mul32 opa_a color_b_) (mul32 opa_b b) / (1 ≪ 15))
  else ret tt.

(** the two pixel loops over one tile *)
Definition draw_dab_pixels (rgba_p : ptr) (xc yc r_fringe one_over_radius2 : F)
    (color_r_ color_g_ color_b_ : Z) (opaque hardness alpha_eraser : F)
    : M (unit + bool) :=
  let x0 := clip_lo xc r_fringe in
  let y0 := clip_lo yc r_fringe in
  let x1 := clip_hi xc r_fringe in
  let y1 := clip_hi yc r_fringe in
  for_range y0 y1 (λ yp _,
    let yy := (of_int yp + lit_0_5 - yc)%flt in
    let yy := (yy * yy)%flt in
    for_range x0 x1 (λ xp _,
      draw_dab_pixel rgba_p xc one_over_radius2 color_r_ color_g_ color_b_
        opaque hardness alpha_eraser yy yp xp;;
      ret (inl tt)) tt) tt.

(** body of the tile loops of [draw_dab] *)
Definition draw_dab_tile (x y r_fringe one_over_radius2 : F)
    (color_r_ color_g_ color_b_ : Z) (opaque hardness alpha_eraser : F)
    (ty tx : Z) : M (unit + bool) :=
  rgba_p ← get_tile_memory tx ty false;
  match rgba_p with
  | None => ret (inr true)
  | Some rgba_p =>
      let xc := (x - of_int (tx * TILE_SIZE))%flt in
      let yc := (y - of_int (ty * TILE_SIZE))%flt in
      draw_dab_pixels rgba_p xc yc r_fringe one_over_radius2
        color_r_ color_g_ color_b_ opaque hardness alpha_eraser
  end.

Definition draw_dab_tiles (x y r_fringe one_over_radius2 : F)
    (color_r_ color_g_ color_b_ : Z) (opaque hardness alpha_eraser : F)
    : M (unit + bool) :=
  let tx1 := tile_lo x r_fringe in
  let tx2 := tile_hi x r_fringe in
  let ty1 := tile_lo y r_fringe in
  let ty2 := tile_hi y r_fringe in
  for_range ty1 ty2 (λ ty _,
    for_range tx1 tx2 (λ tx _,
      draw_dab_tile x y r_fringe one_over_radius2
        color_r_ color_g_ color_b_ opaque hardness alpha_eraser ty tx) tt) tt.

(** the block that expands the dirty box by the dab's bounding box *)
Definition dab_bbox (x y radius : F) : (Z * Z) * (Z * Z) :=
  let bb_x := to_int (ffloor (x - (radius + of_int 1))%flt) in
  let bb_y := to_int (ffloor (y - (radius + of_int 1))%flt) in
  let bb_w := to_int (fceil (of_int 2 * (radius + of_int 1))%flt) in
  let bb_h := to_int (fceil (of_int 2 * (radius + of_int 1))%flt) in
  ((bb_x, bb_y), (bb_x + bb_w - 1, bb_y + bb_h - 1)).

Definition expand_dirty_bbox (x y radius : F) : M unit :=
  let '((ax, ay), (bx, by')) := dab_bbox x y radius in
  modify_surf (λ t,
    set_dirty_bbox (ExpandRectToIncludePoint (dirty_bbox t) ax ay) t);;
  modify_surf (λ t,
    set_dirty_bbox (ExpandRectToIncludePoint (dirty_bbox t) bx by') t).

(** returns true if the surface was modified *)
Definition draw_dab (x y radius color_r color_g color_b
    opaque hardness alpha_eraser : F) : M bool :=
  assert (unit_range color_r);;
  assert (unit_range color_g);;
  assert (unit_range color_b);;
  let color_r_ := to_uint32 (color_r * of_int (1 ≪ 15))%flt in
  let color_g_ := to_uint32 (color_g * of_int (1 ≪ 15))%flt in
  let color_b_ := to_uint32 (color_b * of_int (1 ≪ 15))%flt in
  if (opaque =? of_int 0)%flt then ret false else
  if (radius <? lit_0_1)%flt then ret false else
  if (hardness =? of_int 0)%flt then ret false else
  t ← get_surf;
  assert (0 <? atomic t);;
  let r_fringe := (radius + of_int 1)%flt in
  let rr := (radius * radius)%flt in
  let one_over_radius2 := (of_int 1 / rr)%flt in
  r ← draw_dab_tiles x y r_fringe one_over_radius2
        color_r_ color_g_ color_b_ opaque hardness alpha_eraser;
  match r with
  | inr b => ret b
  | inl _ =>
      expand_dirty_bbox x y radius;;
      ret true
  end.
End Dab.

(** ** Sampling the colour under a dab *)

Section GetColor.
Context {F : Type} {FO : FloatOps F}.

(** the accumulators [sum_r], [sum_g], [sum_b], [sum_a], [sum_weight] *)
Record sums : Type := mkSums {
  sum_r : F; sum_g : F; sum_b : F; sum_a : F; sum_weight : F
}.

(** body of the innermost loop of [get_color] *)
Definition get_color_pixel (rgba_p : ptr) (xc one_over_radius2 : F)
    (yy : F) (yp xp : Z) (acc : sums) : M sums :=
  let hardness := lit_0_5 in
  let opaque := of_int 1 in
  let xx := (of_int xp + lit_0_5 - xc)%flt in
  let xx := (xx * xx)%flt in
  let rr := ((yy + xx) * one_over_radius2)%flt in
  if (rr <=? of_int 1)%flt then
    let opa := falloff opaque hardness rr in
    let idx := pixel_idx xp yp in
    r ← load rgba_p (idx + 0);
    g ← load rgba_p (idx + 1);
    b ← load rgba_p (idx + 2);
    a ← load rgba_p (idx + 3);
    ret {| sum_weight := (sum_weight acc + opa)%flt;
           sum_r := (sum_r acc + opa * of_int r / of_int (1 ≪ 15))%flt;
           sum_g := (sum_g acc + opa * of_int g / of_int (1 ≪ 15))%flt;
           sum_b := (sum_b acc + opa * of_int b / of_int (1 ≪ 15))%flt;
           sum_a := (sum_a acc + opa * of_int a / of_int (1 ≪ 15))%flt |}
  else ret acc.

(** the two pixel loops over one tile *)
Definition get_color_pixels (rgba_p : ptr) (xc yc r_fringe one_over_radius2 : F)
    (acc : sums) : M (sums + unit) :=
  let x0 := clip_lo xc r_fringe in
  let y0 := clip_lo yc r_fringe in
  let x1 := clip_hi xc r_fringe in
  let y1 := clip_hi yc r_fringe in
  for_range y0 y1 (λ yp acc,
    let yy := (of_int yp + lit_0_5 - yc)%flt in
    let yy := (yy * yy)%flt in
    for_range x0 x1 (λ xp acc,
      acc' ← get_color_pixel rgba_p xc one_over_radius2 yy yp xp acc;
      ret (inl acc')) acc) acc.

(** body of the tile loops of [get_color] *)
Definition get_color_tile (x y r_fringe one_over_radius2 : F)
    (ty tx : Z) (acc : sums) : M (sums + unit) :=
  rgba_p ← get_tile_memory tx ty true;
  match rgba_p with
  | None => ret (inr tt)
  | Some rgba_p =>
      let xc := (x - of_int (tx * TILE_SIZE))%flt in
      let yc := (y - of_int (ty * TILE_SIZE))%flt in
      get_color_pixels rgba_p xc yc r_fringe one_over_radius2 acc
  end.

(** The four results are what the source writes through [color_r],
    [color_g], [color_b], [color_a]; [None] is the early [return] after
    a Python exception, which writes none of them. *)
Definition get_color (x y radius : F) : M (option (F * F * F * F)) :=
  assert (lit_0_1 <=? radius)%flt;;
  let zero := {| sum_r := of_int 0; sum_g := of_int 0; sum_b := of_int 0;
                 sum_a := of_int 0; sum_weight := of_int 0 |} in
  let r_fringe := (radius + of_int 1)%flt in
  let rr := (radius * radius)%flt in
  let one_over_radius2 := (of_int 1 / rr)%flt in
  let tx1 := tile_lo x r_fringe in
  let tx2 := tile_hi x r_fringe in
  let ty1 := tile_lo y r_fringe in
  let ty2 := tile_hi y r_fringe in
  res ← for_range ty1 ty2 (λ ty acc,
           for_range tx1 tx2 (λ tx acc,
             get_color_tile x y r_fringe one_over_radius2 ty tx acc) acc) zero;
  match res with
  | inr _ => ret None
  | inl acc =>
      assert (of_int 0 <? sum_weight acc)%flt;;
      let sum_a := (sum_a acc / sum_weight acc)%flt in
      let sum_r := (sum_r acc / sum_weight acc)%flt in
      let sum_g := (sum_g acc / sum_weight acc)%flt in
      let sum_b := (sum_b acc / sum_weight acc)%flt in
      let color_a := sum_a in
      let '(color_r, color_g, color_b) :=
        if (of_int 0 <? sum_a)%flt
        then ((sum_r / sum_a)%flt, (sum_g / sum_a)%flt, (sum_b / sum_a)%flt)
        else (of_int 0, of_int 1, of_int 0) in
      assert (of_int 0 <=? color_a)%flt;;
      assert (of_int 0 <=? color_r)%flt;;
      assert (of_int 0 <=? color_g)%flt;;
      assert (of_int 0 <=? color_b)%flt;;
      assert (color_r <=? lit_1_001)%flt;;
      assert (color_g <=? lit_1_001)%flt;;
      assert (color_b <=? lit_1_001)%flt;;
      ret (Some (color_r, color_g, color_b, color_a))
  end.

Definition get_alpha (x y radius : F) : M (option F) :=
  c ← get_color x y radius;
  ret (match c with
       | Some (_, _, _, color_a) => Some color_a
       | None => None
       end).
End GetColor.

(** ** Flattening a tile onto 8-bit RGB *)

(** [l[i]] for a C index; [None] outside the buffer *)
Definition index (l : list Z) (i : Z) : option Z :=
  if 0 <=? i then l !! Z.to_nat i else None.

(** One pixel of [composite_tile_over_rgb8]: [si] is the offset of
    [src_p] in the source buffer (16-bit words), [di] the offset of
    [dst_p] in the destination memory (bytes). *)
Definition composite_pixel (src : list Z) (si di : Z) (dst : list Z)
    : option (list Z) :=
  a ← index src (si + 3);
  let one_minus_topAlpha := sub32 (1 ≪ 15) a in
  s0 ← index src (si + 0);
  d0 ← index dst (di + 0);
  let dst := <[Z.to_nat (di + 0) :=
               uint8 (add32 (mul32 s0 255) (mul32 one_minus_topAlpha d0) / (1 ≪ 15))]> dst in
  s1 ← index src (si + 1);
  d1 ← index dst (di + 1);
  let dst := <[Z.to_nat (di + 1) :=
               uint8 (add32 (mul32 s1 255) (mul32 one_minus_topAlpha d1) / (1 ≪ 15))]> dst in
  s2 ← index src (si + 2);
  d2 ← index dst (di + 2);
  let dst := <[Z.to_nat (di + 2) :=
               uint8 (add32 (mul32 s2 255) (mul32 one_minus_topAlpha d2) / (1 ≪ 15))]> dst in
  Some dst.

(** [n] iterations of a loop whose counter starts at [i] *)
Fixpoint iterate {A : Type} (n : nat) (i : Z) (body : Z → A → option A)
    (acc : A) : option A :=
  match n with
  | O => Some acc
  | S n' => acc' ← body i acc; iterate n' (i + 1) body acc'
  end.

(** [src]: the 64*64*4 words of the source array; [dst]: the memory at
    [dst_arr->data], with [stride0 = dst_arr->strides[0]] bytes between
    two rows (the asserts fix the other two strides to 3 and 1).  [None]
    when a pixel lies outside one of the two buffers. *)
Definition composite_tile_over_rgb8 (src : list Z) (stride0 : Z) (dst : list Z)
    : option (list Z) :=
  iterate (Z.to_nat TILE_SIZE) 0 (λ y dst,
    let p := y * stride0 in
    iterate (Z.to_nat TILE_SIZE) 0 (λ x dst,
      composite_pixel src ((y * TILE_SIZE + x) * 4) (p + x * 3) dst) dst) dst.

(** ** Vocabulary of the properties *)

(** the rectangles reported to [notify_observers], oldest first *)
Definition notifications (tr : list Event) : list Rect.t :=
  omap (λ e, match e with
             | EvNotifyObservers x y w h _ => Some (Rect.mk x y w h)
             | EvGetTileMemory _ _ _ _ => None
             end) tr.

(** the calls to the tile store, oldest first *)
Definition store_calls (tr : list Event) : list (Z * Z * bool) :=
  omap (λ e, match e with
             | EvGetTileMemory tx ty ro _ => Some (tx, ty, ro)
             | EvNotifyObservers _ _ _ _ _ => None
             end) tr.

(** a sequence of write-mode fetches, with what each of them returned *)
Fixpoint fetch_tiles (l : list (Z * Z)) : M (list (option ptr)) :=
  match l with
  | [] => ret []
  | (tx, ty) :: l' =>
      r ← get_tile_memory tx ty false;
      rs ← fetch_tiles l';
      ret (r :: rs)
  end.

(** the coordinates held by the valid cache entries *)
Definition cached_tiles (t : TiledSurface) : list (Z * Z) :=
  (λ e, (TileMemory.tx e, TileMemory.ty e)) <$>
    take (Z.to_nat (tileMemoryValid t)) (tileMemory t).

(** the array [tileMemory] has its [TILE_MEMORY_SIZE] slots and the two
    counters are in range *)
Definition cache_wf (t : TiledSurface) : Prop :=
  length (tileMemory t) = Z.to_nat TILE_MEMORY_SIZE ∧
  0 ≤ tileMemoryValid t ≤ TILE_MEMORY_SIZE ∧
  0 ≤ tileMemoryWrite t < TILE_MEMORY_SIZE.

(** a sequence of batch opens and closes *)
Inductive batch_call : Type := BeginAtomic | EndAtomic.

Definition run_call (c : batch_call) : M unit :=
  match c with
  | BeginAtomic => begin_atomic
  | EndAtomic => end_atomic
  end.

Fixpoint run_calls (l : list batch_call) : M unit :=
  match l with
  | [] => ret tt
  | c :: l' => run_call c;; run_calls l'
  end.

(** how many of the closes in [l] take the depth from 1 to 0, when the
    sequence starts at depth [depth] *)
Fixpoint outermost_closes (depth : Z) (l : list batch_call) : nat :=
  match l with
  | [] => 0
  | BeginAtomic :: l' => outermost_closes (depth + 1) l'
  | EndAtomic :: l' =>
      ((if (depth =? 1)%Z then 1 else 0) + outermost_closes (depth - 1)%Z l')%nat
  end.

Definition set_heap (hp : gmap ptr (list Z)) (s : State) : State :=
  {| surf := surf s; heap := hp; trace := trace s |}.

(** The four assignments of one pixel of [draw_dab], as a function on the
    buffer: alpha first, then red, green and blue, each computed from the
    value the channel had before. *)
Definition composite_over (opa_a opa_b color_r_ color_g_ color_b_ : Z)
    (idx : Z) (buf : list Z) : list Z :=
  match index buf (idx + 0), index buf (idx + 1),
        index buf (idx + 2), index buf (idx + 3) with
  | Some r, Some g, Some b, Some a =>
      <[Z.to_nat (idx + 2) :=
          uint16 (add32 (mul32 opa_a color_b_) (mul32 opa_b b) / (1 ≪ 15))]>
      (<[Z.to_nat (idx + 1) :=
          uint16 (add32 (mul32 opa_a color_g_) (mul32 opa_b g) / (1 ≪ 15))]>
      (<[Z.to_nat (idx + 0) :=
          uint16 (add32 (mul32 opa_a color_r_) (mul32 opa_b r) / (1 ≪ 15))]>
      (<[Z.to_nat (idx + 3) :=
          uint16 (add32 opa_a (mul32 opa_b a / (1 ≪ 15)))]> buf)))
  | _, _, _, _ => buf
  end.

Section DabPure.
Context {F : Type} {FO : FloatOps F}.

(** what [draw_dab_pixel] does to the buffer it writes into *)
Definition dab_pixel (xc one_over_radius2 : F)
    (color_r_ color_g_ color_b_ : Z) (opaque hardness alpha_eraser : F)
    (yy : F) (yp xp : Z) (buf : list Z) : list Z :=
  let xx := (of_int xp + lit_0_5 - xc)%flt in
  let xx := (xx * xx)%flt in
  let rr := ((yy + xx) * one_over_radius2)%flt in
  if (rr <=? of_int 1)%flt then
    let opa := falloff opaque hardness rr in
    let '(opa_a, opa_b) := dab_weights opa alpha_eraser in
    composite_over opa_a opa_b color_r_ color_g_ color_b_ (pixel_idx xp yp) buf
  else buf.
End DabPure.

(** pixel number [k] of a tile buffer: its R, G, B and A words *)
Definition pixel_at (buf : list Z) (k : Z) : option (Z * Z * Z * Z) :=
  r ← index buf (4 * k + 0);
  g ← index buf (4 * k + 1);
  b ← index buf (4 * k + 2);
  a ← index buf (4 * k + 3);
  Some (r, g, b, a).

(** every channel is in [[0, 2^15]] and no colour exceeds alpha *)
Definition premultiplied_pixel (px : Z * Z * Z * Z) : bool :=
  let '(r, g, b, a) := px in
  (0 <=? r) && (r <=? a) && (0 <=? g) && (g <=? a) &&
  (0 <=? b) && (b <=? a) && (a <=? 2 ^ 15).

(** a buffer of [TILE_SIZE * TILE_SIZE] premultiplied pixels *)
Definition premultiplied_tile (buf : list Z) : bool :=
  (Z.of_nat (length buf) =? TILE_SIZE * TILE_SIZE * 4) &&
  forallb (λ k, from_option premultiplied_pixel false (pixel_at buf k))
          (seqZ 0 (TILE_SIZE * TILE_SIZE)).

Definition premultiplied_heap (hp : gmap ptr (list Z)) : Prop :=
  map_Forall (λ _ buf, premultiplied_tile buf = true) hp.

(** alpha is 0 at every pixel of the tile *)
Definition transparent_tile (buf : list Z) : bool :=
  forallb (λ k, from_option (λ a, a =? 0) false (index buf (4 * k + 3)))
          (seqZ 0 (TILE_SIZE * TILE_SIZE)).

(** a memory of bytes *)
Definition rgb8_buffer (dst : list Z) : bool :=
  forallb (λ d, (0 <=? d) && (d <? 256)) dst.

(** the square of pixels [lo..hi] x [lo..hi] lies in [r] *)
Definition covers (r : Rect.t) (lo hi : Z) : Prop :=
  ∀ px py, lo ≤ px ≤ hi → lo ≤ py ≤ hi → Rect.contains r px py = true.

(** the byte that one channel of [composite_tile_over_rgb8] stores, for
    source alpha [a], source colour [c] and destination byte [d] *)
Definition flatten_channel (a c d : Z) : Z :=
  uint8 (add32 (mul32 c 255) (mul32 (sub32 (1 ≪ 15) a) d) / (1 ≪ 15)).

(** ** Example objects *)

(** a tile store that hands out a distinct address for every tile and an
    observer that accepts every notification *)
Definition example_store : PyObject := {|
  py_get_tile_memory := λ _ tx ty _, Some (tx + 1000 * ty);
  py_notify_observers := λ _ _ _ _ _, true
|}.

(** the same store with an observer that raises *)
Definition raising_observer : PyObject := {|
  py_get_tile_memory := λ _ tx ty _, Some (tx + 1000 * ty);
  py_notify_observers := λ _ _ _ _ _, false
|}.

(** a store that only has tile (0, 0) and raises for every other tile *)
Definition one_tile_store : PyObject := {|
  py_get_tile_memory := λ _ tx ty _,
    if (tx =? 0) && (ty =? 0) then Some 1000 else None;
  py_notify_observers := λ _ _ _ _ _, true
|}.

(** a fully transparent tile *)
Definition blank_tile : list Z :=
  replicate (Z.to_nat (TILE_SIZE * TILE_SIZE * 4)) 0.

(** a freshly constructed surface on top of [py], with tile buffers [hp] *)
Definition fresh (py : PyObject) (hp : gmap ptr (list Z)) : State :=
  {| surf := TiledSurface_new py (Rect.mk 0 0 0 0)
               (replicate 8 (TileMemory.mk 0 0 0));
     heap := hp;
     trace := [] |}.

(** open a batch, draw the dab [(100, 100)], radius 10, colour (1, 0, 0),
    opacity 1, hardness 0.5 (eraser strength at its default 1.0), close
    the batch *)
Definition scenario_dab : M unit :=
  begin_atomic;;
  draw_dab (F := Q) 100%Q 100%Q 10%Q 1%Q 0%Q 0%Q 1%Q (1 # 2)%Q 1%Q;;
  end_atomic.

(** a dab on the border between tiles (0, 0) and (1, 0) *)
Definition border_dab : M bool :=
  draw_dab (F := Q) 64%Q 10%Q 1%Q 1%Q 0%Q 0%Q 1%Q (1 # 2)%Q 1%Q.

(** running [scenario_dab] from [s0] reports exactly one rectangle, and it
    contains the pixels [(lo, lo)] to [(hi, hi)] *)
Definition scenario_reports (s0 : State) (lo hi : Z) : Prop :=
  ∃ r, notifications (trace (scenario_dab s0).2) = [r] ∧ covers r lo hi.

(** the parts of the object that the tile loops leave alone *)
Definition same_object (s s' : State) : Prop :=
  dirty_bbox (surf s') = dirty_bbox (surf s) ∧
  atomic (surf s') = atomic (surf s) ∧
  self (surf s') = self (surf s).

Section DirtyBox.
Context {F : Type} {FO : FloatOps F}.

(** the dirty box of [s'] is the one of [s], expanded by the two corners
    of the bounding box of the dab *)
Definition dirty_expanded_by_dab (x y radius : F) (s s' : State) : Prop :=
  dirty_bbox (surf s') =
    ExpandRectToIncludePoint
      (ExpandRectToIncludePoint (dirty_bbox (surf s))
         (dab_bbox x y radius).1.1 (dab_bbox x y radius).1.2)
      (dab_bbox x y radius).2.1 (dab_bbox x y radius).2.2.
End DirtyBox.

(** eight distinct tiles, some of them requested again, and a ninth *)
Definition eight_tiles : list (Z * Z) :=
  [(0, 0); (1, 0); (2, 0); (3, 0); (4, 0); (5, 0); (6, 0); (7, 0)].
Definition revisited_tiles : list (Z * Z) := [(0, 0); (3, 0); (0, 0); (0, 0)].
Definition fetch_sequence : list (Z * Z) :=
  eight_tiles ++ revisited_tiles ++ [(8, 0)].

(** inside a batch, nothing drawn yet *)
Definition open_batch : State := (begin_atomic (fresh example_store ∅)).2.

(** a batch opened twice *)
Definition nested_batch : State := (begin_atomic open_batch).2.

(** inside a batch over two blank tiles *)
Definition two_tile_batch : State :=
  (begin_atomic (fresh example_store {[0 := blank_tile; 1 := blank_tile]})).2.

(** inside a batch whose observer raises, with a dab already recorded in
    the dirty box and its tile cached *)
Definition pending_batch : State :=
  {| surf := {| self := raising_observer;
                dirty_bbox := Rect.mk 89 89 22 22;
                atomic := 1;
                tileMemory := <[0%nat := TileMemory.mk 1 1 1001]>
                                (replicate 8 (TileMemory.mk 0 0 0));
                tileMemoryValid := 1;
                tileMemoryWrite := 1 |};
     heap := {[1001 := blank_tile]};
     trace := [EvGetTileMemory 1 1 false (Some 1001)] |}.

(** ** Vocabulary of the further properties *)

(** The cache of an object in use: the array and its counters are in
    range, the slots are filled in order (while the cache is not full the
    next slot to be written is the first invalid one), and no tile is
    held by two valid slots. *)
Definition cache_consistent (t : TiledSurface) : Prop :=
  cache_wf t ∧
  (tileMemoryValid t < TILE_MEMORY_SIZE → tileMemoryWrite t = tileMemoryValid t) ∧
  NoDup (cached_tiles t).

(** The depth is not negative, and outside a batch nothing is pending:
    the dirty box is empty and the cache is empty with its write index at
    slot 0. *)
Definition idle_clean (t : TiledSurface) : Prop :=
  0 ≤ atomic t ∧
  (atomic t = 0 →
   Rect.w (dirty_bbox t) = 0 ∧ tileMemoryValid t = 0 ∧ tileMemoryWrite t = 0).

(** no close in [l] comes without an open batch, when the sequence starts
    at depth [depth] *)
Fixpoint well_nested (depth : Z) (l : list batch_call) : bool :=
  match l with
  | [] => true
  | BeginAtomic :: l' => well_nested (depth + 1) l'
  | EndAtomic :: l' => (0 <? depth) && well_nested (depth - 1) l'
  end.

(** opens minus closes *)
Fixpoint depth_change (l : list batch_call) : Z :=
  match l with
  | [] => 0
  | BeginAtomic :: l' => 1 + depth_change l'
  | EndAtomic :: l' => depth_change l' - 1
  end.

Section Methods.
Context {F : Type} {FO : FloatOps F}.

(** one call of a public method of the class, with its arguments *)
Inductive method : Type :=
| CallBeginAtomic
| CallEndAtomic
| CallGetTileMemory (tx ty : Z) (readonly : bool)
| CallDrawDab (x y radius color_r color_g color_b opaque hardness alpha_eraser : F)
| CallGetColor (x y radius : F)
| CallGetAlpha (x y radius : F).

(** the call, its result dropped *)
Definition run_method (m : method) : M unit :=
  match m with
  | CallBeginAtomic => begin_atomic
  | CallEndAtomic => end_atomic
  | CallGetTileMemory tx ty readonly => get_tile_memory tx ty readonly;; ret tt
  | CallDrawDab x y radius color_r color_g color_b opaque hardness alpha_eraser =>
      draw_dab x y radius color_r color_g color_b opaque hardness alpha_eraser;;
      ret tt
  | CallGetColor x y radius => get_color x y radius;; ret tt
  | CallGetAlpha x y radius => get_alpha x y radius;; ret tt
  end.

Fixpoint run_methods (l : list method) : M unit :=
  match l with
  | [] => ret tt
  | m :: l' => run_method m;; run_methods l'
  end.

(** the call is not a direct request of a tile for writing: tiles are
    written through [draw_dab] only *)
Definition no_direct_write_fetch (m : method) : bool :=
  match m with
  | CallGetTileMemory _ _ readonly => readonly
  | _ => true
  end.

(** a request to the tile store in mode [readonly] for a tile of the tile
    range of a dab at [(x, y)] with fringe radius [r_fringe] *)
Definition fetch_in_tile_range (x y r_fringe : F) (readonly : bool) (e : Event) : Prop :=
  ∃ tx ty res,
    e = EvGetTileMemory tx ty readonly res ∧
    tile_lo x r_fringe ≤ tx ≤ tile_hi x r_fringe ∧
    tile_lo y r_fringe ≤ ty ≤ tile_hi y r_fringe.
End Methods.
Arguments method F : clear implicits.

(** The pixel [(r, g, b, a)] after the four assignments of the innermost
    loop of [draw_dab], for the weights [opa_a], [opa_b] and the
    fixed-point colour [color_r_], [color_g_], [color_b_]. *)
Definition over_pixel (opa_a opa_b color_r_ color_g_ color_b_ : Z)
    (px : Z * Z * Z * Z) : Z * Z * Z * Z :=
  let '(r, g, b, a) := px in
  (uint16 (add32 (mul32 opa_a color_r_) (mul32 opa_b r) / (1 ≪ 15)),
   uint16 (add32 (mul32 opa_a color_g_) (mul32 opa_b g) / (1 ≪ 15)),
   uint16 (add32 (mul32 opa_a color_b_) (mul32 opa_b b) / (1 ≪ 15)),
   uint16 (add32 opa_a (mul32 opa_b a / (1 ≪ 15)))).

Section DabOnPixel.
Context {F : Type} {FO : FloatOps F}.

(** pixel [(xp, yp)] of a tile lies in the clipped rectangle
    [x0..x1] x [y0..y1] that the pixel loops run over, for the tile-local
    centre [(xc, yc)] *)
Definition dab_reaches (xc yc r_fringe : F) (xp yp : Z) : bool :=
  (clip_lo xc r_fringe <=? xp) && (xp <=? clip_hi xc r_fringe) &&
  (clip_lo yc r_fringe <=? yp) && (yp <=? clip_hi yc r_fringe).

(** [rr] as the loops compute it for pixel [(xp, yp)] *)
Definition dab_rr (xc yc one_over_radius2 : F) (xp yp : Z) : F :=
  let yy := (of_int yp + lit_0_5 - yc)%flt in
  let yy := (yy * yy)%flt in
  let xx := (of_int xp + lit_0_5 - xc)%flt in
  let xx := (xx * xx)%flt in
  ((yy + xx) * one_over_radius2)%flt.

(** the body of the innermost loop of [draw_dab], as a function on the
    value of the pixel *)
Definition dab_on_pixel (xc yc one_over_radius2 : F)
    (color_r_ color_g_ color_b_ : Z) (opaque hardness alpha_eraser : F)
    (xp yp : Z) (px : Z * Z * Z * Z) : Z * Z * Z * Z :=
  let rr := dab_rr xc yc one_over_radius2 xp yp in
  if (rr <=? of_int 1)%flt then
    let opa := falloff opaque hardness rr in
    let '(opa_a, opa_b) := dab_weights opa alpha_eraser in
    over_pixel opa_a opa_b color_r_ color_g_ color_b_ px
  else px.
End DabOnPixel.

(** the centre of pixel [(X, Y)] of the surface is within [radius] of the
    centre [(x, y)] of the dab *)
Definition in_dab_circle (x y radius : Q) (X Y : Z) : Prop :=
  let dx := (inject_Z X + (1 # 2) - x)%Q in
  let dy := (inject_Z Y + (1 # 2) - y)%Q in
  (dx * dx + dy * dy <= radius * radius)%Q.

(** pixel [(X, Y)] of the surface lies between the two corners by which
    [draw_dab] expands the dirty box *)
Definition in_dab_bbox (x y radius : Q) (X Y : Z) : Prop :=
  (dab_bbox x y radius).1.1 ≤ X ≤ (dab_bbox x y radius).2.1 ∧
  (dab_bbox x y radius).1.2 ≤ Y ≤ (dab_bbox x y radius).2.2.

(** [b'] is a tile buffer of premultiplied pixels, each of them related by
    [R] to the pixel that [b] has at the same place *)
Definition tile_pixels_related (R : Z * Z * Z * Z → Z * Z * Z * Z → Prop)
    (b b' : list Z) : Prop :=
  Z.of_nat (length b') = TILE_SIZE * TILE_SIZE * 4 ∧
  ∀ k, 0 ≤ k < TILE_SIZE * TILE_SIZE →
    ∃ px px', pixel_at b k = Some px ∧ pixel_at b' k = Some px' ∧
              premultiplied_pixel px' = true ∧ R px px'.

(** the two heaps hold buffers at the same addresses, related pixel by
    pixel *)
Definition heap_pixels_related (R : Z * Z * Z * Z → Z * Z * Z * Z → Prop)
    (hp hp' : gmap ptr (list Z)) : Prop :=
  ∀ p, match hp !! p, hp' !! p with
       | Some b, Some b' => tile_pixels_related R b b'
       | None, None => True
       | _, _ => False
       end.

(** the alpha of [px'] is not below the alpha of [px] *)
Definition alpha_not_below (px px' : Z * Z * Z * Z) : Prop := px.2 ≤ px'.2.

(** no channel of [px'] is above the same channel of [px] *)
Definition no_channel_above (px px' : Z * Z * Z * Z) : Prop :=
  px'.1.1.1 ≤ px.1.1.1 ∧ px'.1.1.2 ≤ px.1.1.2 ∧ px'.1.2 ≤ px.1.2 ∧ px'.2 ≤ px.2.

(** offset in the destination memory of channel [ch] of pixel [(x, y)]:
    [p + x * 3 + ch] with [p = y * strides[0]] *)
Definition dst_offset (stride0 y x ch : Z) : Z := y * stride0 + x * 3 + ch.

(** the byte that [composite_tile_over_rgb8] computes for channel [ch] of
    pixel [(x, y)] from the source pixel and the byte that the
    destination [dst] holds there *)
Definition flattened_byte (src : list Z) (stride0 : Z) (dst : list Z)
    (y x ch : Z) : option Z :=
  c ← index src ((y * TILE_SIZE + x) * 4 + ch);
  a ← index src ((y * TILE_SIZE + x) * 4 + 3);
  d ← index dst (dst_offset stride0 y x ch);
  Some (flatten_channel a c d).

(** alpha is [2^15] at every pixel of the tile *)
Definition opaque_tile (buf : list Z) : bool :=
  forallb (λ k, from_option (λ a, a =? 2 ^ 15) false (index buf (4 * k + 3)))
          (seqZ 0 (TILE_SIZE * TILE_SIZE)).

Section GetColorParts.
Context {F : Type} {FO : FloatOps F}.

(** the tile loops of [get_color], started from the zeroed sums *)
Definition get_color_sums (x y radius : F) : M (sums + unit) :=
  let zero := {| sum_r := of_int 0; sum_g := of_int 0; sum_b := of_int 0;
                 sum_a := of_int 0; sum_weight := of_int 0 |} in
  let r_fringe := (radius + of_int 1)%flt in
  let rr := (radius * radius)%flt in
  let one_over_radius2 := (of_int 1 / rr)%flt in
  let tx1 := tile_lo x r_fringe in
  let tx2 := tile_hi x r_fringe in
  let ty1 := tile_lo y r_fringe in
  let ty2 := tile_hi y r_fringe in
  for_range ty1 ty2 (λ ty acc,
    for_range tx1 tx2 (λ tx acc,
      get_color_tile x y r_fringe one_over_radius2 ty tx acc) acc) zero.

(** what [get_color] does with the sums once the tile loops are done *)
Definition get_color_result (acc : sums) : M (option (F * F * F * F)) :=
  assert (of_int 0 <? sum_weight acc)%flt;;
  let sum_a := (sum_a acc / sum_weight acc)%flt in
  let sum_r := (sum_r acc / sum_weight acc)%flt in
  let sum_g := (sum_g acc / sum_weight acc)%flt in
  let sum_b := (sum_b acc / sum_weight acc)%flt in
  let color_a := sum_a in
  let '(color_r, color_g, color_b) :=
    if (of_int 0 <? sum_a)%flt
    then ((sum_r / sum_a)%flt, (sum_g / sum_a)%flt, (sum_b / sum_a)%flt)
    else (of_int 0, of_int 1, of_int 0) in
  assert (of_int 0 <=? color_a)%flt;;
  assert (of_int 0 <=? color_r)%flt;;
  assert (of_int 0 <=? color_g)%flt;;
  assert (of_int 0 <=? color_b)%flt;;
  assert (color_r <=? lit_1_001)%flt;;
  assert (color_g <=? lit_1_001)%flt;;
  assert (color_b <=? lit_1_001)%flt;;
  ret (Some (color_r, color_g, color_b, color_a)).
End GetColorParts.

(** the sums of [get_color] over premultiplied pixels: no colour sum is
    negative or above the alpha sum, and the alpha sum is not above the
    sum of the weights *)
Definition sums_premultiplied (acc : @sums Q) : Prop :=
  (0 <= sum_r acc)%Q ∧ (sum_r acc <= sum_a acc)%Q ∧
  (0 <= sum_g acc)%Q ∧ (sum_g acc <= sum_a acc)%Q ∧
  (0 <= sum_b acc)%Q ∧ (sum_b acc <= sum_a acc)%Q ∧
  (sum_a acc <= sum_weight acc)%Q.

(** the sums of [get_color] over pixels that all hold [(r, g, b, a)] *)
Definition sums_uniform (r g b a : Z) (acc : @sums Q) : Prop :=
  (sum_r acc == sum_weight acc * (inject_Z r / inject_Z (2 ^ 15)))%Q ∧
  (sum_g acc == sum_weight acc * (inject_Z g / inject_Z (2 ^ 15)))%Q ∧
  (sum_b acc == sum_weight acc * (inject_Z b / inject_Z (2 ^ 15)))%Q ∧
  (sum_a acc == sum_weight acc * (inject_Z a / inject_Z (2 ^ 15)))%Q.

(** every buffer of the heap is a tile of 64 x 64 pixels that satisfy [P] *)
Definition heap_pixels (P : Z * Z * Z * Z → Prop) (hp : gmap ptr (list Z)) : Prop :=
  ∀ p buf, hp !! p = Some buf →
    Z.of_nat (length buf) = TILE_SIZE * TILE_SIZE * 4 ∧
    ∀ k, 0 ≤ k < TILE_SIZE * TILE_SIZE → ∃ px, pixel_at buf k = Some px ∧ P px.

(** [p] is the address of a tile buffer of the heap [hp] *)
Definition tile_mapped (hp : gmap ptr (list Z)) (p : ptr) : Prop :=
  ∃ buf, hp !! p = Some buf ∧ Z.of_nat (length buf) = TILE_SIZE * TILE_SIZE * 4.

(** The tiles are where the object expects them: the cache is consistent,
    whatever address the store hands out is the address of a tile
    buffer, and so is the address held by each valid cache slot. *)
Definition tiles_in_place (s : State) : Prop :=
  cache_consistent (surf s) ∧
  (∀ tr tx ty ro p,
     py_get_tile_memory (self (surf s)) tr tx ty ro = Some p →
     tile_mapped (heap s) p) ∧
  (∀ e, e ∈ take (Z.to_nat (tileMemoryValid (surf s))) (tileMemory (surf s)) →
        tile_mapped (heap s) (TileMemory.rgba_p e)).

(** a pixel with alpha 0 whose colour words are too small to show in a
    byte: [c * 255 < 2^15], that is [c <= 128] *)
Definition faint_pixel (px : Z * Z * Z * Z) : bool :=
  let '(r, g, b, a) := px in
  (a =? 0) && (0 <=? r) && (r * 255 <? 2 ^ 15) && (0 <=? g) && (g * 255 <? 2 ^ 15)
  && (0 <=? b) && (b * 255 <? 2 ^ 15).

(** ** Further example objects *)

(** a store that raises for every tile *)
Definition failing_store : PyObject := {|
  py_get_tile_memory := λ _ _ _ _, None;
  py_notify_observers := λ _ _ _ _ _, true
|}.

(** a tile whose words all hold [v]: every pixel is [(v, v, v, v)] *)
Definition flat_tile (v : Z) : list Z :=
  replicate (Z.to_nat (TILE_SIZE * TILE_SIZE * 4)) v.

(** a new surface whose tile (0, 0) is half-transparent white *)
Definition white_surface : State := fresh example_store {[0 := flat_tile (2 ^ 14)]}.

(** a new surface on the store that only has tile (0, 0), a blank one *)
Definition one_tile_surface : State := fresh one_tile_store {[1000 := blank_tile]}.

(** inside a batch on that surface *)
Definition one_tile_batch : State := (begin_atomic one_tile_surface).2.

(** a tile whose alpha is 0 everywhere, with red 128 at pixel (0, 0):
    outside the premultiplied data model, and still without effect *)
Definition faint_tile : list Z := <[0%nat := 128]> blank_tile.

(** inside a batch on top of a store that raises *)
Definition failing_batch : State := (begin_atomic (fresh failing_store ∅)).2.

(** a probe of radius 1/2 centred on pixel (8, 8) *)
Definition probe_sums_run : outcome (@sums Q + unit) * State :=
  get_color_sums (F := Q) (17 # 2)%Q (17 # 2)%Q (1 # 2)%Q white_surface.
Definition probe_sums : @sums Q :=
  match probe_sums_run.1 with
  | Ok (inl acc) => acc
  | _ => mkSums 0%Q 0%Q 0%Q 0%Q 0%Q
  end.

(** the tile loops of the dab on the border of tiles (0, 0) and (1, 0) *)
Definition border_tiles_run : outcome (unit + bool) * State :=
  draw_dab_tiles (F := Q) 64%Q 10%Q (1%Q + of_int 1)%flt
    (of_int 1 / (1%Q * 1%Q))%flt
    (to_uint32 (1%Q * of_int (1 ≪ 15))%flt)
    (to_uint32 (0%Q * of_int (1 ≪ 15))%flt)
    (to_uint32 (0%Q * of_int (1 ≪ 15))%flt) 1%Q (1 # 2)%Q 1%Q failing_batch.

(** a batch with a dab and a probe, and two nested empty batches *)
Definition painting_session : list (method Q) :=
  [CallBeginAtomic;
   CallDrawDab 100%Q 100%Q 10%Q 1%Q 0%Q 0%Q 1%Q (1 # 2)%Q 1%Q;
   CallGetTileMemory 0 0 true;
   CallGetColor 100%Q 100%Q 10%Q;
   CallEndAtomic;
   CallGetAlpha 100%Q 100%Q 10%Q].
Definition nested_batches : list batch_call :=
  [BeginAtomic; BeginAtomic; EndAtomic; EndAtomic].

(** ** The tile cache: proofs *)

Lemma find_tile_None (slots : list TileMemory.t) (tx ty : Z) :
  find_tile slots tx ty = None ↔
  (tx, ty) ∉ (λ e, (TileMemory.tx e, TileMemory.ty e)) <$> slots.
Proof.
  induction slots as [|e rest IH]; simpl.
  - split; [intros _; apply not_elem_of_nil | done].
  - rewrite not_elem_of_cons.
    destruct (Z.eqb_spec (TileMemory.tx e) tx) as [->|Hx]; simpl.
    + destruct (Z.eqb_spec (TileMemory.ty e) ty) as [->|Hy]; simpl.
      * split; [done | intros [Hne _]; by destruct Hne].
      * rewrite IH. split; [intros Hn; split; [congruence | done] | tauto].
    + rewrite IH. split; [intros Hn; split; [congruence | done] | tauto].
Qed.

Lemma cache_lookup_None (t : TiledSurface) (tx ty : Z) :
  cache_lookup t tx ty = None ↔ (tx, ty) ∉ cached_tiles t.
Proof. apply find_tile_None. Qed.

Lemma get_tile_memory_hit (tx ty : Z) (ro : bool) (s : State) (p : ptr) :
  cache_lookup (surf s) tx ty = Some p →
  get_tile_memory tx ty ro s = (Ok (Some p), s).
Proof.
  intros Hhit. unfold get_tile_memory, mbind, M_bind, get_surf; simpl.
  by rewrite Hhit.
Qed.

Lemma get_tile_memory_miss (tx ty : Z) (ro : bool) (s : State) :
  cache_lookup (surf s) tx ty = None →
  let res := py_get_tile_memory (self (surf s)) (trace s) tx ty ro in
  get_tile_memory tx ty ro s =
    (Ok res,
     {| surf := match res with
                | Some rgba_p =>
                    if ro then surf s else cache_insert tx ty rgba_p (surf s)
                | None => surf s
                end;
        heap := heap s;
        trace := trace s ++ [EvGetTileMemory tx ty ro res] |}).
Proof.
  intros Hmiss. unfold get_tile_memory, mbind, M_bind, get_surf; simpl.
  rewrite Hmiss. unfold call_get_tile_memory; simpl.
  destruct (py_get_tile_memory _ _ _ _ _) as [p|]; [|done].
  by destruct ro.
Qed.

Lemma cache_insert_wf (tx ty : Z) (p : ptr) (t : TiledSurface) :
  cache_wf t → cache_wf (cache_insert tx ty p t).
Proof.
  unfold cache_wf, cache_insert, TILE_MEMORY_SIZE.
  intros (Hlen & Hv & Hw).
  destruct (Z.ltb_spec (tileMemoryValid t) 8); simpl;
    rewrite length_insert;
    (split; [done|]); (split; [lia|]);
    pose proof (Z.rem_bound_pos (tileMemoryWrite t + 1) 8); lia.
Qed.

Lemma get_tile_memory_wf (tx ty : Z) (ro : bool) (s : State) :
  cache_wf (surf s) → cache_wf (surf (get_tile_memory tx ty ro s).2).
Proof.
  intros Hwf.
  destruct (cache_lookup (surf s) tx ty) as [p|] eqn:Hl.
  - by rewrite (get_tile_memory_hit _ _ _ _ _ Hl).
  - rewrite (get_tile_memory_miss _ _ _ _ Hl); simpl.
    destruct (py_get_tile_memory _ _ _ _ _); [|done].
    destruct ro; [done|]. by apply cache_insert_wf.
Qed.

Lemma get_tile_memory_Ok (tx ty : Z) (ro : bool) (s : State) :
  ∃ res, (get_tile_memory tx ty ro s).1 = Ok res.
Proof.
  destruct (cache_lookup (surf s) tx ty) as [p|] eqn:Hl.
  - rewrite (get_tile_memory_hit _ _ _ _ _ Hl). by eexists.
  - rewrite (get_tile_memory_miss _ _ _ _ Hl). by eexists.
Qed.

Lemma fetch_tiles_wf (l : list (Z * Z)) (s : State) :
  cache_wf (surf s) → cache_wf (surf (fetch_tiles l s).2).
Proof.
  revert s. induction l as [|[tx ty] l IH]; intros s Hwf; [done|].
  simpl. unfold mbind, M_bind.
  pose proof (get_tile_memory_wf tx ty false s Hwf) as Hwf1.
  destruct (get_tile_memory_Ok tx ty false s) as [res Hres].
  destruct (get_tile_memory tx ty false s) as [o s1]; simpl in *; subst o.
  specialize (IH s1 Hwf1).
  destruct (fetch_tiles l s1) as [[rs| |] s2]; done.
Qed.

Lemma cache_insert_grow (tx ty : Z) (p : ptr) (t : TiledSurface) :
  cache_wf t → tileMemoryValid t < TILE_MEMORY_SIZE →
  tileMemoryWrite t = tileMemoryValid t →
  let t' := cache_insert tx ty p t in
  cached_tiles t' = cached_tiles t ++ [(tx, ty)] ∧
  tileMemoryValid t' = tileMemoryValid t + 1 ∧
  tileMemoryWrite t' = Z.rem (tileMemoryValid t') TILE_MEMORY_SIZE.
Proof.
  unfold cache_wf, cached_tiles, cache_insert, TILE_MEMORY_SIZE.
  intros (Hlen & Hv & Hw) Hlt Heq.
  destruct (Z.ltb_spec (tileMemoryValid t) 8); [|lia]. simpl.
  rewrite Heq. split; [|done].
  replace (Z.to_nat (tileMemoryValid t + 1)) with (S (Z.to_nat (tileMemoryValid t))) by lia.
  erewrite take_S_r; last (apply list_lookup_insert_eq; lia).
  rewrite take_insert_ge by lia. by rewrite fmap_app.
Qed.

Lemma cache_insert_full (tx ty : Z) (p : ptr) (t : TiledSurface) :
  cache_wf t → tileMemoryValid t = TILE_MEMORY_SIZE →
  let t' := cache_insert tx ty p t in
  cached_tiles t' = <[Z.to_nat (tileMemoryWrite t) := (tx, ty)]> (cached_tiles t) ∧
  tileMemoryValid t' = TILE_MEMORY_SIZE.
Proof.
  unfold cache_wf, cached_tiles, cache_insert, TILE_MEMORY_SIZE.
  intros (Hlen & Hv & Hw) Heq.
  destruct (Z.ltb_spec (tileMemoryValid t) 8); [lia|]. simpl.
  split; [|done].
  rewrite !take_ge by (rewrite ?length_insert; lia).
  by rewrite list_fmap_insert.
Qed.

Lemma fetch_tiles_total (l : list (Z * Z)) (s : State) :
  ∃ rs s', fetch_tiles l s = (Ok rs, s').
Proof.
  revert s. induction l as [|[tx ty] l IH]; intros s; [by eexists _, _|].
  simpl. unfold mbind, M_bind.
  destruct (get_tile_memory_Ok tx ty false s) as [res Hres].
  destruct (get_tile_memory tx ty false s) as [o s1]; simpl in *; subst o.
  destruct (IH s1) as (rs & s2 & ->). by eexists _, _.
Qed.

Lemma fetch_tiles_app (l1 l2 : list (Z * Z)) (s s1 s2 : State)
    (rs1 rs2 : list (option ptr)) :
  fetch_tiles l1 s = (Ok rs1, s1) →
  fetch_tiles l2 s1 = (Ok rs2, s2) →
  fetch_tiles (l1 ++ l2) s = (Ok (rs1 ++ rs2), s2).
Proof.
  revert s rs1. induction l1 as [|[tx ty] l1 IH]; intros s rs1 H1 H2.
  - simpl in *. unfold ret in H1. by simplify_eq.
  - simpl in *. unfold mbind, M_bind in *.
    destruct (get_tile_memory tx ty false s) as [[res| |] s'];
      [|done|done].
    destruct (fetch_tiles_total l1 s') as (rs1' & s1' & Hl1).
    rewrite Hl1 in H1. unfold ret in H1. simplify_eq.
    by rewrite (IH _ _ Hl1 H2).
Qed.

(** Fetching distinct tiles that are not cached, while there is room:
    each one is a miss and is appended. *)
Lemma fetch_tiles_fill (l : list (Z * Z)) (s s' : State) (rs : list (option ptr)) :
  cache_wf (surf s) →
  tileMemoryWrite (surf s) = Z.rem (tileMemoryValid (surf s)) TILE_MEMORY_SIZE →
  tileMemoryValid (surf s) + Z.of_nat (length l) ≤ TILE_MEMORY_SIZE →
  NoDup (cached_tiles (surf s) ++ l) →
  fetch_tiles l s = (Ok rs, s') →
  Forall is_Some rs →
  cache_wf (surf s') ∧
  cached_tiles (surf s') = cached_tiles (surf s) ++ l ∧
  tileMemoryValid (surf s') = tileMemoryValid (surf s) + Z.of_nat (length l) ∧
  tileMemoryWrite (surf s') = Z.rem (tileMemoryValid (surf s')) TILE_MEMORY_SIZE ∧
  store_calls (trace s') = store_calls (trace s) ++ ((λ t, (t.1, t.2, false)) <$> l).
Proof.
  revert s rs. induction l as [|[tx ty] l IH]; intros s rs Hwf Hw Hroom Hnd Hrun Hok.
  - simpl in Hrun. unfold ret in Hrun. simplify_eq.
    rewrite !app_nil_r. simpl. rewrite Z.add_0_r. done.
  - simpl in Hrun. unfold mbind, M_bind in Hrun.
    assert (Hmiss : cache_lookup (surf s) tx ty = None).
    { apply cache_lookup_None. apply NoDup_app in Hnd as (_ & Hdisj & _).
      intros Hin. apply (Hdisj _ Hin). left. }
    rewrite (get_tile_memory_miss _ _ _ _ Hmiss) in Hrun. simpl in Hrun.
    destruct (fetch_tiles_total l
      {| surf := match py_get_tile_memory (self (surf s)) (trace s) tx ty false with
                 | Some rgba_p => cache_insert tx ty rgba_p (surf s)
                 | None => surf s
                 end;
         heap := heap s;
         trace := trace s ++ [EvGetTileMemory tx ty false
                    (py_get_tile_memory (self (surf s)) (trace s) tx ty false)] |})
      as (rs' & s1 & Hl).
    rewrite Hl in Hrun. unfold ret in Hrun. simplify_eq.
    apply Forall_cons in Hok as [[p Hp] Hok].
    rewrite Hp in Hl.
    simpl length in Hroom.
    assert (Hlt : tileMemoryValid (surf s) < TILE_MEMORY_SIZE) by lia.
    assert (Hweq : tileMemoryWrite (surf s) = tileMemoryValid (surf s)).
    { rewrite Hw. apply Z.rem_small. destruct Hwf as (_ & ? & _). lia. }
    destruct (cache_insert_grow tx ty p (surf s) Hwf Hlt Hweq) as (Hc & Hv & Hw').
    set (s0 := {| surf := cache_insert tx ty p (surf s); heap := heap s;
                  trace := trace s ++ [EvGetTileMemory tx ty false (Some p)] |}) in *.
    assert (Hnd' : NoDup (cached_tiles (surf s0) ++ l)).
    { unfold s0; cbn [surf]. rewrite Hc, <-app_assoc. done. }
    assert (Hroom' : tileMemoryValid (surf s0) + Z.of_nat (length l) ≤ TILE_MEMORY_SIZE).
    { unfold s0; cbn [surf]. rewrite Hv. lia. }
    destruct (IH s0 rs' (cache_insert_wf _ _ _ _ Hwf) Hw' Hroom' Hnd' Hl Hok)
      as (Hwf' & Hc' & Hv' & Hw'' & Htr).
    unfold s0 in *; cbn [surf trace] in *.
    split; [done|]. split; [by rewrite Hc', Hc, <-app_assoc|].
    split; [rewrite Hv', Hv; simpl length; lia|]. split; [done|].
    rewrite Htr. unfold store_calls. rewrite omap_app. simpl.
    by rewrite <-app_assoc.
Qed.

(** fetching tiles that are all cached changes nothing, however often it
    is done *)
Lemma fetch_tiles_hits (l : list (Z * Z)) (s : State) :
  Forall (λ t, t ∈ cached_tiles (surf s)) l →
  ∃ rs, fetch_tiles l s = (Ok rs, s) ∧ Forall is_Some rs.
Proof.
  induction l as [|[tx ty] l IH]; intros Hall.
  - by exists [].
  - apply Forall_cons in Hall as [Hin Hall].
    destruct (cache_lookup (surf s) tx ty) as [p|] eqn:Hl.
    2:{ by apply cache_lookup_None in Hl. }
    destruct (IH Hall) as (rs & Hrun & Hok).
    exists (Some p :: rs). split.
    + simpl. unfold mbind, M_bind. rewrite (get_tile_memory_hit _ _ _ _ _ Hl).
      by rewrite Hrun.
    + by constructor.
Qed.

(** C2.  For every sequence of write-mode fetches the cache holds at most
    [TILE_MEMORY_SIZE] = 8 valid entries.  Starting from the empty cache
    with which every batch begins (valid count and write index 0), after
    successful fetches of nine pairwise distinct tiles, however often the
    first eight were requested again before the ninth:
    - the cache holds the ninth tile in the slot of the first and the
      other seven where they were (a slot is overwritten in the order of
      the write index, and a hit does not move it);
    - the tile store has been called nine times, once per distinct tile
      and in their order: every repeated request was a hit;
    - each of these eight tiles is still answered from the cache, with
      the state unchanged;
    - the tile fetched first is no longer among the valid entries, and a
      further write-mode request for it is answered by a new call to the
      tile store; when that call succeeds, the first tile takes the next
      slot, that of the second tile. *)
Theorem cache_capacity_and_round_robin_eviction :
  (∀ (l : list (Z * Z)) (s : State),
      cache_wf (surf s) →
      tileMemoryValid (surf (fetch_tiles l s).2) ≤ TILE_MEMORY_SIZE ∧
      (length (cached_tiles (surf (fetch_tiles l s).2)) ≤ 8)%nat)
  ∧
  (∀ (l8 again : list (Z * Z)) (first ninth : Z * Z) (s s' : State)
     (rs : list (option ptr)),
      cache_wf (surf s) →
      tileMemoryValid (surf s) = 0 → tileMemoryWrite (surf s) = 0 →
      length l8 = 8%nat → NoDup (l8 ++ [ninth]) → head l8 = Some first →
      Forall (λ t, t ∈ l8) again →
      fetch_tiles (l8 ++ again ++ [ninth]) s = (Ok rs, s') →
      Forall is_Some rs →
      cached_tiles (surf s') = ninth :: tail l8 ∧
      store_calls (trace s') =
        store_calls (trace s) ++ ((λ t, (t.1, t.2, false)) <$> (l8 ++ [ninth])) ∧
      (∀ t, t ∈ ninth :: tail l8 →
         ∃ p, get_tile_memory t.1 t.2 false s' = (Ok (Some p), s')) ∧
      (first ∉ cached_tiles (surf s')) ∧
      ∃ res s'',
        get_tile_memory first.1 first.2 false s' = (Ok res, s'') ∧
        trace s'' = trace s' ++ [EvGetTileMemory first.1 first.2 false res] ∧
        (is_Some res →
         cached_tiles (surf s'') = ninth :: first :: tail (tail l8))).
Proof.
  split.
  - intros l s Hwf. pose proof (fetch_tiles_wf l s Hwf) as (Hlen & Hv & _).
    split; [lia|]. unfold cached_tiles. rewrite length_fmap, length_take.
    unfold TILE_MEMORY_SIZE in *. lia.
  - intros l8 again first ninth s s' rs Hwf Hv0 Hw0 Hlen Hnd Hhead Hagain Hrun Hok.
    destruct (fetch_tiles_total l8 s) as (rs8 & s8 & H8).
    destruct (fetch_tiles_total [ninth] s8) as (rs9 & s9 & H9).
    assert (Hempty : cached_tiles (surf s) = []).
    { unfold cached_tiles. by rewrite Hv0. }
    pose proof Hnd as Hnd9.
    apply NoDup_app in Hnd as (Hnd8 & Hdisj & _).
    assert (Hok8 : Forall is_Some rs8 ∧ Forall is_Some rs9 ∧ s' = s9).
    { destruct (fetch_tiles_total again s8) as (rsa & sa & Ha).
      destruct (fetch_tiles_total [ninth] sa) as (rs9' & s9' & H9').
      rewrite (fetch_tiles_app _ _ _ _ _ _ _ H8
                 (fetch_tiles_app _ _ _ _ _ _ _ Ha H9')) in Hrun.
      simplify_eq.
      apply Forall_app in Hok as [Hok8 Hok]. apply Forall_app in Hok as [_ Hok9].
      destruct (fetch_tiles_fill l8 s s8 rs8) as (_ & Hc8 & _);
        [done|by rewrite Hv0, Hw0
        |rewrite Hv0, Hlen; unfold TILE_MEMORY_SIZE; lia
        |by rewrite Hempty|done|done|].
      rewrite Hempty in Hc8. simpl in Hc8.
      destruct (fetch_tiles_hits again s8) as (rsa' & Ha' & _); [by rewrite Hc8|].
      rewrite Ha' in Ha. simplify_eq. rewrite H9' in H9. by simplify_eq. }
    destruct Hok8 as (Hok8 & Hok9 & ->).
    destruct (fetch_tiles_fill l8 s s8 rs8) as (Hwf8 & Hc8 & Hv8 & Hw8 & Hst8);
      [done|by rewrite Hv0, Hw0|rewrite Hv0, Hlen; unfold TILE_MEMORY_SIZE; lia
      |by rewrite Hempty|done|done|].
    rewrite Hempty in Hc8. rewrite Hv0, Hlen in Hv8. simpl in Hc8, Hv8. rewrite Hv8 in Hw8.
    change (Z.rem 8 TILE_MEMORY_SIZE) with 0 in Hw8.
    destruct ninth as [tx9 ty9].
    assert (Hmiss9 : cache_lookup (surf s8) tx9 ty9 = None).
    { apply cache_lookup_None. rewrite Hc8. intros Hin.
      apply (Hdisj _ Hin). left. }
    simpl in H9. unfold mbind, M_bind in H9.
    rewrite (get_tile_memory_miss _ _ _ _ Hmiss9) in H9.
    unfold ret in H9. simpl in H9. injection H9 as <- <-.
    apply Forall_cons in Hok9 as [[p9 Hp9] _]. rewrite Hp9. simpl.
    destruct (cache_insert_full tx9 ty9 p9 (surf s8) Hwf8 Hv8) as [Hc9 Hv9].
    pose proof (cache_insert_wf tx9 ty9 p9 (surf s8) Hwf8) as Hwf9.
    assert (Hw9 : tileMemoryWrite (cache_insert tx9 ty9 p9 (surf s8)) = 1).
    { unfold cache_insert. destruct (_ <? _); simpl; by rewrite Hw8. }
    destruct l8 as [|t1 l8']; [done|]. simpl in Hhead. simplify_eq.
    rewrite Hw8, Hc8 in Hc9. simpl in Hc9.
    apply NoDup_cons in Hnd8 as [Hfirst Hnd8'].
    assert (Hout : first ∉ cached_tiles (cache_insert tx9 ty9 p9 (surf s8))).
    { rewrite Hc9. rewrite not_elem_of_cons. split; [|done].
      intros ->. apply (Hdisj (tx9, ty9)); left. }
    split; [done|]. split.
    { unfold store_calls in *. rewrite omap_app, Hst8, fmap_app. simpl.
      by rewrite <- app_assoc. }
    split.
    { intros [tx ty] Hin. simpl tail in Hin. rewrite <- Hc9 in Hin.
      match goal with |- ∃ p, get_tile_memory _ _ _ ?s0 = _ =>
        destruct (cache_lookup (surf s0) tx ty) as [p|] eqn:Hl end.
      - exists p. by apply get_tile_memory_hit.
      - by apply cache_lookup_None in Hl. }
    split; [done|].
    destruct first as [tx1 ty1]. apply cache_lookup_None in Hout.
    eexists _, _. split; [apply get_tile_memory_miss; exact Hout|].
    split; [done|]. cbv zeta. intros [p1 Hp1]. simpl. simpl in Hp1. rewrite Hp1.
    destruct (cache_insert_full tx1 ty1 p1 _ Hwf9 Hv9) as [Hc1 _].
    rewrite Hc1, Hw9, Hc9. simpl in Hlen.
    destruct l8' as [|t2 l8'']; [done|]. done.
Qed.

(** ** Batches: proofs *)

(** C6.  A read-only fetch that misses the cache calls the store and
    leaves the object as it was: valid count, write index and every cache
    slot are unchanged. *)
Theorem readonly_miss_leaves_cache_unchanged (tx ty : Z) (s : State) :
  cache_lookup (surf s) tx ty = None →
  ∃ res s',
    get_tile_memory tx ty true s = (Ok res, s') ∧
    trace s' = trace s ++ [EvGetTileMemory tx ty true res] ∧
    tileMemoryValid (surf s') = tileMemoryValid (surf s) ∧
    tileMemoryWrite (surf s') = tileMemoryWrite (surf s) ∧
    tileMemory (surf s') = tileMemory (surf s) ∧
    surf s' = surf s.
Proof.
  intros Hmiss. eexists _, _. split.
  - apply get_tile_memory_miss, Hmiss.
  - simpl. by destruct (py_get_tile_memory _ _ _ _ _).
Qed.

Lemma begin_atomic_spec (s : State) :
  begin_atomic s =
    if (atomic (surf s) =? 0) &&
       negb ((Rect.w (dirty_bbox (surf s)) =? 0) && (tileMemoryValid (surf s) =? 0))
    then (AssertionFailed, s)
    else (Ok tt, {| surf := set_atomic (atomic (surf s) + 1) (surf s);
                    heap := heap s; trace := trace s |}).
Proof.
  unfold begin_atomic, mbind, M_bind, get_surf, assert, modify_surf, ret; simpl.
  destruct (atomic (surf s) =? 0); simpl; [|done].
  destruct (Rect.w (dirty_bbox (surf s)) =? 0); simpl; [|done].
  by destruct (tileMemoryValid (surf s) =? 0).
Qed.

Lemma end_atomic_reset_spec (s : State) :
  end_atomic_reset s =
    if 0 <? atomic (surf s) then
      if atomic (surf s) - 1 =? 0 then
        (Ok (if 0 <? Rect.w (dirty_bbox (surf s))
             then Some (dirty_bbox (surf s)) else None),
         {| surf := set_dirty_bbox (Rect.set_w (dirty_bbox (surf s)) 0)
                      (set_tileMemoryWrite 0 (set_tileMemoryValid 0
                         (set_atomic (atomic (surf s) - 1) (surf s))));
            heap := heap s; trace := trace s |})
      else
        (Ok None, {| surf := set_atomic (atomic (surf s) - 1) (surf s);
                     heap := heap s; trace := trace s |})
    else (AssertionFailed, s).
Proof.
  unfold end_atomic_reset, mbind, M_bind, get_surf, assert, modify_surf, ret; simpl.
  destruct (0 <? atomic (surf s)); simpl; [|done].
  destruct (atomic (surf s) - 1 =? 0); simpl; [|done].
  by destruct (0 <? Rect.w (dirty_bbox (surf s))).
Qed.

Lemma end_atomic_notify_spec (bbox : Rect.t) (s : State) :
  let ok := py_notify_observers (self (surf s)) (trace s)
              (Rect.x bbox) (Rect.y bbox) (Rect.w bbox) (Rect.h bbox) in
  end_atomic_notify bbox s =
    (if ok then Ok tt else MemoryFault,
     {| surf := surf s; heap := heap s;
        trace := trace s ++ [EvNotifyObservers (Rect.x bbox) (Rect.y bbox)
                               (Rect.w bbox) (Rect.h bbox) ok] |}).
Proof.
  unfold end_atomic_notify, mbind, M_bind, call_notify_observers, ret, fault; simpl.
  by destruct (py_notify_observers _ _ _ _ _ _).
Qed.

(** C8.  In the close that takes the depth from 1 to 0, everything up to
    the call of [notify_observers] leaves the width of the dirty box, the
    valid count and the write index at 0, and Python has not been called
    yet.  The call itself does not change the object, so the object after
    [end_atomic] is the reset one whether or not the observer raises. *)
Theorem end_atomic_resets_before_notifying (s : State) :
  atomic (surf s) = 1 →
  ∃ (r : option Rect.t) (s1 : State),
    end_atomic_reset s = (Ok r, s1) ∧
    trace s1 = trace s ∧
    Rect.w (dirty_bbox (surf s1)) = 0 ∧
    tileMemoryValid (surf s1) = 0 ∧
    tileMemoryWrite (surf s1) = 0 ∧
    (∀ bbox, surf (end_atomic_notify bbox s1).2 = surf s1) ∧
    surf (end_atomic s).2 = surf s1.
Proof.
  intros Hdepth. eexists _, _. split.
  - rewrite end_atomic_reset_spec, Hdepth. simpl. reflexivity.
  - simpl. do 4 (split; [done|]). split.
    + intros bbox. by rewrite end_atomic_notify_spec.
    + unfold end_atomic, mbind, M_bind.
      rewrite end_atomic_reset_spec, Hdepth. simpl.
      destruct (0 <? Rect.w (dirty_bbox (surf s))); [|done].
      by rewrite end_atomic_notify_spec.
Qed.

Lemma end_atomic_spec (s : State) :
  end_atomic s =
    if 0 <? atomic (surf s) then
      if atomic (surf s) - 1 =? 0 then
        let s1 := {| surf := set_dirty_bbox (Rect.set_w (dirty_bbox (surf s)) 0)
                      (set_tileMemoryWrite 0 (set_tileMemoryValid 0
                         (set_atomic (atomic (surf s) - 1) (surf s))));
                     heap := heap s; trace := trace s |} in
        if 0 <? Rect.w (dirty_bbox (surf s))
        then end_atomic_notify (dirty_bbox (surf s)) s1
        else (Ok tt, s1)
      else
        (Ok tt, {| surf := set_atomic (atomic (surf s) - 1) (surf s);
                   heap := heap s; trace := trace s |})
    else (AssertionFailed, s).
Proof.
  unfold end_atomic, mbind, M_bind. rewrite end_atomic_reset_spec.
  destruct (0 <? atomic (surf s)); [|done].
  destruct (atomic (surf s) - 1 =? 0); [|done].
  destruct (0 <? Rect.w (dirty_bbox (surf s))); [|done].
  simpl. by destruct (end_atomic_notify _ _) as [[[]| |] ?].
Qed.

Lemma notifications_app (tr1 tr2 : list Event) :
  notifications (tr1 ++ tr2) = notifications tr1 ++ notifications tr2.
Proof. apply omap_app. Qed.

Lemma run_calls_notifications (l : list batch_call) (s : State) :
  (length (notifications (trace (run_calls l s).2)) ≤
   length (notifications (trace s)) + outermost_closes (atomic (surf s)) l)%nat.
Proof.
  revert s. induction l as [|c l IH]; intros s; [simpl; lia|].
  simpl. unfold mbind, M_bind. destruct c; simpl.
  - rewrite begin_atomic_spec.
    destruct (_ && _); simpl; [lia|]. etrans; [apply IH|]. simpl. lia.
  - rewrite end_atomic_spec.
    destruct (Z.ltb_spec 0 (atomic (surf s))); simpl; [|lia].
    destruct (Z.eqb_spec (atomic (surf s) - 1) 0) as [H0|H0]; simpl.
    + assert (atomic (surf s) = 1) as -> by lia. simpl.
      destruct (0 <? Rect.w (dirty_bbox (surf s))).
      * rewrite end_atomic_notify_spec. simpl.
        destruct (py_notify_observers _ _ _ _ _ _); simpl.
        -- etrans; [apply IH|]. simpl. rewrite notifications_app, length_app. simpl. lia.
        -- rewrite notifications_app, length_app. simpl. lia.
      * etrans; [apply IH|]. simpl. lia.
    + destruct (Z.eqb_spec (atomic (surf s)) 1); [lia|].
      etrans; [apply IH|]. simpl. lia.
Qed.

(** C4.  A close at depth greater than 1 changes the depth counter and
    nothing else.  The close at depth 1 sets depth, valid count and write
    index to 0, empties the dirty box and reports the accumulated box once
    if its width is positive, and not at all otherwise.  An open changes
    nothing but the depth counter.  Over any sequence of opens and closes
    the number of reports is at most the number of closes that take the
    depth from 1 to 0. *)
Theorem only_outermost_close_flushes :
  (∀ s : State, 1 < atomic (surf s) →
     end_atomic s =
       (Ok tt, {| surf := set_atomic (atomic (surf s) - 1) (surf s);
                  heap := heap s; trace := trace s |}))
  ∧
  (∀ s : State, atomic (surf s) = 1 →
     let s' := (end_atomic s).2 in
     let bbox := dirty_bbox (surf s) in
     atomic (surf s') = 0 ∧
     tileMemoryValid (surf s') = 0 ∧
     tileMemoryWrite (surf s') = 0 ∧
     Rect.w (dirty_bbox (surf s')) = 0 ∧
     store_calls (trace s') = store_calls (trace s) ∧
     notifications (trace s') =
       notifications (trace s) ++ (if 0 <? Rect.w bbox then [bbox] else []))
  ∧
  (∀ s : State,
     let s' := (begin_atomic s).2 in
     trace s' = trace s ∧ heap s' = heap s ∧
     set_atomic (atomic (surf s)) (surf s') = surf s)
  ∧
  (∀ (l : list batch_call) (s : State),
     (length (notifications (trace (run_calls l s).2)) ≤
      length (notifications (trace s)) + outermost_closes (atomic (surf s)) l)%nat).
Proof.
  split; [|split; [|split]].
  - intros s Hd. rewrite end_atomic_spec.
    destruct (Z.ltb_spec 0 (atomic (surf s))); [|lia].
    destruct (Z.eqb_spec (atomic (surf s) - 1) 0); [lia|done].
  - intros s Hd. rewrite end_atomic_spec, Hd. simpl.
    destruct (dirty_bbox (surf s)) as [bx by' bw bh] eqn:Hb. simpl.
    destruct (0 <? bw).
    + rewrite end_atomic_notify_spec. simpl.
      unfold store_calls. rewrite notifications_app, omap_app. simpl.
      by rewrite app_nil_r.
    + simpl. by rewrite app_nil_r.
  - intros s. rewrite begin_atomic_spec.
    destruct (_ && _); simpl; by destruct (surf s).
  - apply run_calls_notifications.
Qed.

(** ** Memory and loops: proofs *)

Lemma load_Some (p : ptr) (i v : Z) (buf : list Z) (s : State) :
  heap s !! p = Some buf → index buf i = Some v → load p i s = (Ok v, s).
Proof.
  unfold load, index. intros -> Hi.
  destruct (0 <=? i); [|done]. by rewrite Hi.
Qed.

Lemma load_unmapped (p : ptr) (i : Z) (s : State) :
  heap s !! p = None → load p i s = (MemoryFault, s).
Proof. unfold load. by intros ->. Qed.

Lemma store_Some (p : ptr) (i v : Z) (buf : list Z) (s : State) :
  heap s !! p = Some buf → 0 ≤ i < Z.of_nat (length buf) →
  store p i v s = (Ok tt, set_heap (<[p := <[Z.to_nat i := uint16 v]> buf]> (heap s)) s).
Proof.
  unfold store. intros -> [H0 H1].
  destruct (Z.leb_spec 0 i); [|lia]. destruct (Z.ltb_spec i (Z.of_nat (length buf))); [|lia].
  done.
Qed.

Lemma index_Some (l : list Z) (i : Z) :
  0 ≤ i < Z.of_nat (length l) → ∃ v, index l i = Some v.
Proof.
  intros [H0 H1]. unfold index. destruct (Z.leb_spec 0 i); [|lia].
  apply lookup_lt_is_Some. lia.
Qed.

Lemma index_insert_ne (l : list Z) (i j v : Z) :
  0 ≤ j → i ≠ j → index (<[Z.to_nat j := v]> l) i = index l i.
Proof.
  intros Hj Hne. unfold index. destruct (Z.leb_spec 0 i); [|done].
  apply list_lookup_insert_ne. lia.
Qed.

Section DabPixel.
Context {F : Type} {FO : FloatOps F}.

Lemma draw_dab_pixel_mapped (p : ptr) (buf : list Z) (xc one_over_radius2 : F)
    (color_r_ color_g_ color_b_ : Z) (opaque hardness alpha_eraser yy : F)
    (yp xp : Z) (s : State) :
  heap s !! p = Some buf →
  0 ≤ pixel_idx xp yp → pixel_idx xp yp + 3 < Z.of_nat (length buf) →
  draw_dab_pixel p xc one_over_radius2 color_r_ color_g_ color_b_
      opaque hardness alpha_eraser yy yp xp s =
    (Ok tt, set_heap (<[p := dab_pixel xc one_over_radius2 color_r_ color_g_ color_b_
                              opaque hardness alpha_eraser yy yp xp buf]> (heap s)) s).
Proof.
  intros Hp Hlo Hhi. unfold draw_dab_pixel, dab_pixel.
  destruct (_ <=? _)%flt.
  2:{ unfold ret, set_heap. rewrite insert_id by done. by destruct s. }
  destruct (dab_weights _ _) as [opa_a opa_b].
  set (idx := pixel_idx xp yp) in *.
  unfold composite_over.
  destruct (index_Some buf (idx + 0)) as [r Hr]; [lia|].
  destruct (index_Some buf (idx + 1)) as [g Hg]; [lia|].
  destruct (index_Some buf (idx + 2)) as [b Hb]; [lia|].
  destruct (index_Some buf (idx + 3)) as [a Ha]; [lia|].
  rewrite Hr, Hg, Hb, Ha.
  unfold mbind, M_bind.
  rewrite (load_Some _ _ _ _ _ Hp Ha).
  erewrite store_Some; [|done|lia].
  erewrite load_Some; [| apply lookup_insert_eq | rewrite index_insert_ne by lia; done].
  erewrite store_Some; [| apply lookup_insert_eq | rewrite length_insert; lia].
  erewrite load_Some; [| apply lookup_insert_eq | rewrite !index_insert_ne by lia; done].
  erewrite store_Some; [| apply lookup_insert_eq | rewrite !length_insert; lia].
  erewrite load_Some; [| apply lookup_insert_eq | rewrite !index_insert_ne by lia; done].
  erewrite store_Some; [| apply lookup_insert_eq | rewrite !length_insert; lia].
  unfold set_heap; simpl. by rewrite !insert_insert_eq.
Qed.

Lemma draw_dab_pixel_unmapped (p : ptr) (xc one_over_radius2 : F)
    (color_r_ color_g_ color_b_ : Z) (opaque hardness alpha_eraser yy : F)
    (yp xp : Z) (s : State) :
  heap s !! p = None →
  (draw_dab_pixel p xc one_over_radius2 color_r_ color_g_ color_b_
      opaque hardness alpha_eraser yy yp xp s).2 = s.
Proof.
  intros Hp. unfold draw_dab_pixel.
  destruct (_ <=? _)%flt; [|done].
  destruct (dab_weights _ _) as [opa_a opa_b].
  unfold mbind, M_bind. by rewrite (load_unmapped _ _ _ Hp).
Qed.
End DabPixel.

(** ** Loops *)

Lemma for_loop_total {A R : Type} (I : State → Prop)
    (body : Z → A → M (A + R)) (n : nat) (i : Z) (acc : A) (s : State) :
  (∀ j acc s, i ≤ j < i + Z.of_nat n → I s →
     ∃ acc' s', body j acc s = (Ok (inl acc'), s') ∧ I s') →
  I s →
  ∃ acc' s', for_loop n i body acc s = (Ok (inl acc'), s') ∧ I s'.
Proof.
  revert i acc s. induction n as [|n IH]; intros i acc s Hbody HI.
  - by eexists _, _.
  - simpl. unfold mbind, M_bind.
    destruct (Hbody i acc s) as (acc1 & s1 & -> & HI1); [lia|done|].
    apply IH; [|done]. intros j acc2 s2 Hj. apply Hbody. lia.
Qed.

Lemma for_loop_preserves {A R : Type} (I : State → Prop)
    (body : Z → A → M (A + R)) (n : nat) (i : Z) (acc : A) (s : State) :
  (∀ j acc s, i ≤ j < i + Z.of_nat n → I s → I (body j acc s).2) →
  I s → I (for_loop n i body acc s).2.
Proof.
  revert i acc s. induction n as [|n IH]; intros i acc s Hbody HI; [done|].
  simpl. unfold mbind, M_bind.
  pose proof (Hbody i acc s ltac:(lia) HI) as HI1.
  destruct (body i acc s) as [[[acc1|r]| |] s1]; simpl in *; try done.
  apply IH; [|done]. intros j acc2 s2 Hj. apply Hbody. lia.
Qed.

Lemma for_range_total {A R : Type} (I : State → Prop)
    (body : Z → A → M (A + R)) (lo hi : Z) (acc : A) (s : State) :
  (∀ j acc s, lo ≤ j ≤ hi → I s →
     ∃ acc' s', body j acc s = (Ok (inl acc'), s') ∧ I s') →
  I s →
  ∃ acc' s', for_range lo hi body acc s = (Ok (inl acc'), s') ∧ I s'.
Proof.
  intros Hbody HI. apply (for_loop_total I); [|done].
  intros j acc1 s1 Hj. apply Hbody. lia.
Qed.

Lemma for_range_preserves {A R : Type} (I : State → Prop)
    (body : Z → A → M (A + R)) (lo hi : Z) (acc : A) (s : State) :
  (∀ j acc s, lo ≤ j ≤ hi → I s → I (body j acc s).2) →
  I s → I (for_range lo hi body acc s).2.
Proof.
  intros Hbody HI. apply (for_loop_preserves I); [|done].
  intros j acc1 s1 Hj. apply Hbody. lia.
Qed.

Section Clip.
Context {F : Type} {FO : FloatOps F}.

Lemma clip_lo_nonneg (c r_fringe : F) : 0 ≤ clip_lo c r_fringe.
Proof. unfold clip_lo. destruct (Z.ltb_spec (to_int (ffloor (c - r_fringe)%flt)) 0); lia. Qed.

Lemma clip_hi_bound (c r_fringe : F) : clip_hi c r_fringe ≤ TILE_SIZE - 1.
Proof.
  unfold clip_hi.
  destruct (Z.ltb_spec (TILE_SIZE - 1) (to_int (fceil (c + r_fringe)%flt))); lia.
Qed.

Lemma pixel_idx_bounds (xp yp : Z) :
  0 ≤ xp ≤ TILE_SIZE - 1 → 0 ≤ yp ≤ TILE_SIZE - 1 →
  0 ≤ pixel_idx xp yp ∧ pixel_idx xp yp + 3 < TILE_SIZE * TILE_SIZE * 4.
Proof. unfold pixel_idx, TILE_SIZE. lia. Qed.
End Clip.

Section DabPixels.
Context {F : Type} {FO : FloatOps F}.

Lemma draw_dab_pixels_mapped (P : list Z → Prop) (p : ptr) (buf : list Z)
    (xc yc r_fringe one_over_radius2 : F)
    (color_r_ color_g_ color_b_ : Z) (opaque hardness alpha_eraser : F)
    (s : State) :
  heap s !! p = Some buf →
  Z.of_nat (length buf) = TILE_SIZE * TILE_SIZE * 4 →
  P buf →
  (∀ yp xp b,
     0 ≤ xp ≤ TILE_SIZE - 1 → 0 ≤ yp ≤ TILE_SIZE - 1 →
     Z.of_nat (length b) = TILE_SIZE * TILE_SIZE * 4 → P b →
     P (dab_pixel xc one_over_radius2 color_r_ color_g_ color_b_
          opaque hardness alpha_eraser
          ((of_int yp + lit_0_5 - yc) * (of_int yp + lit_0_5 - yc))%flt yp xp b)) →
  ∃ buf',
    draw_dab_pixels p xc yc r_fringe one_over_radius2
        color_r_ color_g_ color_b_ opaque hardness alpha_eraser s =
      (Ok (inl tt), set_heap (<[p := buf']> (heap s)) s) ∧
    Z.of_nat (length buf') = TILE_SIZE * TILE_SIZE * 4 ∧ P buf'.
Proof.
  intros Hp Hlen HP Hstep.
  set (I := λ s' : State, ∃ b, s' = set_heap (<[p := b]> (heap s)) s ∧
              Z.of_nat (length b) = TILE_SIZE * TILE_SIZE * 4 ∧ P b).
  assert (HI : I s).
  { exists buf. split; [|done]. unfold set_heap. rewrite insert_id by done. by destruct s. }
  unfold draw_dab_pixels.
  pose proof (clip_lo_nonneg xc r_fringe) as Hx0.
  pose proof (clip_lo_nonneg yc r_fringe) as Hy0.
  pose proof (clip_hi_bound xc r_fringe) as Hx1.
  pose proof (clip_hi_bound yc r_fringe) as Hy1.
  match goal with
  | |- ∃ _, for_range ?lo ?hi ?body ?acc ?s = _ ∧ _ =>
      destruct (for_range_total I body lo hi acc s) as ([] & s' & Hrun & b & -> & Hb);
        [|exact HI|rewrite Hrun; by exists b]
  end.
  intros yp [] s1 Hyp HI1.
  match goal with
  | |- ∃ _ _, for_range ?lo ?hi ?body ?acc ?s = _ ∧ _ =>
      destruct (for_range_total I body lo hi acc s) as ([] & s2 & Hrun & HI2);
        [|exact HI1|rewrite Hrun; by eexists _, _]
  end.
  intros xp [] s2 Hxp (b & -> & Hblen & HPb).
  destruct (pixel_idx_bounds xp yp) as [Hi0 Hi3]; [clear -Hx0 Hx1 Hxp; lia|clear -Hy0 Hy1 Hyp; lia|].
  unfold mbind, M_bind.
  erewrite draw_dab_pixel_mapped; [|apply lookup_insert_eq|done|lia].
  eexists tt, _. split; [done|].
  eexists. split; [|split].
  - unfold set_heap; simpl. by rewrite insert_insert_eq.
  - unfold dab_pixel. destruct (_ <=? _)%flt; [|done].
    destruct (dab_weights _ _). unfold composite_over.
    repeat case_match; rewrite ?length_insert; done.
  - apply Hstep; [lia|lia|done|done].
Qed.

Lemma draw_dab_pixels_unmapped (p : ptr)
    (xc yc r_fringe one_over_radius2 : F)
    (color_r_ color_g_ color_b_ : Z) (opaque hardness alpha_eraser : F)
    (s : State) :
  heap s !! p = None →
  (draw_dab_pixels p xc yc r_fringe one_over_radius2
      color_r_ color_g_ color_b_ opaque hardness alpha_eraser s).2 = s.
Proof.
  intros Hp. unfold draw_dab_pixels.
  apply (for_range_preserves (λ s', s' = s)); [|done].
  intros yp [] s1 _ ->.
  apply (for_range_preserves (λ s', s' = s)); [|done].
  intros xp [] s1 _ ->. unfold mbind, M_bind.
  pose proof (draw_dab_pixel_unmapped p xc one_over_radius2 color_r_ color_g_ color_b_
    opaque hardness alpha_eraser
    ((of_int yp + lit_0_5 - yc) * (of_int yp + lit_0_5 - yc))%flt yp xp s Hp) as H.
  destruct (draw_dab_pixel _ _ _ _ _ _ _ _ _ _ _ _ s) as [[[]| |] s1]; simpl in *; by subst.
Qed.
End DabPixels.
Lemma Qinv_pos_le_1 (h : Q) : (0 < h)%Q → (h <= 1)%Q → (1 <= / h)%Q.
Proof.
  intros H0 H1.
  assert (Hu : (0 < / h)%Q) by (by apply Qinv_lt_0_compat).
  assert (Hm : (h * / h == 1)%Q) by (apply Qmult_inv_r; lra).
  nra.
Qed.

Lemma falloff_unit_range (opaque hardness rr : Q) :
  (0 <= opaque)%Q → (opaque <= 1)%Q →
  (0 < hardness)%Q → (hardness <= 1)%Q →
  (0 <= rr)%Q → (rr <= 1)%Q →
  (0 <= falloff opaque hardness rr)%Q ∧ (falloff opaque hardness rr <= 1)%Q.
Proof.
  intros Ho0 Ho1 Hh0 Hh1 Hr0 Hr1. unfold falloff. simpl.
  change (inject_Z 1) with 1%Q.
  destruct (Qle_bool 1 hardness) eqn:Hh; simpl; [done|].
  assert (Hlt : (hardness < 1)%Q).
  { apply Qnot_le_lt. intros Hle. apply Qle_bool_iff in Hle. congruence. }
  destruct (Qle_bool hardness rr) eqn:Hc; simpl.
  - apply Qle_bool_iff in Hc.
    unfold Qdiv.
    set (v := (/ (hardness - 1))%Q).
    assert (Hv : ((hardness - 1) * v == 1)%Q) by (apply Qmult_inv_r; lra).
    assert (Hv0 : (v < 0)%Q) by nra.
    assert (H1 : (0 <= v * (rr - 1))%Q) by nra.
    assert (H2 : (v * (rr - 1) <= 1)%Q) by nra.
    assert (H3 : (0 <= hardness * v * (rr - 1))%Q) by nra.
    assert (H4 : (hardness * v * (rr - 1) <= 1)%Q) by nra.
    split; nra.
  - assert (Hc' : (rr < hardness)%Q).
    { apply Qnot_le_lt. intros Hle. apply Qle_bool_iff in Hle. congruence. }
    unfold Qdiv.
    set (u := (/ hardness)%Q).
    assert (Hu : (hardness * u == 1)%Q) by (apply Qmult_inv_r; lra).
    assert (Hu1 : (1 <= u)%Q) by (by apply Qinv_pos_le_1).
    assert (H1 : (rr * u <= 1)%Q) by nra.
    assert (H2 : (rr <= rr * u)%Q) by nra.
    assert (H3 : (0 <= rr + 1 - rr * u)%Q) by lra.
    assert (H4 : (rr + 1 - rr * u <= 1)%Q) by lra.
    split; nra.
Qed.

Lemma to_int_floor (q : Q) : (0 <= q)%Q → to_int q = Qfloor q.
Proof.
  destruct q as [n d]. unfold Qle. simpl. intros Hn.
  apply Z.quot_div_nonneg; lia.
Qed.

(** truncating a value of [[0, n]] gives an integer of [[0, n]] *)
Lemma to_int_range (q : Q) (n : Z) :
  (0 <= q)%Q → (q <= inject_Z n)%Q → 0 ≤ to_int q ≤ n.
Proof.
  intros H0 Hn. rewrite (to_int_floor q H0). split.
  - rewrite <-(Qfloor_Z 0). by apply Qfloor_resp_le.
  - rewrite <-(Qfloor_Z n). by apply Qfloor_resp_le.
Qed.

Lemma uint32_small (z : Z) : 0 ≤ z < 2 ^ 32 → uint32 z = z.
Proof. intros H. unfold uint32, wrap. by apply Z.mod_small. Qed.

Lemma uint16_small (z : Z) : 0 ≤ z < 2 ^ 16 → uint16 z = z.
Proof. intros H. unfold uint16, wrap. by apply Z.mod_small. Qed.

Lemma to_uint32_range (q : Q) (n : Z) :
  n < 2 ^ 32 → (0 <= q)%Q → (q <= inject_Z n)%Q →
  to_uint32 q = to_int q ∧ 0 ≤ to_uint32 q ≤ n.
Proof.
  intros Hn H0 Hq. pose proof (to_int_range q n H0 Hq).
  unfold to_uint32. rewrite uint32_small by lia. done.
Qed.

Lemma color_fixed_point_range (c : Q) :
  (0 <= c)%Q → (c <= 1)%Q →
  0 ≤ to_uint32 (c * of_int (1 ≪ 15))%flt ≤ 2 ^ 15.
Proof.
  intros H0 H1. simpl. change (inject_Z (1 ≪ 15)) with 32768%Q.
  apply (to_uint32_range _ (2 ^ 15)); [done|nra|].
  change (inject_Z (2 ^ 15)) with 32768%Q. nra.
Qed.

Lemma dab_weights_range (opa alpha_eraser : Q) :
  (0 <= opa)%Q → (opa <= 1)%Q →
  (0 <= alpha_eraser)%Q → (alpha_eraser <= 1)%Q →
  0 ≤ (dab_weights opa alpha_eraser).1 ∧
  0 ≤ (dab_weights opa alpha_eraser).2 ∧
  (dab_weights opa alpha_eraser).1 + (dab_weights opa alpha_eraser).2 ≤ 2 ^ 15.
Proof.
  intros Ho0 Ho1 He0 He1. unfold dab_weights. cbn [fst snd].
  destruct (to_uint32_range (of_int (1 ≪ 15) * opa)%flt (2 ^ 15)) as [_ Ha0];
    [done|simpl; change (inject_Z (1 ≪ 15)) with 32768%Q; nra
    |simpl; change (inject_Z (1 ≪ 15)) with 32768%Q;
     change (inject_Z (2 ^ 15)) with 32768%Q; nra|].
  set (opa_a0 := to_uint32 (of_int (1 ≪ 15) * opa)%flt) in *.
  assert (Hq : (0 <= inject_Z opa_a0)%Q).
  { change 0%Q with (inject_Z 0). rewrite <-Zle_Qle. lia. }
  destruct (to_uint32_range (of_int opa_a0 * alpha_eraser)%flt opa_a0) as [_ Ha];
    [lia|simpl; nra|simpl; nra|].
  unfold sub32. change (1 ≪ 15) with (2 ^ 15). rewrite uint32_small by lia. lia.
Qed.

Lemma premultiplied_tile_spec (buf : list Z) :
  premultiplied_tile buf = true ↔
  Z.of_nat (length buf) = TILE_SIZE * TILE_SIZE * 4 ∧
  ∀ k, 0 ≤ k < TILE_SIZE * TILE_SIZE →
    ∃ px, pixel_at buf k = Some px ∧ premultiplied_pixel px = true.
Proof.
  unfold premultiplied_tile. rewrite andb_true_iff, Z.eqb_eq, forallb_forall.
  apply and_iff_compat_l. split.
  - intros H k Hk.
    assert (Hin : In k (seqZ 0 (TILE_SIZE * TILE_SIZE))).
    { apply list_elem_of_In, elem_of_seqZ. lia. }
    apply H in Hin. destruct (pixel_at buf k) as [px|]; [by exists px|done].
  - intros H k Hk%list_elem_of_In%elem_of_seqZ.
    destruct (H k) as (px & -> & Hpx); [lia|done].
Qed.

Lemma index_insert_eq (l : list Z) (j v : Z) :
  0 ≤ j < Z.of_nat (length l) → index (<[Z.to_nat j := v]> l) j = Some v.
Proof.
  intros [H0 H1]. unfold index. destruct (Z.leb_spec 0 j); [|lia].
  apply list_lookup_insert_eq. lia.
Qed.

Lemma index_lt (l : list Z) (i v : Z) :
  index l i = Some v → 0 ≤ i < Z.of_nat (length l).
Proof.
  unfold index. destruct (Z.leb_spec 0 i); [|done].
  intros Hl%lookup_lt_Some. lia.
Qed.

(** The new value of a colour channel and of alpha, without wrap-around:
    the terms under the wraps stay below [2^32], the results below
    [2^16], and the pixel stays premultiplied. *)
Lemma over_channel_range (opa_a opa_b top c a : Z) :
  0 ≤ opa_a → 0 ≤ opa_b → opa_a + opa_b ≤ 2 ^ 15 →
  0 ≤ top ≤ 2 ^ 15 → 0 ≤ c ≤ a → a ≤ 2 ^ 15 →
  opa_a * top + opa_b * c < 2 ^ 32 ∧
  opa_b * a < 2 ^ 32 ∧
  uint16 (add32 (mul32 opa_a top) (mul32 opa_b c) / (1 ≪ 15)) =
    (opa_a * top + opa_b * c) / 2 ^ 15 ∧
  uint16 (add32 opa_a (mul32 opa_b a / (1 ≪ 15))) = opa_a + opa_b * a / 2 ^ 15 ∧
  0 ≤ (opa_a * top + opa_b * c) / 2 ^ 15 ≤ opa_a + opa_b * a / 2 ^ 15 ∧
  opa_a + opa_b * a / 2 ^ 15 ≤ 2 ^ 15.
Proof.
  intros Ha Hb Hab Htop Hc Hal. change (1 ≪ 15) with (2 ^ 15).
  assert (H1 : 0 ≤ opa_a * top ≤ opa_a * 2 ^ 15) by nia.
  assert (H2 : 0 ≤ opa_b * c ≤ opa_b * a) by nia.
  assert (H3 : 0 ≤ opa_b * a ≤ opa_b * 2 ^ 15) by nia.
  assert (H4 : opa_b * a / 2 ^ 15 ≤ opa_b).
  { apply Z.div_le_upper_bound; lia. }
  assert (H5 : 0 ≤ opa_b * a / 2 ^ 15) by (apply Z.div_pos; lia).
  assert (H6 : (opa_a * top + opa_b * c) / 2 ^ 15 ≤ opa_a + opa_b * a / 2 ^ 15).
  { rewrite <-(Z.div_add_l opa_a (2 ^ 15) (opa_b * a)) by lia.
    apply Z.div_le_mono; lia. }
  assert (H7 : 0 ≤ (opa_a * top + opa_b * c) / 2 ^ 15) by (apply Z.div_pos; lia).
  unfold add32, mul32.
  rewrite !(uint32_small (opa_a * top)), !(uint32_small (opa_b * c)),
    !(uint32_small (opa_b * a)) by lia.
  rewrite !(uint32_small (opa_a * top + opa_b * c)),
    !(uint32_small (opa_a + opa_b * a / 2 ^ 15)) by lia.
  rewrite !uint16_small by lia. lia.
Qed.

Lemma premultiplied_pixel_spec (r g b a : Z) :
  premultiplied_pixel (r, g, b, a) = true ↔
  0 ≤ r ≤ a ∧ 0 ≤ g ≤ a ∧ 0 ≤ b ≤ a ∧ a ≤ 2 ^ 15.
Proof.
  unfold premultiplied_pixel. rewrite !andb_true_iff, !Z.leb_le. lia.
Qed.

Lemma composite_over_premultiplied (opa_a opa_b color_r_ color_g_ color_b_ : Z)
    (k0 : Z) (buf : list Z) :
  0 ≤ opa_a → 0 ≤ opa_b → opa_a + opa_b ≤ 2 ^ 15 →
  0 ≤ color_r_ ≤ 2 ^ 15 → 0 ≤ color_g_ ≤ 2 ^ 15 → 0 ≤ color_b_ ≤ 2 ^ 15 →
  0 ≤ k0 < TILE_SIZE * TILE_SIZE →
  premultiplied_tile buf = true →
  premultiplied_tile
    (composite_over opa_a opa_b color_r_ color_g_ color_b_ (4 * k0) buf) = true.
Proof.
  intros Ha Hb Hab Hcr Hcg Hcb Hk0. rewrite !premultiplied_tile_spec.
  intros [Hlen Hpx].
  destruct (Hpx k0 Hk0) as ([[[r g] b] a] & Hat & Hok).
  apply premultiplied_pixel_spec in Hok as (Hr & Hg & Hbl & Hal).
  unfold pixel_at in Hat.
  destruct (index buf (4 * k0 + 0)) as [r'|] eqn:E0; [|done].
  destruct (index buf (4 * k0 + 1)) as [g'|] eqn:E1; [|done].
  destruct (index buf (4 * k0 + 2)) as [b'|] eqn:E2; [|done].
  destruct (index buf (4 * k0 + 3)) as [a'|] eqn:E3; [|done].
  simpl in Hat. simplify_eq.
  unfold composite_over. rewrite E0, E1, E2, E3.
  destruct (over_channel_range opa_a opa_b color_r_ r a) as (_ & _ & -> & -> & Hr' & Ha');
    [lia..|].
  destruct (over_channel_range opa_a opa_b color_g_ g a) as (_ & _ & -> & _ & Hg' & _);
    [lia..|].
  destruct (over_channel_range opa_a opa_b color_b_ b a) as (_ & _ & -> & _ & Hb' & _);
    [lia..|].
  pose proof (index_lt _ _ _ E0). pose proof (index_lt _ _ _ E3).
  split; [by rewrite !length_insert|].
  intros k Hk. destruct (decide (k = k0)) as [->|Hne].
  - eexists (_, _, _, _). split.
    + unfold pixel_at.
      rewrite (index_insert_ne _ (4 * k0 + 0)), (index_insert_ne _ (4 * k0 + 0)) by lia.
      rewrite index_insert_eq by (rewrite ?length_insert; lia).
      rewrite (index_insert_ne _ (4 * k0 + 1)) by lia.
      rewrite index_insert_eq by (rewrite ?length_insert; lia).
      rewrite index_insert_eq by (rewrite ?length_insert; lia).
      rewrite !(index_insert_ne _ (4 * k0 + 3)) by lia.
      rewrite index_insert_eq by (rewrite ?length_insert; lia).
      reflexivity.
    + apply premultiplied_pixel_spec. lia.
  - destruct (Hpx k Hk) as (px & Hat & Hok). exists px. split; [|done].
    unfold pixel_at in *. by rewrite !index_insert_ne by lia.
Qed.

Lemma pixel_idx_tile (xp yp : Z) :
  0 ≤ xp ≤ TILE_SIZE - 1 → 0 ≤ yp ≤ TILE_SIZE - 1 →
  pixel_idx xp yp = 4 * (yp * TILE_SIZE + xp) ∧
  0 ≤ yp * TILE_SIZE + xp < TILE_SIZE * TILE_SIZE.
Proof. unfold pixel_idx, TILE_SIZE. lia. Qed.

(** the squared relative distance computed for a pixel is not negative *)
Lemma dab_rr_nonneg (t u radius : Q) :
  (0 <= (t * t + u * u) * (1 / (radius * radius)))%Q.
Proof.
  assert (H1 : (0 <= t * t)%Q) by nra.
  assert (H2 : (0 <= u * u)%Q) by nra.
  assert (H3 : (0 <= radius * radius)%Q) by nra.
  assert (H4 : (0 <= 1 / (radius * radius))%Q).
  { unfold Qdiv. rewrite Qmult_1_l. by apply Qinv_le_0_compat. }
  nra.
Qed.

Lemma dab_pixel_premultiplied (xc yc radius : Q) (color_r color_g color_b : Q)
    (opaque hardness alpha_eraser : Q) (yp xp : Z) (buf : list Z) :
  (0 <= color_r)%Q → (color_r <= 1)%Q →
  (0 <= color_g)%Q → (color_g <= 1)%Q →
  (0 <= color_b)%Q → (color_b <= 1)%Q →
  (0 <= opaque)%Q → (opaque <= 1)%Q →
  (0 < hardness)%Q → (hardness <= 1)%Q →
  (0 <= alpha_eraser)%Q → (alpha_eraser <= 1)%Q →
  0 ≤ xp ≤ TILE_SIZE - 1 → 0 ≤ yp ≤ TILE_SIZE - 1 →
  premultiplied_tile buf = true →
  premultiplied_tile
    (dab_pixel xc (of_int 1 / (radius * radius))%flt
       (to_uint32 (color_r * of_int (1 ≪ 15))%flt)
       (to_uint32 (color_g * of_int (1 ≪ 15))%flt)
       (to_uint32 (color_b * of_int (1 ≪ 15))%flt)
       opaque hardness alpha_eraser
       ((of_int yp + lit_0_5 - yc) * (of_int yp + lit_0_5 - yc))%flt yp xp buf) = true.
Proof.
  intros Hr0 Hr1 Hg0 Hg1 Hb0 Hb1 Ho0 Ho1 Hh0 Hh1 He0 He1 Hxp Hyp Hbuf.
  unfold dab_pixel.
  set (rr := ((_ + _) * _)%flt).
  destruct (rr <=? of_int 1)%flt eqn:Hrr; [|done].
  assert (Hrr0 : (0 <= rr)%Q) by apply dab_rr_nonneg.
  assert (Hrr1 : (rr <= 1)%Q) by (by apply Qle_bool_iff).
  destruct (falloff_unit_range opaque hardness rr) as [Hf0 Hf1]; [done..|].
  pose proof (dab_weights_range (falloff opaque hardness rr) alpha_eraser
                Hf0 Hf1 He0 He1) as (Ha & Hb & Hab).
  destruct (dab_weights _ _) as [opa_a opa_b]. simpl in Ha, Hb, Hab.
  destruct (pixel_idx_tile xp yp Hxp Hyp) as [-> Hk].
  apply composite_over_premultiplied; try done;
    by apply color_fixed_point_range.
Qed.

Lemma bind_preserves {A B : Type} (I : State → Prop) (m : M A) (k : A → M B)
    (s : State) :
  I (m s).2 → (∀ a, I (m s).2 → I (k a (m s).2).2) → I ((m ≫= k) s).2.
Proof.
  unfold mbind, M_bind. intros Hm Hk.
  destruct (m s) as [[a| |] s1]; simpl in *; [by apply Hk|done|done].
Qed.

Lemma get_tile_memory_frame (tx ty : Z) (ro : bool) (s : State) :
  ∃ res s1,
    get_tile_memory tx ty ro s = (Ok res, s1) ∧
    heap s1 = heap s ∧
    dirty_bbox (surf s1) = dirty_bbox (surf s) ∧
    atomic (surf s1) = atomic (surf s) ∧
    self (surf s1) = self (surf s).
Proof.
  destruct (cache_lookup (surf s) tx ty) as [p|] eqn:Hl.
  - rewrite (get_tile_memory_hit _ _ _ _ _ Hl). by eexists _, _.
  - rewrite (get_tile_memory_miss _ _ _ _ Hl). eexists _, _. split; [done|].
    simpl. destruct (py_get_tile_memory _ _ _ _ _); [|done].
    destruct ro; [done|]. unfold cache_insert.
    by destruct (_ <? _).
Qed.

Lemma unit_range_Q (c : Q) :
  unit_range c = true → (0 <= c)%Q ∧ (c <= 1)%Q.
Proof.
  unfold unit_range. simpl. rewrite andb_true_iff, !Qle_bool_iff. done.
Qed.

Lemma draw_dab_premultiplied (x y radius color_r color_g color_b
    opaque hardness alpha_eraser : Q) (s : State) :
  unit_range color_r = true →
  unit_range color_g = true →
  unit_range color_b = true →
  unit_range opaque = true →
  unit_range hardness = true →
  unit_range alpha_eraser = true →
  premultiplied_heap (heap s) →
  premultiplied_heap
    (heap (draw_dab x y radius color_r color_g color_b
             opaque hardness alpha_eraser s).2).
Proof.
  intros [Hr0 Hr1]%unit_range_Q [Hg0 Hg1]%unit_range_Q [Hb0 Hb1]%unit_range_Q
    [Ho0 Ho1]%unit_range_Q [Hh0 Hh1]%unit_range_Q [He0 He1]%unit_range_Q Hheap.
  unfold draw_dab.
  set (I := λ s' : State, premultiplied_heap (heap s')).
  change (I s) in Hheap.
  repeat (apply (bind_preserves I); [by unfold assert; destruct (unit_range _)|intros _ _];
          match goal with |- context [assert ?b s] =>
            replace (assert b s).2 with s by (unfold assert; by destruct b) end).
  destruct (opaque =? of_int 0)%flt; [done|].
  destruct (radius <? lit_0_1)%flt; [done|].
  destruct (hardness =? of_int 0)%flt eqn:Hh; [done|].
  assert (Hhpos : (0 < hardness)%Q).
  { apply Qle_lt_or_eq in Hh0 as [?|Heq]; [done|].
    simpl in Hh. symmetry in Heq. apply Qeq_bool_iff in Heq.
    change (inject_Z 0) with 0%Q in Hh. congruence. }
  apply (bind_preserves I); [done|intros t _]. simpl.
  apply (bind_preserves I); [by unfold assert; destruct (_ <? _)|intros _ _].
  replace (assert (0 <? atomic t) s).2 with s by (unfold assert; by destruct (_ <? _)).
  apply (bind_preserves I).
  2:{ intros [[]|b] Htiles; [|done]. unfold expand_dirty_bbox.
      destruct (dab_bbox _ _ _) as [[ax ay] [bx by']].
      by unfold mbind, M_bind, modify_surf, ret. }
  unfold draw_dab_tiles.
  apply (for_range_preserves I); [|done]. intros ty [] s1 _ HI1.
  apply (for_range_preserves I); [|done]. intros tx [] s2 _ HI2.
  unfold draw_dab_tile. apply (bind_preserves I).
  { destruct (get_tile_memory_frame tx ty false s2) as (res & s3 & -> & Hhp & _).
    unfold I. simpl. by rewrite Hhp. }
  intros res _.
  destruct (get_tile_memory_frame tx ty false s2) as (res' & s3 & -> & Hhp & _).
  simpl. destruct res as [p|]; [|unfold I; simpl; by rewrite Hhp].
  assert (HI3 : I s3) by (unfold I; by rewrite Hhp).
  destruct (heap s3 !! p) as [buf|] eqn:Hp.
  - edestruct (draw_dab_pixels_mapped (λ b, premultiplied_tile b = true) p buf)
      as (buf' & -> & Hlen' & Hbuf'); [exact Hp| | | |].
    + apply premultiplied_tile_spec. apply (HI3 p buf Hp).
    + apply (HI3 p buf Hp).
    + intros yp xp b Hxp Hyp _ Hb.
      apply dab_pixel_premultiplied; done.
    + unfold I, set_heap; simpl. by apply map_Forall_insert_2.
  - by rewrite draw_dab_pixels_unmapped.
Qed.

(** ** Degenerate dabs and clipping: proofs *)

(** C3.  A dab with opacity equal to 0, or radius below 0.1, or hardness
    equal to 0 leaves the whole state as it was: every tile buffer, the
    dirty box, the cache, and no call to Python.  When the three colours
    pass the range assertions that precede the guards, [draw_dab] returns
    false.  This holds for every interpretation of the floating-point
    operations. *)
Theorem degenerate_dab_is_noop {F : Type} {FO : FloatOps F}
    (x y radius color_r color_g color_b opaque hardness alpha_eraser : F)
    (s : State) :
  ((opaque =? of_int 0) || (radius <? lit_0_1) || (hardness =? of_int 0))%flt = true →
  (draw_dab x y radius color_r color_g color_b opaque hardness alpha_eraser s).2 = s ∧
  (unit_range color_r = true → unit_range color_g = true →
   unit_range color_b = true →
   draw_dab x y radius color_r color_g color_b opaque hardness alpha_eraser s
     = (Ok false, s)).
Proof.
  intros Hdeg.
  assert (Hbody : ∀ s',
    (if (opaque =? of_int 0)%flt then ret false else
     if (radius <? lit_0_1)%flt then ret false else
     if (hardness =? of_int 0)%flt then ret false else
     t ← get_surf;
     assert (0 <? atomic t);;
     r ← draw_dab_tiles x y (radius + of_int 1)%flt
           (of_int 1 / (radius * radius))%flt
           (to_uint32 (color_r * of_int (1 ≪ 15))%flt)
           (to_uint32 (color_g * of_int (1 ≪ 15))%flt)
           (to_uint32 (color_b * of_int (1 ≪ 15))%flt)
           opaque hardness alpha_eraser;
     match r with
     | inr b => ret b
     | inl _ => expand_dirty_bbox x y radius;; ret true
     end) s' = (Ok false, s')).
  { intros s'. destruct (opaque =? of_int 0)%flt; [done|].
    destruct (radius <? lit_0_1)%flt; [done|].
    destruct (hardness =? of_int 0)%flt; [done|]. done. }
  unfold draw_dab, mbind, M_bind, assert.
  split.
  - destruct (unit_range color_r); [|done].
    destruct (unit_range color_g); [|done].
    destruct (unit_range color_b); [|done].
    by rewrite Hbody.
  - intros -> -> ->. apply Hbody.
Qed.

Section ClipSafety.
Context {F : Type} {FO : FloatOps F}.

Lemma get_color_pixels_mapped (p : ptr) (buf : list Z)
    (xc yc r_fringe one_over_radius2 : F) (acc : sums) (s : State) :
  heap s !! p = Some buf →
  Z.of_nat (length buf) = TILE_SIZE * TILE_SIZE * 4 →
  ∃ acc', get_color_pixels p xc yc r_fringe one_over_radius2 acc s = (Ok (inl acc'), s).
Proof.
  intros Hp Hlen. unfold get_color_pixels.
  pose proof (clip_lo_nonneg xc r_fringe) as Hx0.
  pose proof (clip_lo_nonneg yc r_fringe) as Hy0.
  pose proof (clip_hi_bound xc r_fringe) as Hx1.
  pose proof (clip_hi_bound yc r_fringe) as Hy1.
  match goal with
  | |- ∃ _, for_range ?lo ?hi ?body ?acc ?s = _ =>
      destruct (for_range_total (λ s', s' = s) body lo hi acc s)
        as (acc' & s' & Hrun & ->); [|done|by exists acc']
  end.
  intros yp acc1 s1 Hyp ->.
  match goal with
  | |- ∃ _ _, for_range ?lo ?hi ?body ?acc ?s = _ ∧ _ =>
      apply (for_range_total (λ s', s' = s) body lo hi acc s); [|done]
  end.
  intros xp acc2 s2 Hxp ->.
  destruct (pixel_idx_bounds xp yp) as [Hi0 Hi3]; [lia|lia|].
  unfold mbind, M_bind, get_color_pixel.
  destruct (_ <=? _)%flt; [|by eexists _, _].
  destruct (index_Some buf (pixel_idx xp yp + 0)) as [r Hr]; [lia|].
  destruct (index_Some buf (pixel_idx xp yp + 1)) as [g Hg]; [lia|].
  destruct (index_Some buf (pixel_idx xp yp + 2)) as [b Hb]; [lia|].
  destruct (index_Some buf (pixel_idx xp yp + 3)) as [a Ha]; [lia|].
  unfold mbind, M_bind.
  rewrite (load_Some _ _ _ _ _ Hp Hr), (load_Some _ _ _ _ _ Hp Hg),
    (load_Some _ _ _ _ _ Hp Hb), (load_Some _ _ _ _ _ Hp Ha).
  by eexists _, _.
Qed.

(** C10.  For every dab position and radius and every tile (in
    particular those of the mapped tile range), the clipped range of each
    axis starts at 0 or above and ends at [TILE_SIZE - 1] or below.  So
    every pixel visited by the loops of [draw_dab] and [get_color] has
    both coordinates in [[0, TILE_SIZE - 1]] and its four indices
    [idx .. idx + 3] lie inside the [TILE_SIZE * TILE_SIZE * 4] words of
    the tile buffer; on such a buffer neither loop faults.  This holds
    for every interpretation of the floating-point operations. *)
Theorem clipped_pixels_stay_inside_tile (x y radius : F) (tx ty : Z) :
  let r_fringe := (radius + of_int 1)%flt in
  let xc := (x - of_int (tx * TILE_SIZE))%flt in
  let yc := (y - of_int (ty * TILE_SIZE))%flt in
  (0 ≤ clip_lo xc r_fringe ∧ clip_hi xc r_fringe ≤ TILE_SIZE - 1 ∧
   0 ≤ clip_lo yc r_fringe ∧ clip_hi yc r_fringe ≤ TILE_SIZE - 1)
  ∧
  (∀ xp yp,
     clip_lo xc r_fringe ≤ xp ≤ clip_hi xc r_fringe →
     clip_lo yc r_fringe ≤ yp ≤ clip_hi yc r_fringe →
     0 ≤ xp ≤ TILE_SIZE - 1 ∧ 0 ≤ yp ≤ TILE_SIZE - 1 ∧
     0 ≤ pixel_idx xp yp ∧ pixel_idx xp yp + 3 < TILE_SIZE * TILE_SIZE * 4)
  ∧
  (∀ (p : ptr) (buf : list Z) (s : State) one_over_radius2
     color_r_ color_g_ color_b_ opaque hardness alpha_eraser,
     heap s !! p = Some buf →
     Z.of_nat (length buf) = TILE_SIZE * TILE_SIZE * 4 →
     (draw_dab_pixels p xc yc r_fringe one_over_radius2
        color_r_ color_g_ color_b_ opaque hardness alpha_eraser s).1 = Ok (inl tt))
  ∧
  (∀ (p : ptr) (buf : list Z) (s : State) one_over_radius2 acc,
     heap s !! p = Some buf →
     Z.of_nat (length buf) = TILE_SIZE * TILE_SIZE * 4 →
     ∃ acc', (get_color_pixels p xc yc r_fringe one_over_radius2 acc s).1
               = Ok (inl acc')).
Proof.
  intros r_fringe xc yc.
  pose proof (clip_lo_nonneg xc r_fringe) as Hx0.
  pose proof (clip_lo_nonneg yc r_fringe) as Hy0.
  pose proof (clip_hi_bound xc r_fringe) as Hx1.
  pose proof (clip_hi_bound yc r_fringe) as Hy1.
  split; [done|]. split; [|split].
  - intros xp yp Hxp Hyp.
    destruct (pixel_idx_bounds xp yp) as [Hi0 Hi3]; [lia|lia|]. lia.
  - intros p buf s r2 cr cg cb opaque hardness eraser Hp Hlen.
    destruct (draw_dab_pixels_mapped (λ _, True) p buf xc yc r_fringe r2
                cr cg cb opaque hardness eraser s Hp Hlen I)
      as (buf' & -> & _); done.
  - intros p buf s r2 acc Hp Hlen.
    destruct (get_color_pixels_mapped p buf xc yc r_fringe r2 acc s Hp Hlen)
      as [acc' ->]. by exists acc'.
Qed.
End ClipSafety.

(** ** Flattening: proofs *)

Lemma iterate_fixed {A : Type} (body : Z → A → option A) (n : nat) (i : Z) (acc : A) :
  (∀ j, i ≤ j < i + Z.of_nat n → body j acc = Some acc) →
  iterate n i body acc = Some acc.
Proof.
  revert i. induction n as [|n IH]; intros i Hbody; [done|].
  simpl. rewrite Hbody by lia. simpl. apply IH. intros j Hj. apply Hbody. lia.
Qed.

Lemma rgb8_buffer_index (dst : list Z) (i d : Z) :
  rgb8_buffer dst = true → index dst i = Some d → 0 ≤ d < 256.
Proof.
  unfold rgb8_buffer, index. rewrite forallb_forall. intros Hall Hi.
  destruct (0 <=? i); [|done].
  apply list_elem_of_lookup_2, list_elem_of_In, Hall in Hi. lia.
Qed.

Lemma index_insert_id (l : list Z) (i v : Z) :
  index l i = Some v → <[Z.to_nat i := v]> l = l.
Proof.
  unfold index. destruct (0 <=? i); [|done]. apply list_insert_id.
Qed.

(** a source word [c] with [c * 255 < 2^15] adds nothing to the byte
    below it when alpha is 0 *)
Lemma flatten_channel_transparent (c d : Z) :
  0 ≤ c → c * 255 < 2 ^ 15 → 0 ≤ d < 256 →
  uint8 (add32 (mul32 c 255) (mul32 (sub32 (1 ≪ 15) 0) d) / (1 ≪ 15)) = d.
Proof.
  intros Hc0 Hc Hd. change (1 ≪ 15) with (2 ^ 15).
  unfold sub32, add32, mul32. rewrite (uint32_small (2 ^ 15 - 0)) by lia.
  rewrite (uint32_small (c * 255)), (uint32_small ((2 ^ 15 - 0) * d)) by lia.
  rewrite uint32_small by lia.
  replace (c * 255 + (2 ^ 15 - 0) * d) with (c * 255 + d * 2 ^ 15) by lia.
  rewrite Z.div_add by lia. rewrite (Z.div_small (c * 255)) by lia.
  unfold uint8, wrap. apply Z.mod_small. lia.
Qed.

Lemma composite_pixel_transparent (src dst : list Z) (k di : Z) :
  (∃ r g b, pixel_at src k = Some (r, g, b, 0) ∧
            0 ≤ r ∧ r * 255 < 2 ^ 15 ∧ 0 ≤ g ∧ g * 255 < 2 ^ 15 ∧
            0 ≤ b ∧ b * 255 < 2 ^ 15) →
  rgb8_buffer dst = true →
  0 ≤ di → di + 2 < Z.of_nat (length dst) →
  composite_pixel src (4 * k) di dst = Some dst.
Proof.
  intros (r & g & b & Hpx & Hr0 & Hr & Hg0 & Hg & Hb0 & Hb) Hdst Hdi0 Hdi2.
  unfold pixel_at in Hpx.
  destruct (index src (4 * k + 0)) as [r'|] eqn:E0; [|done].
  destruct (index src (4 * k + 1)) as [g'|] eqn:E1; [|done].
  destruct (index src (4 * k + 2)) as [b'|] eqn:E2; [|done].
  destruct (index src (4 * k + 3)) as [a'|] eqn:E3; [|done].
  simpl in Hpx. simplify_eq.
  destruct (index_Some dst (di + 0)) as [d0 Hd0]; [lia|].
  destruct (index_Some dst (di + 1)) as [d1 Hd1]; [lia|].
  destruct (index_Some dst (di + 2)) as [d2 Hd2]; [lia|].
  unfold composite_pixel. rewrite E3. simpl.
  rewrite E0. simpl. rewrite Hd0. simpl.
  rewrite flatten_channel_transparent by eauto using rgb8_buffer_index.
  rewrite (index_insert_id _ _ _ Hd0).
  rewrite E1. simpl. rewrite Hd1. simpl.
  rewrite flatten_channel_transparent by eauto using rgb8_buffer_index.
  rewrite (index_insert_id _ _ _ Hd1).
  rewrite E2. simpl. rewrite Hd2. simpl.
  rewrite flatten_channel_transparent by eauto using rgb8_buffer_index.
  by rewrite (index_insert_id _ _ _ Hd2).
Qed.

Lemma transparent_tile_spec (src : list Z) (k : Z) :
  transparent_tile src = true → 0 ≤ k < TILE_SIZE * TILE_SIZE →
  index src (4 * k + 3) = Some 0.
Proof.
  unfold transparent_tile. rewrite forallb_forall. intros Hall Hk.
  assert (Hin : In k (seqZ 0 (TILE_SIZE * TILE_SIZE))).
  { apply list_elem_of_In, elem_of_seqZ. lia. }
  apply Hall in Hin. destruct (index src (4 * k + 3)) as [a|]; [|done].
  simpl in Hin. apply Z.eqb_eq in Hin. by subst.
Qed.

Lemma index_replicate (n : nat) (v i : Z) :
  0 ≤ i < Z.of_nat n → index (replicate n v) i = Some v.
Proof.
  intros [H0 H1]. unfold index. destruct (Z.leb_spec 0 i); [|lia].
  apply lookup_replicate_2. lia.
Qed.

Lemma blank_tile_premultiplied : premultiplied_tile blank_tile = true.
Proof.
  apply premultiplied_tile_spec. unfold blank_tile. split.
  - rewrite length_replicate. unfold TILE_SIZE. lia.
  - intros k Hk. exists (0, 0, 0, 0). split; [|done].
    unfold pixel_at. unfold TILE_SIZE in *.
    rewrite !index_replicate by lia. done.
Qed.

Lemma blank_tile_transparent : transparent_tile blank_tile = true.
Proof.
  unfold transparent_tile. apply forallb_forall.
  intros k Hk%list_elem_of_In%elem_of_seqZ.
  unfold blank_tile, TILE_SIZE in *. rewrite index_replicate by lia. done.
Qed.

Lemma rgb8_buffer_replicate (n : nat) (v : Z) :
  0 ≤ v < 256 → rgb8_buffer (replicate n v) = true.
Proof.
  intros Hv. unfold rgb8_buffer. apply forallb_forall.
  intros d Hd%list_elem_of_In%elem_of_replicate. destruct Hd as [-> _]. lia.
Qed.

Lemma composite_pixel_Some (src dst : list Z) (si di : Z) :
  0 ≤ si → si + 3 < Z.of_nat (length src) →
  0 ≤ di → di + 2 < Z.of_nat (length dst) →
  ∃ r g b a d0 d1 d2,
    index src (si + 0) = Some r ∧ index src (si + 1) = Some g ∧
    index src (si + 2) = Some b ∧ index src (si + 3) = Some a ∧
    index dst (di + 0) = Some d0 ∧ index dst (di + 1) = Some d1 ∧
    index dst (di + 2) = Some d2 ∧
    composite_pixel src si di dst =
      Some (<[Z.to_nat (di + 2) := flatten_channel a b d2]>
            (<[Z.to_nat (di + 1) := flatten_channel a g d1]>
             (<[Z.to_nat (di + 0) := flatten_channel a r d0]> dst))).
Proof.
  intros Hs0 Hs3 Hd0 Hd2.
  destruct (index_Some src (si + 0)) as [r Hr]; [lia|].
  destruct (index_Some src (si + 1)) as [g Hg]; [lia|].
  destruct (index_Some src (si + 2)) as [b Hb]; [lia|].
  destruct (index_Some src (si + 3)) as [a Ha]; [lia|].
  destruct (index_Some dst (di + 0)) as [d0 H0]; [lia|].
  destruct (index_Some dst (di + 1)) as [d1 H1]; [lia|].
  destruct (index_Some dst (di + 2)) as [d2 H2]; [lia|].
  exists r, g, b, a, d0, d1, d2. do 7 (split; [done|]).
  unfold composite_pixel. rewrite Ha, Hr, H0. simpl.
  rewrite Hg. simpl. rewrite index_insert_ne by lia. rewrite H1. simpl.
  rewrite Hb. simpl. rewrite !index_insert_ne by lia. rewrite H2. simpl.
  done.
Qed.

Lemma iterate_total {A : Type} (I : A → Prop) (body : Z → A → option A)
    (n : nat) (i : Z) (acc : A) :
  (∀ j a, i ≤ j < i + Z.of_nat n → I a → ∃ a', body j a = Some a' ∧ I a') →
  I acc → ∃ a', iterate n i body acc = Some a' ∧ I a'.
Proof.
  revert i acc. induction n as [|n IH]; intros i acc Hbody HI; [by exists acc|].
  simpl. destruct (Hbody i acc) as (a1 & -> & HI1); [lia|done|]. simpl.
  apply IH; [|done]. intros j a Hj. apply Hbody. lia.
Qed.

(** The first byte of the destination after flattening: only the first
    pixel writes it. *)
Lemma flatten_first_byte (src dst : list Z) (r a d0 : Z) :
  Z.of_nat (length src) = TILE_SIZE * TILE_SIZE * 4 →
  Z.of_nat (length dst) = TILE_SIZE * 192 →
  index src 0 = Some r → index src 3 = Some a → index dst 0 = Some d0 →
  ∃ dst', composite_tile_over_rgb8 src 192 dst = Some dst' ∧
          index dst' 0 = Some (flatten_channel a r d0).
Proof.
  unfold TILE_SIZE. intros Hsrc_len Hdst_len Hr Ha H0.
  set (I := λ d : list Z, Z.of_nat (length d) = 64 * 192 ∧
                          index d 0 = Some (flatten_channel a r d0)).
  assert (Hpixel : ∀ y x d, 0 ≤ y < 64 → 0 ≤ x < 64 → 0 < y * 192 + x * 3 → I d →
            ∃ d', composite_pixel src ((y * 64 + x) * 4) (y * 192 + x * 3) d
                    = Some d' ∧ I d').
  { intros y x d Hy Hx Hpos [Hlen Hd].
    destruct (composite_pixel_Some src d ((y * 64 + x) * 4) (y * 192 + x * 3))
      as (r' & g' & b' & a' & e0 & e1 & e2 & _ & _ & _ & _ & _ & _ & _ & ->);
      [lia..|].
    eexists. split; [done|]. split.
    - by rewrite !length_insert.
    - by rewrite !index_insert_ne by lia. }
  unfold composite_tile_over_rgb8, TILE_SIZE.
  set (n := Z.to_nat 63).
  assert (Hn : Z.of_nat n = 63) by reflexivity.
  change (Z.to_nat 64) with (S n). clearbody n.
  cbn [iterate].
  change (0 * 192) with 0. change (0 + 0 * 3) with 0.
  change ((0 * 64 + 0) * 4) with 0.
  destruct (composite_pixel_Some src dst 0 0)
    as (r' & g' & b' & a' & e0 & e1 & e2 & Hr' & _ & _ & Ha' & H0' & _ & _ & ->);
    [lia..|].
  change (0 + 0) with 0 in Hr', H0'. change (0 + 3) with 3 in Ha'.
  assert (r' = r) as -> by congruence.
  assert (a' = a) as -> by congruence.
  assert (e0 = d0) as -> by congruence.
  set (d1' := <[Z.to_nat (0 + 2) := _]> _).
  assert (HI1 : I d1').
  { unfold I, d1'. rewrite !length_insert. split; [done|].
    rewrite !index_insert_ne by lia. apply index_insert_eq. lia. }
  cbn [mbind option_bind].
  destruct (iterate_total I (λ x d, composite_pixel src ((0 * 64 + x) * 4)
                                      (0 + x * 3) d) n (0 + 1) d1')
    as (d2' & Hrow0 & HI2); [|done|].
  { intros x d Hx Hd. apply (Hpixel 0 x d); [lia|lia|lia|done]. }
  rewrite Hrow0. cbn [mbind option_bind].
  destruct (iterate_total I
              (λ y d, iterate (S n) 0
                        (λ x d, composite_pixel src ((y * 64 + x) * 4)
                                  (y * 192 + x * 3) d) d) n (0 + 1) d2')
    as (d3' & Hrows & HI3); [|done|].
  { intros y d Hy Hd. apply (iterate_total I); [|done].
    intros x d' Hx Hd'. apply Hpixel; [lia|lia|lia|done]. }
  exists d3'. split; [exact Hrows|apply HI3].
Qed.

(** The bound on the colour words of a transparent pixel is needed.  A
    source buffer that is not premultiplied, with alpha 0 at every pixel
    and red [2^15] at pixel (0, 0), flattened onto a black destination:
    the first destination byte turns from 0 into 255, since
    [(2^15 * 255 + 2^15 * 0) / 2^15 = 255]. *)
Lemma flatten_alpha_zero_source_changes_destination :
  let src := <[0%nat := 32768]> blank_tile in
  let dst := replicate (Z.to_nat (TILE_SIZE * 192)) 0 in
  transparent_tile src = true ∧
  rgb8_buffer dst = true ∧
  index dst 0 = Some 0 ∧
  ∃ dst', composite_tile_over_rgb8 src 192 dst = Some dst' ∧
          index dst' 0 = Some 255.
Proof.
  intros src dst.
  split.
  { unfold transparent_tile. apply forallb_forall.
    intros k Hk%list_elem_of_In%elem_of_seqZ. unfold src.
    rewrite (index_insert_ne _ _ 0) by lia.
    unfold blank_tile. rewrite index_replicate by (unfold TILE_SIZE in *; lia).
    done. }
  split; [by apply rgb8_buffer_replicate|].
  split; [apply index_replicate; unfold TILE_SIZE; lia|].
  apply (flatten_first_byte src dst 32768 0 0).
  - unfold src, blank_tile. rewrite length_insert, length_replicate.
    unfold TILE_SIZE. lia.
  - unfold dst. rewrite length_replicate. unfold TILE_SIZE. lia.
  - apply (index_insert_eq blank_tile 0 32768).
    unfold blank_tile. rewrite length_replicate. unfold TILE_SIZE. lia.
  - unfold src. rewrite (index_insert_ne _ _ 0) by lia.
    apply index_replicate. unfold TILE_SIZE. lia.
  - apply index_replicate. unfold TILE_SIZE. lia.
Qed.

(** ** Dabs inside one tile, and the scenario *)

Lemma for_range_single {A R : Type} (body : Z → A → M (A + R)) (i : Z) (acc : A)
    (s : State) :
  for_range i i body acc s = body i acc s.
Proof.
  unfold for_range. replace (i - i + 1) with 1 by lia. simpl.
  unfold mbind, M_bind, ret. by destruct (body i acc s) as [[[a|r]| |] s'].
Qed.

Section SingleTile.
Context {F : Type} {FO : FloatOps F}.

(** A dab whose footprint lies in one tile [(tx, ty)] that is not cached
    yet and that the store hands out: the tile is fetched once and
    cached, its buffer is painted and the dirty box grows by the two
    corners of the bounding box of the dab. *)
Lemma draw_dab_single_tile (x y radius color_r color_g color_b
    opaque hardness alpha_eraser : F) (s : State) (tx ty : Z) (p : ptr)
    (buf : list Z) :
  unit_range color_r = true → unit_range color_g = true →
  unit_range color_b = true →
  (opaque =? of_int 0)%flt = false →
  (radius <? lit_0_1)%flt = false →
  (hardness =? of_int 0)%flt = false →
  0 < atomic (surf s) →
  tile_lo x (radius + of_int 1)%flt = tx → tile_hi x (radius + of_int 1)%flt = tx →
  tile_lo y (radius + of_int 1)%flt = ty → tile_hi y (radius + of_int 1)%flt = ty →
  cache_lookup (surf s) tx ty = None →
  py_get_tile_memory (self (surf s)) (trace s) tx ty false = Some p →
  heap s !! p = Some buf →
  Z.of_nat (length buf) = TILE_SIZE * TILE_SIZE * 4 →
  ∃ buf',
    draw_dab x y radius color_r color_g color_b opaque hardness alpha_eraser s =
      (Ok true,
       {| surf :=
            set_dirty_bbox
              (ExpandRectToIncludePoint
                 (ExpandRectToIncludePoint (dirty_bbox (surf s))
                    (dab_bbox x y radius).1.1 (dab_bbox x y radius).1.2)
                 (dab_bbox x y radius).2.1 (dab_bbox x y radius).2.2)
              (cache_insert tx ty p (surf s));
          heap := <[p := buf']> (heap s);
          trace := trace s ++ [EvGetTileMemory tx ty false (Some p)] |}).
Proof.
  intros Hr Hg Hb Ho Hrad Hh Hat Hx1 Hx2 Hy1 Hy2 Hmiss Hfetch Hp Hlen.
  unfold draw_dab. rewrite Hr, Hg, Hb, Ho, Hrad, Hh.
  unfold mbind at 1 2 3, M_bind, assert at 1 2 3.
  unfold mbind at 1 2, M_bind, get_surf, assert.
  destruct (Z.ltb_spec 0 (atomic (surf s))); [|lia].
  unfold mbind at 1, M_bind.
  unfold draw_dab_tiles. rewrite Hx1, Hx2, Hy1, Hy2.
  rewrite for_range_single, for_range_single.
  unfold draw_dab_tile. unfold mbind at 1, M_bind.
  rewrite (get_tile_memory_miss _ _ _ _ Hmiss), Hfetch. cbn [negb].
  set (s1 := {| surf := cache_insert tx ty p (surf s); heap := heap s;
                trace := trace s ++ [EvGetTileMemory tx ty false (Some p)] |}).
  edestruct (draw_dab_pixels_mapped (λ _, True) p buf) as (buf' & -> & _);
    [exact (Hp : heap s1 !! p = Some buf)|done|done|done|].
  exists buf'. unfold expand_dirty_bbox.
  destruct (dab_bbox x y radius) as [[ax ay] [bx by']].
  unfold mbind, M_bind, modify_surf, ret, set_heap, s1, cache_insert.
  by destruct (tileMemoryValid (surf s) <? TILE_MEMORY_SIZE).
Qed.
End SingleTile.

Lemma scenario_dab_run (py : PyObject) (hp : gmap ptr (list Z)) (p : ptr)
    (buf : list Z) (bbox0 : Rect.t) (slots0 : list TileMemory.t) :
  py_get_tile_memory py [] 1 1 false = Some p →
  hp !! p = Some buf →
  Z.of_nat (length buf) = TILE_SIZE * TILE_SIZE * 4 →
  let s' := (scenario_dab {| surf := TiledSurface_new py bbox0 slots0;
                             heap := hp; trace := [] |}).2 in
  ∃ ok, trace s' = [EvGetTileMemory 1 1 false (Some p);
                    EvNotifyObservers 89 89 22 22 ok].
Proof.
  intros Hfetch Hp Hlen. unfold scenario_dab.
  set (s0 := {| surf := TiledSurface_new py bbox0 slots0; heap := hp; trace := [] |}).
  set (s1 := {| surf := set_atomic 1 (surf s0); heap := hp; trace := [] |}).
  assert (Hbegin : begin_atomic s0 = (Ok tt, s1)) by (by rewrite begin_atomic_spec).
  destruct (draw_dab_single_tile (F := Q) 100%Q 100%Q 10%Q 1%Q 0%Q 0%Q 1%Q (1 # 2)%Q 1%Q
              s1 1 1 p buf) as (buf' & Hdraw); try reflexivity; try done.
  unfold mbind at 1, M_bind. rewrite Hbegin.
  unfold mbind at 1, M_bind. rewrite Hdraw.
  rewrite end_atomic_spec. cbn.
  rewrite end_atomic_notify_spec. cbn.
  by eexists.
Qed.

(** C1, as stated, fails.  With a store that hands out a blank tile the
    scenario reports one rectangle, x = 89, y = 89, w = 22, h = 22, and
    pixel (111, 111) is outside of it: no single reported rectangle
    contains every pixel from (89, 89) to (111, 111). *)
Lemma scenario_rectangle_misses_pixel_111 :
  ¬ scenario_reports (fresh example_store {[1001 := blank_tile]}) 89 111.
Proof.
  intros (r & Hr & Hcov).
  destruct (scenario_dab_run example_store {[1001 := blank_tile]} 1001 blank_tile
              (Rect.mk 0 0 0 0) (replicate 8 (TileMemory.mk 0 0 0)))
    as [ok Htr]; [reflexivity|apply lookup_singleton_eq|vm_compute; reflexivity|].
  unfold fresh in Hr. cbv zeta in Htr. rewrite Htr in Hr.
  cbn [notifications omap] in Hr.
  injection Hr as <-.
  specialize (Hcov 111 111 ltac:(lia) ltac:(lia)). discriminate Hcov.
Qed.

(** C1, amended.  In the scenario (open a batch, draw the dab at
    (100, 100) with radius 10, colour (1, 0, 0), opacity 1, hardness 0.5,
    close the batch) on a fresh surface whose store hands out a full tile
    buffer for tile (1, 1), exactly one notification is issued; its
    rectangle is x = 89, y = 89, w = 22, h = 22 and contains every pixel
    from (89, 89) to (110, 110) inclusive. *)
Theorem scenario_reports_dab_bounding_box (py : PyObject) (hp : gmap ptr (list Z))
    (p : ptr) (buf : list Z) (bbox0 : Rect.t) (slots0 : list TileMemory.t) :
  py_get_tile_memory py [] 1 1 false = Some p →
  hp !! p = Some buf →
  Z.of_nat (length buf) = TILE_SIZE * TILE_SIZE * 4 →
  let s0 := {| surf := TiledSurface_new py bbox0 slots0; heap := hp; trace := [] |} in
  notifications (trace (scenario_dab s0).2) = [Rect.mk 89 89 22 22] ∧
  scenario_reports s0 89 110.
Proof.
  intros Hfetch Hp Hlen s0.
  destruct (scenario_dab_run py hp p buf bbox0 slots0 Hfetch Hp Hlen) as [ok Htr].
  cbn zeta in Htr. fold s0 in Htr.
  assert (Hn : notifications (trace (scenario_dab s0).2) = [Rect.mk 89 89 22 22])
    by (by rewrite Htr).
  split; [done|]. exists (Rect.mk 89 89 22 22). split; [done|].
  intros px py' Hx Hy. unfold Rect.contains. simpl.
  repeat (apply andb_true_intro; split); lia.
Qed.


(** ** The dirty box *)

Lemma load_state (p : ptr) (i : Z) (s : State) : (load p i s).2 = s.
Proof. unfold load. repeat case_match; done. Qed.

Lemma store_surf (p : ptr) (i v : Z) (s : State) : surf (store p i v s).2 = surf s.
Proof. unfold store. repeat case_match; done. Qed.

Lemma bind_frame {A B : Type} (I : State → Prop) (m : M A) (k : A → M B) :
  (∀ s, I s → I (m s).2) → (∀ a s, I s → I (k a s).2) →
  ∀ s, I s → I ((m ≫= k) s).2.
Proof.
  intros Hm Hk s HI. apply bind_preserves; [by apply Hm|].
  intros a HI1. by apply Hk.
Qed.

Section DabFrame.
Context {F : Type} {FO : FloatOps F}.

Lemma draw_dab_pixel_surf (p : ptr) (xc one_over_radius2 : F)
    (color_r_ color_g_ color_b_ : Z) (opaque hardness alpha_eraser yy : F)
    (yp xp : Z) (s : State) :
  surf (draw_dab_pixel p xc one_over_radius2 color_r_ color_g_ color_b_
          opaque hardness alpha_eraser yy yp xp s).2 = surf s.
Proof.
  unfold draw_dab_pixel. destruct (_ <=? _)%flt; [|done].
  destruct (dab_weights _ _) as [opa_a opa_b].
  apply (bind_frame (λ s', surf s' = surf s)); [| |done].
  { intros s' HI. by rewrite load_state. }
  intros a.
  repeat (apply (bind_frame (λ s', surf s' = surf s));
          [intros s' HI; cbv beta in *; by rewrite ?load_state, ?store_surf
          |intros ?]).
  intros s' HI. cbv beta in *. by rewrite store_surf.
Qed.

Lemma draw_dab_pixels_surf (p : ptr) (xc yc r_fringe one_over_radius2 : F)
    (color_r_ color_g_ color_b_ : Z) (opaque hardness alpha_eraser : F)
    (s : State) :
  surf (draw_dab_pixels p xc yc r_fringe one_over_radius2
          color_r_ color_g_ color_b_ opaque hardness alpha_eraser s).2 = surf s.
Proof.
  unfold draw_dab_pixels.
  apply (for_range_preserves (λ s', surf s' = surf s)); [|done].
  intros yp [] s1 _ HI1.
  apply (for_range_preserves (λ s', surf s' = surf s)); [|done].
  intros xp [] s2 _ HI2.
  apply (bind_frame (λ s', surf s' = surf s)); [| |done].
  - intros s' HI. cbv beta in *. by rewrite draw_dab_pixel_surf.
  - by intros [] s' HI.
Qed.

(** the tile loops do not touch the dirty box, whatever their outcome *)
Lemma draw_dab_tiles_same_object (x y r_fringe one_over_radius2 : F)
    (color_r_ color_g_ color_b_ : Z) (opaque hardness alpha_eraser : F)
    (s : State) :
  same_object s
    (draw_dab_tiles x y r_fringe one_over_radius2
       color_r_ color_g_ color_b_ opaque hardness alpha_eraser s).2.
Proof.
  unfold draw_dab_tiles.
  apply (for_range_preserves (same_object s)); [|done].
  intros ty [] s1 _ HI1.
  apply (for_range_preserves (same_object s)); [|done].
  intros tx [] s2 _ HI2.
  unfold draw_dab_tile, mbind, M_bind.
  destruct (get_tile_memory_frame tx ty false s2)
    as (res & s3 & -> & _ & Hd & Ha & Hs).
  assert (HI3 : same_object s s3).
  { destruct HI2 as (? & ? & ?). unfold same_object. by rewrite Hd, Ha, Hs. }
  destruct res as [p|]; [|done].
  unfold same_object. by rewrite draw_dab_pixels_surf.
Qed.

(** C5, amended.  For every call of [draw_dab] that passes the
    degenerate-input guards and whose tile loops run to completion, the
    tile loops leave the dirty box as it was and the call then expands it
    once by the two corners of the bounding box of the dab,
    (floor(x - (radius + 1)), floor(y - (radius + 1))) and that corner
    plus ceil(2 * (radius + 1)) - 1 in each axis; the call returns
    true. *)
Theorem draw_dab_expands_dirty_bbox_once (x y radius color_r color_g color_b
    opaque hardness alpha_eraser : F) (s s1 : State) :
  unit_range color_r = true → unit_range color_g = true →
  unit_range color_b = true →
  (opaque =? of_int 0)%flt = false →
  (radius <? lit_0_1)%flt = false →
  (hardness =? of_int 0)%flt = false →
  0 < atomic (surf s) →
  draw_dab_tiles x y (radius + of_int 1)%flt (of_int 1 / (radius * radius))%flt
    (to_uint32 (color_r * of_int (1 ≪ 15))%flt)
    (to_uint32 (color_g * of_int (1 ≪ 15))%flt)
    (to_uint32 (color_b * of_int (1 ≪ 15))%flt)
    opaque hardness alpha_eraser s = (Ok (inl tt), s1) →
  dirty_bbox (surf s1) = dirty_bbox (surf s) ∧
  ∃ s',
    draw_dab x y radius color_r color_g color_b opaque hardness alpha_eraser s
      = (Ok true, s') ∧
    dirty_expanded_by_dab x y radius s s' ∧
    heap s' = heap s1 ∧ trace s' = trace s1.
Proof.
  intros Hr Hg Hb Ho Hrad Hh Hat Htiles.
  pose proof (draw_dab_tiles_same_object x y (radius + of_int 1)%flt
                (of_int 1 / (radius * radius))%flt
                (to_uint32 (color_r * of_int (1 ≪ 15))%flt)
                (to_uint32 (color_g * of_int (1 ≪ 15))%flt)
                (to_uint32 (color_b * of_int (1 ≪ 15))%flt)
                opaque hardness alpha_eraser s) as (Hd & _ & _).
  rewrite Htiles in Hd. simpl in Hd. split; [done|].
  unfold draw_dab. rewrite Hr, Hg, Hb, Ho, Hrad, Hh.
  unfold mbind at 1 2 3, M_bind, assert at 1 2 3.
  unfold mbind at 1 2, M_bind, get_surf, assert.
  destruct (Z.ltb_spec 0 (atomic (surf s))); [|lia].
  unfold mbind at 1, M_bind. rewrite Htiles.
  unfold expand_dirty_bbox, dirty_expanded_by_dab.
  destruct (dab_bbox x y radius) as [[ax ay] [bx by']].
  unfold mbind, M_bind, modify_surf, ret. simpl.
  eexists. split; [done|]. simpl. by rewrite Hd.
Qed.
End DabFrame.

(** C5, as stated, fails.  The dab at (64, 10) with radius 1 covers tiles
    (0, 0) and (1, 0).  With a store that has tile (0, 0) only, [draw_dab]
    passes its guards, paints pixel (63, 9) of tile (0, 0), fails to fetch
    tile (1, 0) and returns true; the dirty box has not been expanded by
    the bounding box of the dab (it is still empty), and closing the batch
    reports nothing. *)
Lemma fetch_failure_skips_dirty_box_expansion :
  let s0 := (begin_atomic (fresh one_tile_store {[1000 := blank_tile]})).2 in
  let s1 := (border_dab s0).2 in
  (border_dab s0).1 = Ok true ∧
  store_calls (trace s1) = [(0, 0, false); (1, 0, false)] ∧
  heap s0 !! 1000 ≫= (λ b, pixel_at b (9 * TILE_SIZE + 63)) = Some (0, 0, 0, 0) ∧
  heap s1 !! 1000 ≫= (λ b, pixel_at b (9 * TILE_SIZE + 63))
    = Some (16384, 0, 0, 16384) ∧
  ¬ dirty_expanded_by_dab (F := Q) 64%Q 10%Q 1%Q s0 s1 ∧
  dirty_bbox (surf s1) = dirty_bbox (surf s0) ∧
  notifications (trace (end_atomic s1).2) = [].
Proof.
  vm_compute. repeat split; try reflexivity. discriminate.
Qed.

(** ** Premultiplied pixels *)

(** C9.  With exact arithmetic for the floating-point operations: for
    colours, opacity, hardness and eraser strength in [[0, 1]] and radius
    at least 0.1, [draw_dab] maps a heap of premultiplied tiles (every
    channel in [[0, 2^15]], no colour above alpha) to a heap of
    premultiplied tiles, whatever its outcome.  For every pixel it
    composites (squared relative distance [rr] in [[0, 1]]) the conversion
    of the opacity to fixed point is in [[0, 2^15]], the two weights are
    not negative and sum to at most [2^15], every product and sum of the
    four assignments is below [2^32] and every stored value is below
    [2^16]. *)
Theorem draw_dab_keeps_pixels_premultiplied
    (x y radius color_r color_g color_b opaque hardness alpha_eraser : Q)
    (s : State) :
  unit_range color_r = true → unit_range color_g = true →
  unit_range color_b = true → unit_range opaque = true →
  unit_range hardness = true → unit_range alpha_eraser = true →
  (lit_0_1 <=? radius)%flt = true →
  premultiplied_heap (heap s) →
  premultiplied_heap
    (heap (draw_dab x y radius color_r color_g color_b
             opaque hardness alpha_eraser s).2)
  ∧
  (∀ (rr : Q) (r g b a : Z),
     (hardness =? of_int 0)%flt = false →
     (0 <= rr)%Q → (rr <= 1)%Q →
     premultiplied_pixel (r, g, b, a) = true →
     let opa := falloff opaque hardness rr in
     let opa_a := (dab_weights opa alpha_eraser).1 in
     let opa_b := (dab_weights opa alpha_eraser).2 in
     0 ≤ to_int (of_int (1 ≪ 15) * opa)%flt ≤ 2 ^ 15 ∧
     0 ≤ opa_a ∧ 0 ≤ opa_b ∧ opa_a + opa_b ≤ 2 ^ 15 ∧
     0 ≤ opa_b * a < 2 ^ 32 ∧
     opa_a + opa_b * a / 2 ^ 15 < 2 ^ 16 ∧
     ∀ top c,
       (top, c) ∈ [(to_uint32 (color_r * of_int (1 ≪ 15))%flt, r);
                   (to_uint32 (color_g * of_int (1 ≪ 15))%flt, g);
                   (to_uint32 (color_b * of_int (1 ≪ 15))%flt, b)] →
       0 ≤ opa_a * top ∧ 0 ≤ opa_b * c ∧
       opa_a * top + opa_b * c < 2 ^ 32 ∧
       (opa_a * top + opa_b * c) / 2 ^ 15 < 2 ^ 16).
Proof.
  intros Hr Hg Hb Ho Hh He _ Hheap. split.
  - by apply draw_dab_premultiplied.
  - intros rr r g b a Hh0 Hrr0 Hrr1 Hpx opa opa_a opa_b.
    apply unit_range_Q in Hr as [Hr0 Hr1], Hg as [Hg0 Hg1], Hb as [Hb0 Hb1],
      Ho as [Ho0 Ho1], Hh as [Hh1 Hh2], He as [He0 He1].
    assert (Hhpos : (0 < hardness)%Q).
    { apply Qle_lt_or_eq in Hh1 as [?|Heq]; [done|].
      simpl in Hh0. symmetry in Heq. apply Qeq_bool_iff in Heq.
      change (inject_Z 0) with 0%Q in Hh0. congruence. }
    destruct (falloff_unit_range opaque hardness rr) as [Hf0 Hf1]; [done..|].
    fold opa in Hf0, Hf1.
    destruct (dab_weights_range opa alpha_eraser Hf0 Hf1 He0 He1) as (Ha & Hb' & Hab).
    fold opa_a opa_b in Ha, Hb', Hab.
    apply premultiplied_pixel_spec in Hpx as (Hpr & Hpg & Hpb & Hpa).
    split.
    { apply to_int_range; simpl; change (inject_Z (1 ≪ 15)) with 32768%Q;
        [|change (inject_Z (2 ^ 15)) with 32768%Q]; nra. }
    do 3 (split; [done|]).
    assert (Hchan : ∀ top c, 0 ≤ top ≤ 2 ^ 15 → 0 ≤ c ≤ a →
              0 ≤ opa_a * top ∧ 0 ≤ opa_b * c ∧
              opa_a * top + opa_b * c < 2 ^ 32 ∧
              (opa_a * top + opa_b * c) / 2 ^ 15 < 2 ^ 16 ∧
              0 ≤ opa_b * a < 2 ^ 32 ∧ opa_a + opa_b * a / 2 ^ 15 < 2 ^ 16).
    { intros top c Htop Hc.
      destruct (over_channel_range opa_a opa_b top c a)
        as (H1 & H2 & _ & _ & H3 & H4); [lia..|].
      split; [nia|]. split; [nia|]. split; [done|].
      split; [lia|]. split; [nia|lia]. }
    destruct (Hchan 0 0) as (_ & _ & _ & _ & H5 & H6); [lia..|].
    do 2 (split; [done|]).
    intros top c Hin.
    pose proof (color_fixed_point_range color_r Hr0 Hr1).
    pose proof (color_fixed_point_range color_g Hg0 Hg1).
    pose proof (color_fixed_point_range color_b Hb0 Hb1).
    assert (Hcase : ∃ top' c', top = top' ∧ c = c' ∧ 0 ≤ top' ≤ 2 ^ 15 ∧ 0 ≤ c' ≤ a).
    { repeat (apply elem_of_cons in Hin as [Heq|Hin];
              [injection Heq as -> ->; by eexists _, _|]).
      by apply elem_of_nil in Hin. }
    destruct Hcase as (top' & c' & -> & -> & Htop & Hc).
    destruct (Hchan top' c' Htop Hc) as (? & ? & ? & ? & _). done.
Qed.

(** ** The cache as a map from tiles to buffers: proofs *)

Lemma find_tile_lookup (slots : list TileMemory.t) (i : nat) (e : TileMemory.t) :
  NoDup ((λ e, (TileMemory.tx e, TileMemory.ty e)) <$> slots) →
  slots !! i = Some e →
  find_tile slots (TileMemory.tx e) (TileMemory.ty e) = Some (TileMemory.rgba_p e).
Proof.
  revert i. induction slots as [|e0 slots IH]; intros i Hnd Hi; [done|].
  rewrite fmap_cons in Hnd. apply NoDup_cons in Hnd as [Hnotin Hnd].
  destruct i as [|i]; simpl in *.
  - injection Hi as ->. by rewrite !Z.eqb_refl.
  - destruct (Z.eqb_spec (TileMemory.tx e0) (TileMemory.tx e)) as [Hx|Hx];
      destruct (Z.eqb_spec (TileMemory.ty e0) (TileMemory.ty e)) as [Hy|Hy]; simpl;
      try (by eapply IH).
    exfalso. apply Hnotin. rewrite Hx, Hy.
    apply list_elem_of_fmap. exists e. split; [done|].
    by eapply list_elem_of_lookup_2.
Qed.

Lemma NoDup_insert_fresh {A : Type} (l : list A) (i : nat) (x : A) :
  NoDup l → x ∉ l → NoDup (<[i := x]> l).
Proof.
  revert i. induction l as [|a l IH]; intros i Hnd Hx; [done|].
  apply NoDup_cons in Hnd as [Ha Hnd]. apply not_elem_of_cons in Hx as [Hxa Hx].
  destruct i as [|i]; simpl.
  - by apply NoDup_cons.
  - apply NoDup_cons. split; [|by apply IH].
    intros Hin. apply list_elem_of_lookup in Hin as [j Hj].
    apply list_lookup_insert_Some in Hj as [(-> & -> & _)|[_ Hj]]; [done|].
    apply Ha. by eapply list_elem_of_lookup_2.
Qed.

(** inserting a tile that is not cached keeps the cache consistent, and
    the tile is found afterwards *)
Lemma cache_insert_consistent (tx ty : Z) (p : ptr) (t : TiledSurface) :
  cache_consistent t → (tx, ty) ∉ cached_tiles t →
  cache_consistent (cache_insert tx ty p t) ∧
  cache_lookup (cache_insert tx ty p t) tx ty = Some p.
Proof.
  intros (Hwf & Hsync & Hnd) Hnotin.
  pose proof Hwf as (Hlen & Hv & Hw).
  pose proof (cache_insert_wf tx ty p t Hwf) as Hwf'.
  assert (Hslot : take (Z.to_nat (tileMemoryValid (cache_insert tx ty p t)))
                    (tileMemory (cache_insert tx ty p t))
                  !! Z.to_nat (tileMemoryWrite t) = Some (TileMemory.mk tx ty p)).
  { unfold cache_insert, TILE_MEMORY_SIZE in *.
    destruct (Z.ltb_spec (tileMemoryValid t) 8) as [Hlt|Hge]; simpl.
    - rewrite lookup_take_lt by (rewrite (Hsync Hlt); lia).
      apply list_lookup_insert_eq. lia.
    - rewrite lookup_take_lt by lia.
      apply list_lookup_insert_eq. lia. }
  assert (Hnd' : NoDup (cached_tiles (cache_insert tx ty p t))).
  { destruct (Z.ltb_spec (tileMemoryValid t) TILE_MEMORY_SIZE) as [Hlt|Hge].
    - destruct (cache_insert_grow tx ty p t Hwf Hlt (Hsync Hlt)) as (-> & _).
      apply NoDup_app. split; [done|]. split; [|apply NoDup_singleton].
      intros c Hc Hc'. apply list_elem_of_singleton in Hc'. by subst.
    - destruct (cache_insert_full tx ty p t Hwf) as (-> & _); [lia|].
      by apply NoDup_insert_fresh. }
  split; [split; [done|split; [|done]]|].
  - intros Hlt'.
    destruct (Z.ltb_spec (tileMemoryValid t) TILE_MEMORY_SIZE) as [Hlt|Hge].
    + destruct (cache_insert_grow tx ty p t Hwf Hlt (Hsync Hlt)) as (_ & Hv' & ->).
      apply Z.rem_small. unfold TILE_MEMORY_SIZE in *. lia.
    + destruct (cache_insert_full tx ty p t Hwf) as (_ & Hv'); [lia|]. lia.
  - unfold cache_lookup.
    apply (find_tile_lookup _ _ (TileMemory.mk tx ty p) Hnd' Hslot).
Qed.

Lemma get_tile_memory_consistent (tx ty : Z) (ro : bool) (s : State) :
  cache_consistent (surf s) →
  cache_consistent (surf (get_tile_memory tx ty ro s).2).
Proof.
  intros Hc.
  destruct (cache_lookup (surf s) tx ty) as [p|] eqn:Hl.
  - by rewrite (get_tile_memory_hit _ _ _ _ _ Hl).
  - rewrite (get_tile_memory_miss _ _ _ _ Hl); simpl.
    destruct (py_get_tile_memory _ _ _ _ _); [|done].
    destruct ro; [done|].
    apply cache_insert_consistent; [done|by apply cache_lookup_None].
Qed.

(** X1.  Inside a batch a tile that was fetched for writing is served
    from the cache on the next request: whatever the mode of that
    request, it returns the pointer of the first fetch and leaves the
    whole state as it was, so the tile store is not called again. *)
Theorem fetched_tile_is_served_from_cache (tx ty : Z) (p : ptr) (s s1 : State) :
  cache_consistent (surf s) →
  get_tile_memory tx ty false s = (Ok (Some p), s1) →
  ∀ ro, get_tile_memory tx ty ro s1 = (Ok (Some p), s1).
Proof.
  intros Hc Hget ro.
  destruct (cache_lookup (surf s) tx ty) as [q|] eqn:Hl.
  - rewrite (get_tile_memory_hit _ _ _ _ _ Hl) in Hget.
    injection Hget as -> ->. by apply get_tile_memory_hit.
  - rewrite (get_tile_memory_miss _ _ _ _ Hl) in Hget. simpl in Hget.
    destruct (py_get_tile_memory _ _ _ _ _) as [q|] eqn:Hpy; [|done].
    injection Hget as -> <-. apply get_tile_memory_hit. simpl.
    apply cache_insert_consistent; [done|by apply cache_lookup_None].
Qed.

(** ** Batches in reachable states: proofs *)

Lemma begin_atomic_idle (s : State) :
  idle_clean (surf s) →
  begin_atomic s =
    (Ok tt, {| surf := set_atomic (atomic (surf s) + 1) (surf s);
               heap := heap s; trace := trace s |}).
Proof.
  intros [H0 Hidle]. rewrite begin_atomic_spec.
  destruct (Z.eqb_spec (atomic (surf s)) 0) as [Ha|Ha]; simpl; [|done].
  destruct (Hidle Ha) as (-> & -> & _). done.
Qed.

Lemma begin_atomic_keeps_idle_clean (s : State) :
  idle_clean (surf s) → idle_clean (surf (begin_atomic s).2).
Proof.
  intros Hi. rewrite (begin_atomic_idle s Hi). destruct Hi as [H0 _].
  split; simpl; lia.
Qed.

Lemma end_atomic_keeps_idle_clean (s : State) :
  idle_clean (surf s) → idle_clean (surf (end_atomic s).2).
Proof.
  intros [H0 Hidle]. rewrite end_atomic_spec.
  destruct (Z.ltb_spec 0 (atomic (surf s))); [|done].
  destruct (Z.eqb_spec (atomic (surf s) - 1) 0) as [Ha|Ha].
  - cbv zeta. destruct (0 <? Rect.w (dirty_bbox (surf s))).
    + rewrite end_atomic_notify_spec. simpl. split; simpl; [lia|done].
    + split; simpl; [lia|done].
  - split; simpl; lia.
Qed.

(** X2.  An empty batch is a no-op at every depth: opening a batch and
    closing it at once returns the whole state (object, tile buffers and
    the record of the calls made to Python) to what it was, so nobody is
    notified. *)
Theorem empty_batch_is_noop (s : State) :
  idle_clean (surf s) → (begin_atomic;; end_atomic) s = (Ok tt, s).
Proof.
  intros Hi. unfold mbind, M_bind. rewrite (begin_atomic_idle s Hi).
  destruct Hi as [H0 Hidle]. rewrite end_atomic_spec. simpl.
  destruct (Z.ltb_spec 0 (atomic (surf s) + 1)); [|lia].
  destruct s as [[py bb a m v w] hp tr]; simpl in *.
  destruct (Z.eqb_spec (a + 1 - 1) 0) as [Ha|Ha].
  - destruct Hidle as (Hw & -> & ->); [lia|]. rewrite Hw. simpl.
    destruct bb as [bx by' bw bh]; simpl in *. subst bw.
    unfold set_dirty_bbox, Rect.set_w; simpl. repeat f_equal. lia.
  - unfold set_atomic; simpl. repeat f_equal. lia.
Qed.

Lemma end_atomic_outcome (s : State) :
  match (end_atomic s).1 with
  | Ok _ => 0 < atomic (surf s) ∧
            atomic (surf (end_atomic s).2) = atomic (surf s) - 1
  | AssertionFailed => atomic (surf s) ≤ 0
  | MemoryFault => 0 < atomic (surf s)
  end.
Proof.
  rewrite end_atomic_spec.
  destruct (Z.ltb_spec 0 (atomic (surf s))); [|simpl; lia].
  destruct (Z.eqb_spec (atomic (surf s) - 1) 0) as [Ha|Ha]; [|done].
  cbv zeta. destruct (0 <? Rect.w (dirty_bbox (surf s))); [|done].
  rewrite end_atomic_notify_spec. cbv zeta.
  by destruct (py_notify_observers _ _ _ _ _ _).
Qed.

(** X3.  From a state in which nothing is pending outside a batch, a
    sequence of opens and closes fails an assertion only if it is not
    properly nested: the assertions of [begin_atomic] never fail, and the
    one of [end_atomic] fails exactly at a close that has no open batch.
    A sequence that is not properly nested never runs to its end, and one
    that does run to its end changes the depth by the number of opens
    minus the number of closes. *)
Theorem batch_calls_fail_only_when_unmatched (l : list batch_call) (s : State) :
  idle_clean (surf s) →
  (well_nested (atomic (surf s)) l = true →
   (run_calls l s).1 ≠ AssertionFailed) ∧
  (well_nested (atomic (surf s)) l = false → (run_calls l s).1 ≠ Ok tt) ∧
  ((run_calls l s).1 = Ok tt →
   atomic (surf (run_calls l s).2) = atomic (surf s) + depth_change l).
Proof.
  revert s. induction l as [|c l IH]; intros s Hi.
  { simpl. split; [done|]. split; [done|]. intros _. lia. }
  destruct c; simpl; unfold mbind, M_bind.
  - pose proof (begin_atomic_keeps_idle_clean s Hi) as Hi1.
    rewrite (begin_atomic_idle s Hi) in *.
    destruct (IH _ Hi1) as (IH1 & IH2 & IH3). simpl in *.
    split; [done|]. split; [done|]. intros Hok. rewrite (IH3 Hok). lia.
  - pose proof (end_atomic_keeps_idle_clean s Hi) as Hi1.
    pose proof (end_atomic_outcome s) as Ho.
    destruct (end_atomic s) as [[[]| |] s1]; simpl in *.
    + destruct Ho as [Hpos Hs1].
      destruct (Z.ltb_spec 0 (atomic (surf s))); [|lia]. simpl.
      destruct (IH s1 Hi1) as (IH1 & IH2 & IH3). rewrite Hs1 in *.
      split; [done|]. split; [done|]. intros Hok. rewrite (IH3 Hok). lia.
    + destruct (Z.ltb_spec 0 (atomic (surf s))); [lia|]. done.
    + done.
Qed.

(** ** Calls of [draw_dab] and [get_color]: proofs *)

Lemma store_trace (p : ptr) (i v : Z) (s : State) : trace (store p i v s).2 = trace s.
Proof. unfold store. repeat case_match; done. Qed.

Lemma assert_state (b : bool) (s : State) : (assert b s).2 = s.
Proof. unfold assert. by destruct b. Qed.

Lemma assert_bind_state {B : Type} (b : bool) (k : unit → M B) (s : State) :
  (∀ s', (k tt s').2 = s') → ((assert b ≫= k) s).2 = s.
Proof.
  intros Hk. unfold mbind, M_bind, assert. destruct b; [apply Hk|done].
Qed.

Section Calls.
Context {F : Type} {FO : FloatOps F}.

(** [draw_dab], with its assertions and guards evaluated *)
Lemma draw_dab_spec (x y radius color_r color_g color_b
    opaque hardness alpha_eraser : F) (s : State) :
  draw_dab x y radius color_r color_g color_b opaque hardness alpha_eraser s =
    if unit_range color_r && unit_range color_g && unit_range color_b then
      if ((opaque =? of_int 0) || (radius <? lit_0_1) || (hardness =? of_int 0))%flt
      then (Ok false, s)
      else if 0 <? atomic (surf s) then
        (r ← draw_dab_tiles x y (radius + of_int 1)%flt
               (of_int 1 / (radius * radius))%flt
               (to_uint32 (color_r * of_int (1 ≪ 15))%flt)
               (to_uint32 (color_g * of_int (1 ≪ 15))%flt)
               (to_uint32 (color_b * of_int (1 ≪ 15))%flt)
               opaque hardness alpha_eraser;
         match r with
         | inr b => ret b
         | inl _ => expand_dirty_bbox x y radius;; ret true
         end) s
      else (AssertionFailed, s)
    else (AssertionFailed, s).
Proof.
  unfold draw_dab.
  unfold mbind at 1 2 3, M_bind at 1 2 3, assert at 1 2 3.
  destruct (unit_range color_r); [|done].
  destruct (unit_range color_g); [|done].
  destruct (unit_range color_b); [|done]. simpl.
  destruct (opaque =? of_int 0)%flt; [done|].
  destruct (radius <? lit_0_1)%flt; [done|].
  destruct (hardness =? of_int 0)%flt; [done|]. simpl.
  unfold mbind at 1 2, M_bind at 1 2, get_surf, assert.
  by destruct (0 <? atomic (surf s)).
Qed.

Lemma draw_dab_pixel_preserves (I : State → Prop) (p : ptr) (xc one_over_radius2 : F)
    (color_r_ color_g_ color_b_ : Z) (opaque hardness alpha_eraser yy : F)
    (yp xp : Z) (s : State) :
  (∀ p i v s', I s' → I (store p i v s').2) →
  I s →
  I (draw_dab_pixel p xc one_over_radius2 color_r_ color_g_ color_b_
       opaque hardness alpha_eraser yy yp xp s).2.
Proof.
  intros Hst. revert s. unfold draw_dab_pixel. destruct (_ <=? _)%flt; [|done].
  destruct (dab_weights _ _) as [opa_a opa_b].
  repeat (apply (bind_frame I);
          [intros s' HI; rewrite ?load_state; try done; by apply Hst|intros ?]).
  intros s' HI. by apply Hst.
Qed.

Lemma draw_dab_pixels_preserves (I : State → Prop) (p : ptr)
    (xc yc r_fringe one_over_radius2 : F)
    (color_r_ color_g_ color_b_ : Z) (opaque hardness alpha_eraser : F)
    (s : State) :
  (∀ p i v s', I s' → I (store p i v s').2) →
  I s →
  I (draw_dab_pixels p xc yc r_fringe one_over_radius2
       color_r_ color_g_ color_b_ opaque hardness alpha_eraser s).2.
Proof.
  intros Hst HI. unfold draw_dab_pixels.
  apply (for_range_preserves I); [|done]. intros yp [] s1 _ HI1.
  apply (for_range_preserves I); [|done]. intros xp [] s2 _ HI2.
  apply (bind_frame I); [| |done].
  - intros s' HI'. by apply draw_dab_pixel_preserves.
  - by intros [] s' HI'.
Qed.

(** an invariant of the three kinds of steps of [draw_dab] (a fetch of a
    tile of the tile range, a store into a tile buffer, the expansion of
    the dirty box) is an invariant of [draw_dab] *)
Lemma draw_dab_preserves (I : State → Prop) (x y radius color_r color_g color_b
    opaque hardness alpha_eraser : F) (s : State) :
  (∀ tx ty s',
     tile_lo x (radius + of_int 1)%flt ≤ tx ≤ tile_hi x (radius + of_int 1)%flt →
     tile_lo y (radius + of_int 1)%flt ≤ ty ≤ tile_hi y (radius + of_int 1)%flt →
     I s' → I (get_tile_memory tx ty false s').2) →
  (∀ p i v s', I s' → I (store p i v s').2) →
  (∀ s', I s' → I (expand_dirty_bbox x y radius s').2) →
  I s →
  I (draw_dab x y radius color_r color_g color_b opaque hardness alpha_eraser s).2.
Proof.
  intros Hget Hst Hexp HI. rewrite draw_dab_spec.
  destruct (_ && _); [|done].
  destruct (_ || _); [done|].
  destruct (0 <? atomic (surf s)); [|done].
  apply (bind_preserves I).
  2:{ intros [[]|b] Htiles; [|done].
      apply (bind_preserves I); [by apply Hexp|done]. }
  unfold draw_dab_tiles.
  apply (for_range_preserves I); [|done]. intros ty [] s1 Hty HI1.
  apply (for_range_preserves I); [|done]. intros tx [] s2 Htx HI2.
  unfold draw_dab_tile. apply (bind_preserves I); [by apply Hget|].
  intros [p|] HI3; [|done].
  by apply draw_dab_pixels_preserves.
Qed.

Lemma get_color_pixel_state (p : ptr) (xc one_over_radius2 yy : F) (yp xp : Z)
    (acc : sums) (s : State) :
  (get_color_pixel p xc one_over_radius2 yy yp xp acc s).2 = s.
Proof.
  unfold get_color_pixel. destruct (_ <=? _)%flt; [|done].
  unfold mbind, M_bind.
  repeat match goal with
         | |- context [load ?q ?i s] =>
             let H := fresh in
             pose proof (load_state q i s) as H;
             destruct (load q i s) as [[?| |] ?]; simpl in H; subst; [|done|done]
         end.
  done.
Qed.

Lemma get_color_pixels_state (p : ptr) (xc yc r_fringe one_over_radius2 : F)
    (acc : sums) (s : State) :
  (get_color_pixels p xc yc r_fringe one_over_radius2 acc s).2 = s.
Proof.
  unfold get_color_pixels.
  apply (for_range_preserves (λ s', s' = s)); [|done]. intros yp acc1 s1 _ ->.
  apply (for_range_preserves (λ s', s' = s)); [|done]. intros xp acc2 s1 _ ->.
  unfold mbind, M_bind.
  pose proof (get_color_pixel_state p xc one_over_radius2
    ((of_int yp + lit_0_5 - yc) * (of_int yp + lit_0_5 - yc))%flt yp xp acc2 s) as H.
  destruct (get_color_pixel _ _ _ _ _ _ _ s) as [[?| |] ?]; simpl in *; by subst.
Qed.

(** an invariant of the read-only fetches of tiles of the tile range is
    an invariant of [get_color]: nothing else changes the state *)
Lemma get_color_preserves (I : State → Prop) (x y radius : F) (s : State) :
  (∀ tx ty s',
     tile_lo x (radius + of_int 1)%flt ≤ tx ≤ tile_hi x (radius + of_int 1)%flt →
     tile_lo y (radius + of_int 1)%flt ≤ ty ≤ tile_hi y (radius + of_int 1)%flt →
     I s' → I (get_tile_memory tx ty true s').2) →
  I s → I (get_color x y radius s).2.
Proof.
  intros Hget HI. unfold get_color.
  apply (bind_preserves I); [by rewrite assert_state|intros _ _].
  rewrite assert_state.
  apply (bind_preserves I).
  - apply (for_range_preserves I); [|done]. intros ty acc1 s1 Hty HI1.
    apply (for_range_preserves I); [|done]. intros tx acc2 s2 Htx HI2.
    unfold get_color_tile. apply (bind_preserves I); [by apply Hget|].
    intros [p|] HI3; [|done]. by rewrite get_color_pixels_state.
  - intros [acc|[]] HI1; [|done].
    match goal with |- I (?m ?s1).2 => replace (m s1).2 with s1; [done|] end.
    symmetry. apply assert_bind_state. intros s'.
    destruct (of_int 0 <? _)%flt;
      repeat (apply assert_bind_state; intros ?); done.
Qed.

Lemma get_alpha_state (x y radius : F) (s : State) :
  (get_alpha x y radius s).2 = (get_color x y radius s).2.
Proof.
  unfold get_alpha, mbind, M_bind.
  by destruct (get_color x y radius s) as [[c| |] s'].
Qed.

Lemma get_tile_memory_readonly_surf (tx ty : Z) (s : State) :
  surf (get_tile_memory tx ty true s).2 = surf s.
Proof.
  destruct (cache_lookup (surf s) tx ty) as [p|] eqn:Hl.
  - by rewrite (get_tile_memory_hit _ _ _ _ _ Hl).
  - rewrite (get_tile_memory_miss _ _ _ _ Hl). simpl. by destruct (py_get_tile_memory _ _ _ _ _).
Qed.

Lemma get_tile_memory_trace (tx ty : Z) (ro : bool) (s : State) :
  trace (get_tile_memory tx ty ro s).2 = trace s ∨
  ∃ res, trace (get_tile_memory tx ty ro s).2 = trace s ++ [EvGetTileMemory tx ty ro res].
Proof.
  destruct (cache_lookup (surf s) tx ty) as [p|] eqn:Hl.
  - left. by rewrite (get_tile_memory_hit _ _ _ _ _ Hl).
  - right. rewrite (get_tile_memory_miss _ _ _ _ Hl). by eexists.
Qed.

Lemma get_color_surf (x y radius : F) (s : State) :
  surf (get_color x y radius s).2 = surf s ∧ heap (get_color x y radius s).2 = heap s.
Proof.
  apply (get_color_preserves (λ s', surf s' = surf s ∧ heap s' = heap s)); [|done].
  intros tx ty s' _ _ [Hs Hh]. rewrite get_tile_memory_readonly_surf.
  destruct (get_tile_memory_frame tx ty true s') as (res & s1 & -> & Hhp & _).
  simpl. by rewrite Hhp.
Qed.
End Calls.

(** ** Outcomes of loops: proofs *)

Lemma bind_no_assert {A B : Type} (m : M A) (k : A → M B) (s : State) :
  (m s).1 ≠ AssertionFailed →
  (∀ a s', (k a s').1 ≠ AssertionFailed) →
  ((m ≫= k) s).1 ≠ AssertionFailed.
Proof.
  unfold mbind, M_bind. intros Hm Hk.
  destruct (m s) as [[a| |] s1]; simpl in *; [apply Hk|done|done].
Qed.

Lemma for_loop_no_assert {A R : Type} (body : Z → A → M (A + R)) (n : nat) (i : Z)
    (acc : A) (s : State) :
  (∀ j a s', (body j a s').1 ≠ AssertionFailed) →
  (for_loop n i body acc s).1 ≠ AssertionFailed.
Proof.
  intros Hbody. revert i acc s. induction n as [|n IH]; intros i acc s; [done|].
  simpl. apply bind_no_assert; [apply Hbody|].
  intros [a|r] s'; [apply IH|done].
Qed.

Lemma for_loop_inr {A R : Type} (body : Z → A → M (A + R)) (n : nat) (i : Z)
    (acc : A) (s s' : State) (r : R) :
  for_loop n i body acc s = (Ok (inr r), s') →
  ∃ j a s0, i ≤ j < i + Z.of_nat n ∧ body j a s0 = (Ok (inr r), s').
Proof.
  revert i acc s. induction n as [|n IH]; intros i acc s; [done|].
  simpl. unfold mbind, M_bind.
  destruct (body i acc s) as [[[a|r']| |] s1] eqn:Hb; try done.
  - intros H. destruct (IH _ _ _ H) as (j & a0 & s0 & Hj & Hr).
    exists j, a0, s0. split; [lia|done].
  - intros [= -> ->]. exists i, acc, s. split; [lia|done].
Qed.

Lemma for_range_inr {A R : Type} (body : Z → A → M (A + R)) (lo hi : Z)
    (acc : A) (s s' : State) (r : R) :
  for_range lo hi body acc s = (Ok (inr r), s') →
  ∃ j a s0, lo ≤ j ≤ hi ∧ body j a s0 = (Ok (inr r), s').
Proof.
  unfold for_range. intros H.
  destruct (for_loop_inr _ _ _ _ _ _ _ H) as (j & a & s0 & Hj & Hr).
  exists j, a, s0. split; [lia|done].
Qed.

Lemma load_no_assert (p : ptr) (i : Z) (s : State) : (load p i s).1 ≠ AssertionFailed.
Proof. unfold load. repeat case_match; done. Qed.

Lemma store_no_assert (p : ptr) (i v : Z) (s : State) :
  (store p i v s).1 ≠ AssertionFailed.
Proof. unfold store. repeat case_match; done. Qed.

Section DabOutcomes.
Context {F : Type} {FO : FloatOps F}.

Lemma draw_dab_pixels_no_assert (p : ptr) (xc yc r_fringe one_over_radius2 : F)
    (color_r_ color_g_ color_b_ : Z) (opaque hardness alpha_eraser : F)
    (s : State) :
  (draw_dab_pixels p xc yc r_fringe one_over_radius2
     color_r_ color_g_ color_b_ opaque hardness alpha_eraser s).1 ≠ AssertionFailed.
Proof.
  unfold draw_dab_pixels, for_range.
  apply for_loop_no_assert. intros yp [] s1.
  apply for_loop_no_assert. intros xp [] s2.
  apply bind_no_assert; [|done].
  unfold draw_dab_pixel. destruct (_ <=? _)%flt; [|done].
  destruct (dab_weights _ _) as [opa_a opa_b].
  repeat (apply bind_no_assert;
          [first [apply load_no_assert|apply store_no_assert]|intros ? ?]).
  apply store_no_assert.
Qed.

(** the pixel loops never leave the function *)
Lemma draw_dab_pixels_inl (p : ptr) (xc yc r_fringe one_over_radius2 : F)
    (color_r_ color_g_ color_b_ : Z) (opaque hardness alpha_eraser : F)
    (s s' : State) (b : bool) :
  draw_dab_pixels p xc yc r_fringe one_over_radius2
     color_r_ color_g_ color_b_ opaque hardness alpha_eraser s ≠ (Ok (inr b), s').
Proof.
  intros H. unfold draw_dab_pixels in H.
  apply for_range_inr in H as (yp & [] & s1 & _ & H).
  apply for_range_inr in H as (xp & [] & s2 & _ & H).
  unfold mbind, M_bind in H.
  by destruct (draw_dab_pixel _ _ _ _ _ _ _ _ _ _ _ _ s2) as [[[]| |] ?].
Qed.

Lemma draw_dab_tiles_no_assert (x y r_fringe one_over_radius2 : F)
    (color_r_ color_g_ color_b_ : Z) (opaque hardness alpha_eraser : F)
    (s : State) :
  (draw_dab_tiles x y r_fringe one_over_radius2
     color_r_ color_g_ color_b_ opaque hardness alpha_eraser s).1 ≠ AssertionFailed.
Proof.
  unfold draw_dab_tiles, for_range.
  apply for_loop_no_assert. intros ty [] s1.
  apply for_loop_no_assert. intros tx [] s2.
  unfold draw_dab_tile. apply bind_no_assert.
  - destruct (get_tile_memory_Ok tx ty false s2) as [res ->]. done.
  - intros [p|] s3; [|done]. apply draw_dab_pixels_no_assert.
Qed.

(** the tile loops leave the function only after a fetch that failed *)
Lemma draw_dab_tiles_inr (x y r_fringe one_over_radius2 : F)
    (color_r_ color_g_ color_b_ : Z) (opaque hardness alpha_eraser : F)
    (s s' : State) (b : bool) :
  draw_dab_tiles x y r_fringe one_over_radius2
     color_r_ color_g_ color_b_ opaque hardness alpha_eraser s = (Ok (inr b), s') →
  b = true ∧
  ∃ tr tx ty,
    tile_lo x r_fringe ≤ tx ≤ tile_hi x r_fringe ∧
    tile_lo y r_fringe ≤ ty ≤ tile_hi y r_fringe ∧
    trace s' = tr ++ [EvGetTileMemory tx ty false None].
Proof.
  intros H. unfold draw_dab_tiles in H.
  apply for_range_inr in H as (ty & [] & s1 & Hty & H).
  apply for_range_inr in H as (tx & [] & s2 & Htx & H).
  unfold draw_dab_tile, mbind, M_bind in H.
  destruct (cache_lookup (surf s2) tx ty) as [p|] eqn:Hl.
  - rewrite (get_tile_memory_hit _ _ _ _ _ Hl) in H.
    by apply draw_dab_pixels_inl in H.
  - rewrite (get_tile_memory_miss _ _ _ _ Hl) in H. cbv zeta in H.
    destruct (py_get_tile_memory _ _ _ _ _) as [p|].
    + by apply draw_dab_pixels_inl in H.
    + injection H as <- <-. split; [done|]. by exists (trace s2), tx, ty.
Qed.
End DabOutcomes.

(** ** What a dab and a colour probe leave alone: proofs *)

Lemma notifications_of_fetches (P : Event → Prop) (l : list Event) :
  (∀ e, P e → ∃ tx ty ro res, e = EvGetTileMemory tx ty ro res) →
  Forall P l → notifications l = [].
Proof.
  intros HP. induction 1 as [|e l He _ IH]; [done|].
  destruct (HP e He) as (tx & ty & ro & res & ->). done.
Qed.

Section Frames.
Context {F : Type} {FO : FloatOps F}.

Lemma fetch_in_tile_range_notifications (x y r_fringe : F) (ro : bool)
    (l : list Event) :
  Forall (fetch_in_tile_range x y r_fringe ro) l → notifications l = [].
Proof.
  apply notifications_of_fetches.
  intros e (tx & ty & res & -> & _). by eexists _, _, _, _.
Qed.

(** X4.  Whatever its arguments and its outcome, [draw_dab] leaves the
    batch depth and the Python object of the surface as they were, never
    notifies the observers, and calls Python only to request tiles for
    writing, each of them a tile of the tile range of the dab
    ([tx1..tx2] x [ty1..ty2]). *)
Theorem draw_dab_requests_only_its_tiles (x y radius color_r color_g color_b
    opaque hardness alpha_eraser : F) (s : State) :
  let s' := (draw_dab x y radius color_r color_g color_b
               opaque hardness alpha_eraser s).2 in
  atomic (surf s') = atomic (surf s) ∧
  self (surf s') = self (surf s) ∧
  notifications (trace s') = notifications (trace s) ∧
  ∃ l, trace s' = trace s ++ l ∧
       Forall (fetch_in_tile_range x y (radius + of_int 1)%flt false) l.
Proof.
  set (I := λ s' : State,
    atomic (surf s') = atomic (surf s) ∧ self (surf s') = self (surf s) ∧
    ∃ l, trace s' = trace s ++ l ∧
         Forall (fetch_in_tile_range x y (radius + of_int 1)%flt false) l).
  assert (HI : I (draw_dab x y radius color_r color_g color_b
                    opaque hardness alpha_eraser s).2).
  { apply (draw_dab_preserves I).
    - intros tx ty s' Htx Hty (Ha & Hs & l & Ht & Hl).
      pose proof (get_tile_memory_trace tx ty false s') as Htr.
      destruct (get_tile_memory_frame tx ty false s')
        as (res & s1 & Heq & _ & _ & Ha1 & Hs1).
      rewrite Heq in *. simpl in *.
      split; [congruence|]. split; [congruence|].
      destruct Htr as [Htr|[res' Htr]]; rewrite Htr, Ht.
      + by exists l.
      + exists (l ++ [EvGetTileMemory tx ty false res']).
        split; [by rewrite app_assoc|].
        apply Forall_app. split; [done|]. apply Forall_singleton.
        by exists tx, ty, res'.
    - intros p i v s' (Ha & Hs & Ht). unfold I.
      by rewrite store_surf, store_trace.
    - intros s' (Ha & Hs & Ht). unfold expand_dirty_bbox.
      by destruct (dab_bbox x y radius) as [[ax ay] [bx by']].
    - split; [done|]. split; [done|]. exists []. by rewrite app_nil_r. }
  destruct HI as (Ha & Hs & l & Ht & Hl). cbv zeta.
  split; [done|]. split; [done|]. split; [|by exists l].
  rewrite Ht, notifications_app, (fetch_in_tile_range_notifications _ _ _ _ _ Hl).
  by rewrite app_nil_r.
Qed.

(** X5.  [get_color] and [get_alpha] are read-only: whatever their
    arguments and outcome they leave the object (dirty box, batch depth,
    cache) and every tile buffer as they were, and they call Python only
    to request tiles of the tile range of the probe in read-only mode. *)
Theorem get_color_is_read_only (x y radius : F) (s : State) :
  let s' := (get_color x y radius s).2 in
  surf s' = surf s ∧ heap s' = heap s ∧
  (get_alpha x y radius s).2 = s' ∧
  ∃ l, trace s' = trace s ++ l ∧
       Forall (fetch_in_tile_range x y (radius + of_int 1)%flt true) l.
Proof.
  cbv zeta. destruct (get_color_surf x y radius s) as [Hs Hh].
  split; [done|]. split; [done|]. split; [apply get_alpha_state|].
  apply (get_color_preserves
    (λ s', ∃ l, trace s' = trace s ++ l ∧
                Forall (fetch_in_tile_range x y (radius + of_int 1)%flt true) l)).
  - intros tx ty s' Htx Hty (l & Ht & Hl).
    destruct (get_tile_memory_trace tx ty true s') as [Htr|[res' Htr]];
      rewrite Htr, Ht.
    + by exists l.
    + exists (l ++ [EvGetTileMemory tx ty true res']).
      split; [by rewrite app_assoc|].
      apply Forall_app. split; [done|]. apply Forall_singleton.
      by exists tx, ty, res'.
  - exists []. by rewrite app_nil_r.
Qed.

(** X6.  When the tile loops of [draw_dab] are left early, it is because
    the last call to Python was a request for a tile of the tile range
    that failed; [draw_dab] then returns true, whether or not a pixel was
    painted before, and the dirty box is what it was before the call. *)
Theorem aborted_dab_reports_true (x y radius color_r color_g color_b
    opaque hardness alpha_eraser : F) (s s1 : State) (b : bool) :
  unit_range color_r = true → unit_range color_g = true →
  unit_range color_b = true →
  ((opaque =? of_int 0) || (radius <? lit_0_1) || (hardness =? of_int 0))%flt = false →
  0 < atomic (surf s) →
  draw_dab_tiles x y (radius + of_int 1)%flt (of_int 1 / (radius * radius))%flt
    (to_uint32 (color_r * of_int (1 ≪ 15))%flt)
    (to_uint32 (color_g * of_int (1 ≪ 15))%flt)
    (to_uint32 (color_b * of_int (1 ≪ 15))%flt)
    opaque hardness alpha_eraser s = (Ok (inr b), s1) →
  draw_dab x y radius color_r color_g color_b opaque hardness alpha_eraser s
    = (Ok true, s1) ∧
  dirty_bbox (surf s1) = dirty_bbox (surf s) ∧
  ∃ tr tx ty,
    tile_lo x (radius + of_int 1)%flt ≤ tx ≤ tile_hi x (radius + of_int 1)%flt ∧
    tile_lo y (radius + of_int 1)%flt ≤ ty ≤ tile_hi y (radius + of_int 1)%flt ∧
    trace s1 = tr ++ [EvGetTileMemory tx ty false None].
Proof.
  intros Hr Hg Hb Hdeg Hat Htiles.
  destruct (draw_dab_tiles_inr _ _ _ _ _ _ _ _ _ _ _ _ _ Htiles) as [-> Htr].
  pose proof (draw_dab_tiles_same_object x y (radius + of_int 1)%flt
                (of_int 1 / (radius * radius))%flt
                (to_uint32 (color_r * of_int (1 ≪ 15))%flt)
                (to_uint32 (color_g * of_int (1 ≪ 15))%flt)
                (to_uint32 (color_b * of_int (1 ≪ 15))%flt)
                opaque hardness alpha_eraser s) as (Hd & _ & _).
  rewrite Htiles in Hd. simpl in Hd.
  split; [|by split].
  rewrite draw_dab_spec, Hr, Hg, Hb, Hdeg. simpl.
  destruct (Z.ltb_spec 0 (atomic (surf s))); [|lia].
  unfold mbind, M_bind. by rewrite Htiles.
Qed.

(** X7.  [draw_dab] fails an assertion in two cases only: a colour
    component outside [[0, 1]] (also for a dab that the guards would
    skip), or a dab that passes the guards outside a batch.  In both
    cases it has changed nothing and called nobody.  Nothing that happens
    in the tile loops fails an assertion. *)
Theorem draw_dab_assertions (x y radius color_r color_g color_b
    opaque hardness alpha_eraser : F) (s : State) :
  ((draw_dab x y radius color_r color_g color_b
      opaque hardness alpha_eraser s).1 = AssertionFailed ↔
   unit_range color_r && unit_range color_g && unit_range color_b = false ∨
   (((opaque =? of_int 0) || (radius <? lit_0_1) || (hardness =? of_int 0))%flt
      = false ∧ atomic (surf s) ≤ 0))
  ∧
  ((draw_dab x y radius color_r color_g color_b
      opaque hardness alpha_eraser s).1 = AssertionFailed →
   (draw_dab x y radius color_r color_g color_b
      opaque hardness alpha_eraser s).2 = s).
Proof.
  rewrite draw_dab_spec.
  destruct (_ && _); [|split; [split; [by left|done]|done]].
  destruct (_ || _).
  { split; [|done]. split; [done|]. by intros [|[]]. }
  destruct (Z.ltb_spec 0 (atomic (surf s))) as [Hat|Hat].
  2:{ split; [|done]. split; [by right|done]. }
  assert (Hno : ((r ← draw_dab_tiles x y (radius + of_int 1)%flt
                        (of_int 1 / (radius * radius))%flt
                        (to_uint32 (color_r * of_int (1 ≪ 15))%flt)
                        (to_uint32 (color_g * of_int (1 ≪ 15))%flt)
                        (to_uint32 (color_b * of_int (1 ≪ 15))%flt)
                        opaque hardness alpha_eraser;
                  match r with
                  | inr b => ret b
                  | inl _ => expand_dirty_bbox x y radius;; ret true
                  end) s).1 ≠ AssertionFailed).
  { apply bind_no_assert; [apply draw_dab_tiles_no_assert|].
    intros [[]|b] s'; [|done]. unfold expand_dirty_bbox.
    by destruct (dab_bbox x y radius) as [[ax ay] [bx by']]. }
  split; [|done]. split; [done|]. intros [|[_ ?]]; [done|lia].
Qed.
End Frames.

(** ** Sequences of method calls: proofs *)

Lemma bind_ret_state {A : Type} (m : M A) (s : State) :
  ((m;; ret tt) s).2 = (m s).2.
Proof. unfold mbind, M_bind. by destruct (m s) as [[a| |] s1]. Qed.

Lemma begin_atomic_keeps_cache (s : State) :
  cache_consistent (surf s) → cache_consistent (surf (begin_atomic s).2).
Proof. intros Hc. rewrite begin_atomic_spec. by destruct (_ && _). Qed.

Lemma end_atomic_keeps_cache (s : State) :
  cache_consistent (surf s) → cache_consistent (surf (end_atomic s).2).
Proof.
  intros Hc. rewrite end_atomic_spec.
  destruct (0 <? atomic (surf s)); [|done].
  destruct (atomic (surf s) - 1 =? 0); [|done].
  assert (Hreset : cache_consistent
            (set_dirty_bbox (Rect.set_w (dirty_bbox (surf s)) 0)
               (set_tileMemoryWrite 0 (set_tileMemoryValid 0
                  (set_atomic (atomic (surf s) - 1) (surf s)))))).
  { destruct Hc as ((Hlen & _ & _) & _ & _).
    split; [|split]; [|done|apply NoDup_nil_2].
    split; [done|]. unfold TILE_MEMORY_SIZE. simpl. lia. }
  cbv zeta. destruct (0 <? Rect.w (dirty_bbox (surf s))); [|done].
  by rewrite end_atomic_notify_spec.
Qed.

Section MethodCalls.
Context {F : Type} {FO : FloatOps F}.

Lemma draw_dab_keeps_cache (x y radius color_r color_g color_b
    opaque hardness alpha_eraser : F) (s : State) :
  cache_consistent (surf s) →
  cache_consistent
    (surf (draw_dab x y radius color_r color_g color_b
             opaque hardness alpha_eraser s).2).
Proof.
  apply (draw_dab_preserves (λ s', cache_consistent (surf s'))).
  - intros tx ty s' _ _. apply get_tile_memory_consistent.
  - intros p i v s' Hc. by rewrite store_surf.
  - intros s' Hc. unfold expand_dirty_bbox.
    by destruct (dab_bbox x y radius) as [[ax ay] [bx by']].
Qed.

Lemma run_method_keeps_cache (m : method F) (s : State) :
  cache_consistent (surf s) → cache_consistent (surf (run_method m s).2).
Proof.
  intros Hc. destruct m; simpl.
  - by apply begin_atomic_keeps_cache.
  - by apply end_atomic_keeps_cache.
  - rewrite bind_ret_state. by apply get_tile_memory_consistent.
  - rewrite bind_ret_state. by apply draw_dab_keeps_cache.
  - rewrite bind_ret_state. by rewrite (proj1 (get_color_surf _ _ _ _)).
  - rewrite bind_ret_state, get_alpha_state.
    by rewrite (proj1 (get_color_surf _ _ _ _)).
Qed.

(** outside a batch [draw_dab] changes nothing, and it never changes the
    depth *)
Lemma draw_dab_keeps_idle_clean (x y radius color_r color_g color_b
    opaque hardness alpha_eraser : F) (s : State) :
  idle_clean (surf s) →
  idle_clean
    (surf (draw_dab x y radius color_r color_g color_b
             opaque hardness alpha_eraser s).2).
Proof.
  intros Hi.
  destruct (Z.ltb_spec 0 (atomic (surf s))) as [Hat|Hat].
  - assert (Ha : atomic (surf (draw_dab x y radius color_r color_g color_b
                                 opaque hardness alpha_eraser s).2)
                 = atomic (surf s)).
    { apply (draw_dab_preserves (λ s', atomic (surf s') = atomic (surf s))).
      - intros tx ty s' _ _ Ha.
        destruct (get_tile_memory_frame tx ty false s')
          as (res & s1 & -> & _ & _ & Ha1 & _). simpl. congruence.
      - intros p i v s' Ha. by rewrite store_surf.
      - intros s' Ha. unfold expand_dirty_bbox.
        by destruct (dab_bbox x y radius) as [[ax ay] [bx by']].
      - done. }
    split; lia.
  - rewrite draw_dab_spec.
    destruct (_ && _); [|done]. destruct (_ || _); [done|].
    destruct (Z.ltb_spec 0 (atomic (surf s))); [lia|done].
Qed.

Lemma run_method_keeps_idle_clean (m : method F) (s : State) :
  no_direct_write_fetch m = true →
  idle_clean (surf s) → idle_clean (surf (run_method m s).2).
Proof.
  intros Hm Hi. destruct m; simpl in *.
  - by apply begin_atomic_keeps_idle_clean.
  - by apply end_atomic_keeps_idle_clean.
  - subst. by rewrite bind_ret_state, get_tile_memory_readonly_surf.
  - rewrite bind_ret_state. by apply draw_dab_keeps_idle_clean.
  - rewrite bind_ret_state. by rewrite (proj1 (get_color_surf _ _ _ _)).
  - rewrite bind_ret_state, get_alpha_state.
    by rewrite (proj1 (get_color_surf _ _ _ _)).
Qed.

(** X8.  Whatever sequence of public methods ([begin_atomic],
    [end_atomic], [get_tile_memory], [draw_dab], [get_color],
    [get_alpha]) is called on a new object, with whatever arguments and
    whatever Python answers, and wherever the sequence stops, the tile
    cache is consistent: at most [TILE_MEMORY_SIZE] valid slots, filled
    in order, and no tile held by two valid slots. *)
Theorem cache_is_consistent_after_any_calls (l : list (method F))
    (py : PyObject) (bbox0 : Rect.t) (slots0 : list TileMemory.t)
    (hp : gmap ptr (list Z)) :
  length slots0 = Z.to_nat TILE_MEMORY_SIZE →
  let s := (run_methods l {| surf := TiledSurface_new py bbox0 slots0;
                             heap := hp; trace := [] |}).2 in
  cache_consistent (surf s) ∧
  0 ≤ tileMemoryValid (surf s) ≤ TILE_MEMORY_SIZE ∧
  NoDup (cached_tiles (surf s)).
Proof.
  intros Hlen s.
  assert (Hc : cache_consistent (surf s)).
  { subst s.
    assert (H0 : cache_consistent (TiledSurface_new py bbox0 slots0)).
    { split; [|split]; [|done|apply NoDup_nil_2].
      split; [done|]. unfold TILE_MEMORY_SIZE. simpl. lia. }
    change (cache_consistent (surf {| surf := TiledSurface_new py bbox0 slots0;
                                      heap := hp; trace := [] |})) in H0.
    revert H0. generalize {| surf := TiledSurface_new py bbox0 slots0;
                             heap := hp; trace := [] |}.
    induction l as [|m l IH]; intros s0 H0; [done|].
    simpl. apply (bind_preserves (λ s', cache_consistent (surf s'))).
    - by apply run_method_keeps_cache.
    - intros _ H1. by apply IH. }
  split; [done|]. destruct Hc as ((_ & Hv & _) & _ & Hnd). done.
Qed.

(** X9.  As long as tiles are requested for writing through [draw_dab]
    only, whatever sequence of public methods is called on a new object
    and wherever it stops, nothing is pending outside a batch (the dirty
    box and the cache are empty at depth 0, and the depth is not
    negative); so the two assertions of [begin_atomic] hold and opening a
    batch succeeds. *)
Theorem begin_atomic_succeeds_after_any_calls (l : list (method F))
    (py : PyObject) (bbox0 : Rect.t) (slots0 : list TileMemory.t)
    (hp : gmap ptr (list Z)) :
  forallb no_direct_write_fetch l = true →
  let s := (run_methods l {| surf := TiledSurface_new py bbox0 slots0;
                             heap := hp; trace := [] |}).2 in
  idle_clean (surf s) ∧
  begin_atomic s =
    (Ok tt, {| surf := set_atomic (atomic (surf s) + 1) (surf s);
               heap := heap s; trace := trace s |}).
Proof.
  intros Hl s.
  assert (Hi : idle_clean (surf s)).
  { subst s.
    assert (H0 : idle_clean (surf {| surf := TiledSurface_new py bbox0 slots0;
                                     heap := hp; trace := [] |})).
    { split; simpl; [lia|done]. }
    revert H0. generalize {| surf := TiledSurface_new py bbox0 slots0;
                             heap := hp; trace := [] |}.
    induction l as [|m l IH]; intros s0 H0; [done|].
    simpl in Hl. apply andb_true_iff in Hl as [Hm Hl].
    simpl. apply (bind_preserves (λ s', idle_clean (surf s'))).
    - by apply run_method_keeps_idle_clean.
    - intros _ H1. by apply IH. }
  split; [done|]. by apply begin_atomic_idle.
Qed.
End MethodCalls.

(** ** The pixel loops of a dab, pixel by pixel: proofs *)

Lemma for_loop_indexed {A R : Type} (I : Z → State → Prop)
    (body : Z → A → M (A + R)) (n : nat) (i : Z) (acc : A) (s : State) :
  (∀ j a s0, i ≤ j < i + Z.of_nat n → I j s0 →
     ∃ a' s1, body j a s0 = (Ok (inl a'), s1) ∧ I (j + 1) s1) →
  I i s →
  ∃ acc' s', for_loop n i body acc s = (Ok (inl acc'), s') ∧ I (i + Z.of_nat n) s'.
Proof.
  revert i acc s. induction n as [|n IH]; intros i acc s Hbody HI.
  - exists acc, s. split; [done|]. by replace (i + Z.of_nat 0) with i by lia.
  - destruct (Hbody i acc s) as (a' & s1 & Hb & HI1); [lia|done|].
    destruct (IH (i + 1) a' s1) as (acc' & s' & Hrun & HI'); [|done|].
    { intros j a s0 Hj. apply Hbody. lia. }
    exists acc', s'. split.
    + simpl. unfold mbind, M_bind. by rewrite Hb.
    + by replace (i + Z.of_nat (S n)) with (i + 1 + Z.of_nat n) by lia.
Qed.

Lemma for_range_indexed {A R : Type} (I : Z → State → Prop)
    (body : Z → A → M (A + R)) (lo hi : Z) (acc : A) (s : State) :
  (∀ j a s0, lo ≤ j ≤ hi → I j s0 →
     ∃ a' s1, body j a s0 = (Ok (inl a'), s1) ∧ I (j + 1) s1) →
  I lo s →
  ∃ acc' s', for_range lo hi body acc s = (Ok (inl acc'), s') ∧
             I (Z.max lo (hi + 1)) s'.
Proof.
  intros Hbody HI. unfold for_range.
  destruct (for_loop_indexed I body (Z.to_nat (hi - lo + 1)) lo acc s)
    as (acc' & s' & Hrun & HI'); [|done|].
  { intros j a s0 Hj. apply Hbody. lia. }
  exists acc', s'. split; [done|].
  by replace (Z.max lo (hi + 1)) with (lo + Z.of_nat (Z.to_nat (hi - lo + 1))) by lia.
Qed.

Lemma pixel_at_Some (buf : list Z) (k : Z) :
  0 ≤ k → 4 * k + 3 < Z.of_nat (length buf) → ∃ px, pixel_at buf k = Some px.
Proof.
  intros H0 H3. unfold pixel_at.
  destruct (index_Some buf (4 * k + 0)) as [r ->]; [lia|].
  destruct (index_Some buf (4 * k + 1)) as [g ->]; [lia|].
  destruct (index_Some buf (4 * k + 2)) as [b ->]; [lia|].
  destruct (index_Some buf (4 * k + 3)) as [a ->]; [lia|].
  by eexists.
Qed.

Lemma pixel_at_inv (buf : list Z) (k r g b a : Z) :
  pixel_at buf k = Some (r, g, b, a) →
  index buf (4 * k + 0) = Some r ∧ index buf (4 * k + 1) = Some g ∧
  index buf (4 * k + 2) = Some b ∧ index buf (4 * k + 3) = Some a.
Proof.
  unfold pixel_at.
  destruct (index buf (4 * k + 0)) as [r'|]; [|done].
  destruct (index buf (4 * k + 1)) as [g'|]; [|done].
  destruct (index buf (4 * k + 2)) as [b'|]; [|done].
  destruct (index buf (4 * k + 3)) as [a'|]; [|done].
  simpl. by intros [= -> -> -> ->].
Qed.

(** the four assignments change the pixel they are made to, and no other *)
Lemma composite_over_pixel_at (opa_a opa_b color_r_ color_g_ color_b_ : Z)
    (k k' : Z) (buf : list Z) (px : Z * Z * Z * Z) :
  0 ≤ k → 0 ≤ k' →
  pixel_at buf k = Some px →
  pixel_at (composite_over opa_a opa_b color_r_ color_g_ color_b_ (4 * k) buf) k' =
    if k' =? k
    then Some (over_pixel opa_a opa_b color_r_ color_g_ color_b_ px)
    else pixel_at buf k'.
Proof.
  intros Hk Hk' Hpx. destruct px as [[[r g] b] a].
  apply pixel_at_inv in Hpx as (E0 & E1 & E2 & E3).
  pose proof (index_lt _ _ _ E0). pose proof (index_lt _ _ _ E3).
  unfold composite_over. rewrite E0, E1, E2, E3.
  destruct (Z.eqb_spec k' k) as [->|Hne].
  - unfold pixel_at.
    rewrite (index_insert_ne _ (4 * k + 0)), (index_insert_ne _ (4 * k + 0)) by lia.
    rewrite index_insert_eq by (rewrite ?length_insert; lia).
    rewrite (index_insert_ne _ (4 * k + 1)) by lia.
    rewrite index_insert_eq by (rewrite ?length_insert; lia).
    rewrite index_insert_eq by (rewrite ?length_insert; lia).
    rewrite !(index_insert_ne _ (4 * k + 3)) by lia.
    rewrite index_insert_eq by (rewrite ?length_insert; lia).
    reflexivity.
  - unfold pixel_at. by rewrite !index_insert_ne by lia.
Qed.

Section DabPointwise.
Context {F : Type} {FO : FloatOps F}.

Lemma dab_pixel_pixel_at (xc yc one_over_radius2 : F)
    (color_r_ color_g_ color_b_ : Z) (opaque hardness alpha_eraser : F)
    (xp0 yp0 k : Z) (b : list Z) :
  0 ≤ xp0 ≤ TILE_SIZE - 1 → 0 ≤ yp0 ≤ TILE_SIZE - 1 →
  Z.of_nat (length b) = TILE_SIZE * TILE_SIZE * 4 →
  0 ≤ k →
  pixel_at (dab_pixel xc one_over_radius2 color_r_ color_g_ color_b_
              opaque hardness alpha_eraser
              ((of_int yp0 + lit_0_5 - yc) * (of_int yp0 + lit_0_5 - yc))%flt
              yp0 xp0 b) k =
    if k =? yp0 * TILE_SIZE + xp0
    then dab_on_pixel xc yc one_over_radius2 color_r_ color_g_ color_b_
           opaque hardness alpha_eraser xp0 yp0 <$> pixel_at b k
    else pixel_at b k.
Proof.
  intros Hxp Hyp Hlen Hk. unfold dab_pixel, dab_on_pixel, dab_rr. cbv zeta.
  destruct (_ <=? _)%flt.
  - destruct (dab_weights _ _) as [opa_a opa_b].
    destruct (pixel_idx_tile xp0 yp0 Hxp Hyp) as [-> Hk0].
    destruct (pixel_at_Some b (yp0 * TILE_SIZE + xp0)) as [px Hpx];
      [lia|unfold TILE_SIZE in *; lia|].
    rewrite (composite_over_pixel_at _ _ _ _ _ _ _ _ px) by (done || lia).
    destruct (Z.eqb_spec k (yp0 * TILE_SIZE + xp0)) as [->|]; [|done].
    by rewrite Hpx.
  - destruct (_ =? _); [|done]. by destruct (pixel_at b k).
Qed.

(** The pixel loops of one tile, as a function on the buffer: they run to
    their end, and each pixel of the clipped rectangle has been through
    the loop body once, starting from the value it had before the dab;
    the other pixels are as they were. *)
Lemma draw_dab_pixels_pointwise (p : ptr) (buf : list Z)
    (xc yc r_fringe one_over_radius2 : F)
    (color_r_ color_g_ color_b_ : Z) (opaque hardness alpha_eraser : F)
    (s : State) :
  heap s !! p = Some buf →
  Z.of_nat (length buf) = TILE_SIZE * TILE_SIZE * 4 →
  ∃ buf',
    draw_dab_pixels p xc yc r_fringe one_over_radius2
        color_r_ color_g_ color_b_ opaque hardness alpha_eraser s =
      (Ok (inl tt), set_heap (<[p := buf']> (heap s)) s) ∧
    Z.of_nat (length buf') = TILE_SIZE * TILE_SIZE * 4 ∧
    ∀ xp yp, 0 ≤ xp ≤ TILE_SIZE - 1 → 0 ≤ yp ≤ TILE_SIZE - 1 →
      pixel_at buf' (yp * TILE_SIZE + xp) =
        if dab_reaches xc yc r_fringe xp yp
        then dab_on_pixel xc yc one_over_radius2 color_r_ color_g_ color_b_
               opaque hardness alpha_eraser xp yp
               <$> pixel_at buf (yp * TILE_SIZE + xp)
        else pixel_at buf (yp * TILE_SIZE + xp).
Proof.
  intros Hp Hlen.
  pose proof (clip_lo_nonneg xc r_fringe) as Hx0.
  pose proof (clip_lo_nonneg yc r_fringe) as Hy0.
  pose proof (clip_hi_bound xc r_fringe) as Hx1.
  pose proof (clip_hi_bound yc r_fringe) as Hy1.
  unfold draw_dab_pixels, dab_reaches.
  set (x0 := clip_lo xc r_fringe) in *. set (y0 := clip_lo yc r_fringe) in *.
  set (x1 := clip_hi xc r_fringe) in *. set (y1 := clip_hi yc r_fringe) in *.
  set (f := dab_on_pixel xc yc one_over_radius2 color_r_ color_g_ color_b_
              opaque hardness alpha_eraser).
  set (Inv := λ (D : Z → Z → bool) (s' : State),
    ∃ b, s' = set_heap (<[p := b]> (heap s)) s ∧
         Z.of_nat (length b) = TILE_SIZE * TILE_SIZE * 4 ∧
         ∀ xp yp, 0 ≤ xp ≤ TILE_SIZE - 1 → 0 ≤ yp ≤ TILE_SIZE - 1 →
           pixel_at b (yp * TILE_SIZE + xp) =
             if D xp yp then f xp yp <$> pixel_at buf (yp * TILE_SIZE + xp)
             else pixel_at buf (yp * TILE_SIZE + xp)).
  assert (Hext : ∀ D D' s',
            (∀ xp yp, 0 ≤ xp ≤ TILE_SIZE - 1 → 0 ≤ yp ≤ TILE_SIZE - 1 →
                      D xp yp = D' xp yp) →
            Inv D s' → Inv D' s').
  { intros D D' s' HD (b & Hs & Hbl & Hb). exists b. split; [done|]. split; [done|].
    intros xp yp Hxp Hyp. rewrite <-HD by done. by apply Hb. }
  set (Dout := λ j xp yp : Z, (y0 <=? yp) && (yp <? j) && (x0 <=? xp) && (xp <=? x1)).
  set (Din := λ j i xp yp : Z,
    Dout j xp yp || ((yp =? j) && (x0 <=? xp) && (xp <? i))).
  match goal with
  | |- ∃ _, for_range ?lo ?hi ?body ?acc ?s = _ ∧ _ =>
      destruct (for_range_indexed (λ j, Inv (Dout j)) body lo hi acc s)
        as ([] & s' & Hrun & b & -> & Hbl & Hb)
  end.
  - intros yp [] s1 Hyp HI1.
    match goal with
    | |- ∃ _ _, for_range ?lo ?hi ?body ?acc ?s = _ ∧ _ =>
        destruct (for_range_indexed (λ i, Inv (Din yp i)) body lo hi acc s)
          as ([] & s2 & Hrun & HI2)
    end.
    + intros xp [] s2 Hxp (b & -> & Hbl & Hb).
      destruct (pixel_idx_bounds xp yp) as [Hi0 Hi3];
        [clear -Hx0 Hx1 Hxp; lia|clear -Hy0 Hy1 Hyp; lia|].
      unfold mbind, M_bind.
      erewrite draw_dab_pixel_mapped; [|apply lookup_insert_eq|done|lia].
      eexists tt, _. split; [done|].
      eexists. split; [|split].
      * unfold set_heap; simpl. by rewrite insert_insert_eq.
      * unfold dab_pixel. destruct (_ <=? _)%flt; [|done].
        destruct (dab_weights _ _). unfold composite_over.
        repeat case_match; rewrite ?length_insert; done.
      * intros xp' yp' Hxp' Hyp'.
        rewrite dab_pixel_pixel_at by (done || unfold TILE_SIZE in *; lia).
        rewrite (Hb xp' yp') by done.
        destruct (Z.eqb_spec (yp' * TILE_SIZE + xp') (yp * TILE_SIZE + xp)) as [He|He].
        -- assert (xp' = xp ∧ yp' = yp) as [-> ->] by (unfold TILE_SIZE in *; lia).
           replace (Din yp xp xp yp) with false; [replace (Din yp (xp + 1) xp yp) with true; [done|]|];
             unfold Din, Dout; apply eq_true_iff_eq;
             rewrite ?orb_true_iff, ?andb_true_iff, ?Z.leb_le, ?Z.ltb_lt, ?Z.eqb_eq; lia.
        -- replace (Din yp (xp + 1) xp' yp') with (Din yp xp xp' yp'); [done|].
           unfold Din, Dout; apply eq_true_iff_eq;
             rewrite ?orb_true_iff, ?andb_true_iff, ?Z.leb_le, ?Z.ltb_lt, ?Z.eqb_eq.
           unfold TILE_SIZE in *. lia.
    + apply (Hext (Dout yp)); [|done]. intros xp' yp' _ _.
      unfold Din, Dout; apply eq_true_iff_eq;
        rewrite ?orb_true_iff, ?andb_true_iff, ?Z.leb_le, ?Z.ltb_lt, ?Z.eqb_eq; lia.
    + exists tt, s2. split; [done|].
      apply (Hext (Din yp (Z.max x0 (x1 + 1)))); [|done]. intros xp' yp' _ _.
      unfold Din, Dout; apply eq_true_iff_eq;
        rewrite ?orb_true_iff, ?andb_true_iff, ?Z.leb_le, ?Z.ltb_lt, ?Z.eqb_eq; lia.
  - exists buf. split; [|split; [done|]].
    + unfold set_heap. rewrite insert_id by done. by destruct s.
    + intros xp yp _ _. replace (Dout y0 xp yp) with false; [done|].
      unfold Dout; symmetry; apply eq_true_iff_eq;
        rewrite ?orb_true_iff, ?andb_true_iff, ?Z.leb_le, ?Z.ltb_lt, ?Z.eqb_eq; lia.
  - exists b. split; [done|]. split; [done|].
    intros xp yp Hxp Hyp. rewrite (Hb xp yp) by done.
    replace (Dout (Z.max y0 (y1 + 1)) xp yp)
      with ((x0 <=? xp) && (xp <=? x1) && (y0 <=? yp) && (yp <=? y1)); [done|].
    unfold Dout; apply eq_true_iff_eq;
      rewrite ?orb_true_iff, ?andb_true_iff, ?Z.leb_le, ?Z.ltb_lt, ?Z.eqb_eq; lia.
Qed.
End DabPointwise.

(** ** The disc of a dab, with exact arithmetic: proofs *)

Lemma to_int_inject_Z (z : Z) : to_int (inject_Z z) = z.
Proof. simpl. apply Z.quot_1_r. Qed.

Lemma Qfloor_div_TILE_SIZE (a : Z) :
  Qfloor (inject_Z a / inject_Z TILE_SIZE) = a / TILE_SIZE.
Proof.
  unfold Qfloor, Qdiv, Qmult, Qinv, TILE_SIZE. simpl. by rewrite Z.mul_1_r.
Qed.

Lemma tile_lo_Q (c r_fringe : Q) :
  tile_lo c r_fringe = Qfloor (c - r_fringe) / TILE_SIZE.
Proof.
  unfold tile_lo. cbn [ffloor fdiv fsub of_int Q_FloatOps].
  by rewrite to_int_inject_Z, Qfloor_div_TILE_SIZE.
Qed.

Lemma tile_hi_Q (c r_fringe : Q) :
  tile_hi c r_fringe = Qfloor (c + r_fringe) / TILE_SIZE.
Proof.
  unfold tile_hi. cbn [ffloor fdiv fadd of_int Q_FloatOps].
  by rewrite to_int_inject_Z, Qfloor_div_TILE_SIZE.
Qed.

Lemma clip_lo_Q (c r_fringe : Q) :
  clip_lo c r_fringe = Z.max 0 (Qfloor (c - r_fringe)).
Proof.
  unfold clip_lo. cbn [ffloor fsub Q_FloatOps]. rewrite to_int_inject_Z.
  destruct (Z.ltb_spec (Qfloor (c - r_fringe)) 0); lia.
Qed.

Lemma clip_hi_Q (c r_fringe : Q) :
  clip_hi c r_fringe = Z.min (TILE_SIZE - 1) (Qceiling (c + r_fringe)).
Proof.
  unfold clip_hi. cbn [fceil fadd Q_FloatOps]. rewrite to_int_inject_Z.
  destruct (Z.ltb_spec (TILE_SIZE - 1) (Qceiling (c + r_fringe))); lia.
Qed.

Lemma radius_guard_Q (radius : Q) :
  (radius <? lit_0_1)%flt = false → (0 < radius)%Q.
Proof.
  cbn [fltb Q_FloatOps]. intros H%negb_false_iff%Qle_bool_iff.
  unfold lit_0_1 in H. cbn [fdiv of_int Q_FloatOps] in H.
  change (inject_Z 1 / inject_Z 10)%Q with (1 # 10)%Q in H. lra.
Qed.

(** the test [rr <= 1.0] of the loops is the test of the disc *)
Lemma dab_rr_circle (x y radius : Q) (tx ty xp yp : Z) :
  (0 < radius)%Q →
  (dab_rr (x - of_int (tx * TILE_SIZE))%flt (y - of_int (ty * TILE_SIZE))%flt
     (of_int 1 / (radius * radius))%flt xp yp <=? of_int 1)%flt = true ↔
  in_dab_circle x y radius (tx * TILE_SIZE + xp) (ty * TILE_SIZE + yp).
Proof.
  intros Hr. unfold dab_rr, in_dab_circle, lit_0_5.
  cbn [fleb fadd fsub fmul fdiv of_int Q_FloatOps]. cbv zeta.
  rewrite Qle_bool_iff.
  change (inject_Z 1 / inject_Z 2)%Q with (1 # 2)%Q.
  change (inject_Z 1) with 1%Q.
  rewrite !inject_Z_plus.
  set (a := inject_Z xp). set (b := inject_Z yp).
  set (t := inject_Z (tx * TILE_SIZE)). set (u := inject_Z (ty * TILE_SIZE)).
  assert (Hr2 : (0 < radius * radius)%Q) by nra.
  set (r2 := (radius * radius)%Q) in *.
  assert (Hv : (r2 * / r2 == 1)%Q) by (apply Qmult_inv_r; lra).
  assert (Hv0 : (0 < / r2)%Q) by (by apply Qinv_lt_0_compat).
  unfold Qdiv. set (v := (/ r2)%Q) in *.
  set (S1 := ((b + (1 # 2) - (y - u)) * (b + (1 # 2) - (y - u)) +
              (a + (1 # 2) - (x - t)) * (a + (1 # 2) - (x - t)))%Q).
  set (S2 := ((t + a + (1 # 2) - x) * (t + a + (1 # 2) - x) +
              (u + b + (1 # 2) - y) * (u + b + (1 # 2) - y))%Q).
  assert (HS : (S1 == S2)%Q) by (unfold S1, S2; ring).
  rewrite <-HS. clearbody S1. clear HS S2.
  split; intros H.
  - assert (H1 : (S1 * v * r2 <= 1 * r2)%Q) by (apply Qmult_le_compat_r; lra).
    assert (H2 : (S1 * v * r2 == S1)%Q).
    { rewrite <-Qmult_assoc, (Qmult_comm v r2), Hv. ring. }
    lra.
  - assert (H1 : (S1 * v <= r2 * v)%Q) by (apply Qmult_le_compat_r; lra).
    lra.
Qed.

Lemma circle_axis (dx dy radius : Q) :
  (0 <= radius)%Q → (dx * dx + dy * dy <= radius * radius)%Q →
  (- radius <= dx)%Q ∧ (dx <= radius)%Q ∧ (- radius <= dy)%Q ∧ (dy <= radius)%Q.
Proof. intros Hr H. repeat split; nra. Qed.

(** a pixel of the disc lies between the two corners given to the dirty
    box *)
Lemma circle_in_bbox (x y radius : Q) (X Y : Z) :
  (0 <= radius)%Q → in_dab_circle x y radius X Y → in_dab_bbox x y radius X Y.
Proof.
  intros Hr Hc. unfold in_dab_circle in Hc. cbv zeta in Hc.
  apply circle_axis in Hc as (Hx0 & Hx1 & Hy0 & Hy1); [|done].
  unfold in_dab_bbox, dab_bbox. cbn [fst snd].
  cbn [ffloor fceil fsub fadd fmul of_int Q_FloatOps].
  rewrite !to_int_inject_Z.
  change (inject_Z 1) with 1%Q. change (inject_Z 2) with 2%Q.
  pose proof (Qfloor_le (x - (radius + 1))) as Hfx.
  pose proof (Qlt_floor (x - (radius + 1))) as Hfx'.
  pose proof (Qfloor_le (y - (radius + 1))) as Hfy.
  pose proof (Qlt_floor (y - (radius + 1))) as Hfy'.
  pose proof (Qle_ceiling (2 * (radius + 1))) as Hc.
  set (fx := Qfloor (x - (radius + 1))) in *.
  set (fy := Qfloor (y - (radius + 1))) in *.
  set (cw := Qceiling (2 * (radius + 1))) in *.
  rewrite inject_Z_plus in Hfx', Hfy'. change (inject_Z 1) with 1%Q in Hfx', Hfy'.
  assert (H1 : fx ≤ X) by (rewrite Zle_Qle; lra).
  assert (H2 : fy ≤ Y) by (rewrite Zle_Qle; lra).
  assert (H3 : X < fx + cw).
  { rewrite Zlt_Qlt, inject_Z_plus. lra. }
  assert (H4 : Y < fy + cw).
  { rewrite Zlt_Qlt, inject_Z_plus. lra. }
  lia.
Qed.

(** a pixel of the disc is in the clipped rectangle of its tile *)
Lemma circle_reaches (x y radius : Q) (tx ty xp yp : Z) :
  (0 <= radius)%Q →
  0 ≤ xp ≤ TILE_SIZE - 1 → 0 ≤ yp ≤ TILE_SIZE - 1 →
  in_dab_circle x y radius (tx * TILE_SIZE + xp) (ty * TILE_SIZE + yp) →
  dab_reaches (x - of_int (tx * TILE_SIZE))%flt (y - of_int (ty * TILE_SIZE))%flt
    (radius + of_int 1)%flt xp yp = true.
Proof.
  intros Hr Hxp Hyp Hc. unfold in_dab_circle in Hc. cbv zeta in Hc.
  apply circle_axis in Hc as (Hx0 & Hx1 & Hy0 & Hy1); [|done].
  rewrite !inject_Z_plus in Hx0, Hx1, Hy0, Hy1.
  unfold dab_reaches. rewrite !clip_lo_Q, !clip_hi_Q.
  cbn [fsub fadd of_int Q_FloatOps]. change (inject_Z 1) with 1%Q.
  set (t := inject_Z (tx * TILE_SIZE)) in *. set (u := inject_Z (ty * TILE_SIZE)) in *.
  pose proof (Qfloor_le (x - t - (radius + 1))) as Hfx.
  pose proof (Qfloor_le (y - u - (radius + 1))) as Hfy.
  pose proof (Qle_ceiling (x - t + (radius + 1))) as Hcx.
  pose proof (Qle_ceiling (y - u + (radius + 1))) as Hcy.
  assert (H1 : Qfloor (x - t - (radius + 1)) ≤ xp) by (rewrite Zle_Qle; lra).
  assert (H2 : Qfloor (y - u - (radius + 1)) ≤ yp) by (rewrite Zle_Qle; lra).
  assert (H3 : xp ≤ Qceiling (x - t + (radius + 1))) by (rewrite Zle_Qle; lra).
  assert (H4 : yp ≤ Qceiling (y - u + (radius + 1))) by (rewrite Zle_Qle; lra).
  rewrite !andb_true_iff, !Z.leb_le. lia.
Qed.

(** the tile of a pixel of the disc is in the tile range of the dab *)
Lemma circle_tile_range (x radius dy : Q) (X : Z) :
  (0 <= radius)%Q →
  (let dx := (inject_Z X + (1 # 2) - x)%Q in dx * dx + dy * dy <= radius * radius)%Q →
  tile_lo x (radius + of_int 1)%flt ≤ X / TILE_SIZE ≤ tile_hi x (radius + of_int 1)%flt.
Proof.
  intros Hr Hc. cbv zeta in Hc.
  apply circle_axis in Hc as (Hx0 & Hx1 & _); [|done].
  rewrite tile_lo_Q, tile_hi_Q. cbn [fadd of_int Q_FloatOps].
  change (inject_Z 1) with 1%Q.
  pose proof (Qfloor_le (x - (radius + 1))) as Hf.
  assert (H1 : Qfloor (x - (radius + 1)) ≤ X) by (rewrite Zle_Qle; lra).
  assert (H2 : X ≤ Qfloor (x + (radius + 1))).
  { rewrite <-(Qfloor_Z X). apply Qfloor_resp_le. lra. }
  split; apply Z.div_le_mono; unfold TILE_SIZE; lia.
Qed.

Section OnPixel.
Context {F : Type} {FO : FloatOps F}.

Lemma dab_on_pixel_outside (xc yc one_over_radius2 : F)
    (color_r_ color_g_ color_b_ : Z) (opaque hardness alpha_eraser : F)
    (xp yp : Z) (px : Z * Z * Z * Z) :
  (dab_rr xc yc one_over_radius2 xp yp <=? of_int 1)%flt = false →
  dab_on_pixel xc yc one_over_radius2 color_r_ color_g_ color_b_
    opaque hardness alpha_eraser xp yp px = px.
Proof. unfold dab_on_pixel. cbv zeta. by intros ->. Qed.

Lemma dab_on_pixel_inside (xc yc one_over_radius2 : F)
    (color_r_ color_g_ color_b_ : Z) (opaque hardness alpha_eraser : F)
    (xp yp : Z) (px : Z * Z * Z * Z) :
  (dab_rr xc yc one_over_radius2 xp yp <=? of_int 1)%flt = true →
  dab_on_pixel xc yc one_over_radius2 color_r_ color_g_ color_b_
    opaque hardness alpha_eraser xp yp px =
  over_pixel
    (dab_weights (falloff opaque hardness (dab_rr xc yc one_over_radius2 xp yp))
       alpha_eraser).1
    (dab_weights (falloff opaque hardness (dab_rr xc yc one_over_radius2 xp yp))
       alpha_eraser).2
    color_r_ color_g_ color_b_ px.
Proof.
  unfold dab_on_pixel. cbv zeta. intros ->. by destruct (dab_weights _ _).
Qed.

(** X10.  The body of the tile loops of [draw_dab], for a tile whose
    buffer the store hands out: it runs to its end without fault, and in
    the buffer each pixel of the clipped rectangle [x0..x1] x [y0..y1]
    has been through the body of the pixel loop exactly once, computed
    from the value it had before; every other pixel of the tile is as it
    was, and so are all other buffers. *)
Theorem dab_composites_each_pixel_of_a_tile_once (x y r_fringe one_over_radius2 : F)
    (color_r_ color_g_ color_b_ : Z) (opaque hardness alpha_eraser : F)
    (ty tx : Z) (p : ptr) (buf : list Z) (s s1 : State) :
  get_tile_memory tx ty false s = (Ok (Some p), s1) →
  heap s !! p = Some buf →
  Z.of_nat (length buf) = TILE_SIZE * TILE_SIZE * 4 →
  let xc := (x - of_int (tx * TILE_SIZE))%flt in
  let yc := (y - of_int (ty * TILE_SIZE))%flt in
  ∃ buf',
    draw_dab_tile x y r_fringe one_over_radius2 color_r_ color_g_ color_b_
        opaque hardness alpha_eraser ty tx s =
      (Ok (inl tt), set_heap (<[p := buf']> (heap s)) s1) ∧
    Z.of_nat (length buf') = TILE_SIZE * TILE_SIZE * 4 ∧
    ∀ xp yp, 0 ≤ xp ≤ TILE_SIZE - 1 → 0 ≤ yp ≤ TILE_SIZE - 1 →
      pixel_at buf' (yp * TILE_SIZE + xp) =
        if dab_reaches xc yc r_fringe xp yp
        then dab_on_pixel xc yc one_over_radius2 color_r_ color_g_ color_b_
               opaque hardness alpha_eraser xp yp
               <$> pixel_at buf (yp * TILE_SIZE + xp)
        else pixel_at buf (yp * TILE_SIZE + xp).
Proof.
  intros Hget Hp Hlen xc yc.
  destruct (get_tile_memory_frame tx ty false s) as (res & s1' & Heq & Hhp & _).
  rewrite Hget in Heq. injection Heq as <- <-.
  destruct (draw_dab_pixels_pointwise p buf xc yc r_fringe one_over_radius2
              color_r_ color_g_ color_b_ opaque hardness alpha_eraser s1)
    as (buf' & Hrun & Hlen' & Hpt); [by rewrite Hhp|done|].
  exists buf'. split; [|done].
  unfold draw_dab_tile, mbind, M_bind. rewrite Hget. fold xc yc.
  by rewrite Hrun, Hhp.
Qed.
End OnPixel.

(** X11.  With exact arithmetic, for a radius that passes the guard of
    [draw_dab]: a pixel of a tile changes under the pixel loops only if
    its centre is within [radius] of the centre of the dab, and every
    such pixel lies between the two corners by which [draw_dab] expands
    the dirty box.  So the box reported for a dab covers all that the dab
    changed. *)
Theorem dab_changes_only_pixels_of_its_disc (x y radius : Q)
    (color_r_ color_g_ color_b_ : Z) (opaque hardness alpha_eraser : Q)
    (tx ty : Z) (p : ptr) (buf : list Z) (s : State) :
  (radius <? lit_0_1)%flt = false →
  heap s !! p = Some buf →
  Z.of_nat (length buf) = TILE_SIZE * TILE_SIZE * 4 →
  ∃ buf',
    draw_dab_pixels p (x - of_int (tx * TILE_SIZE))%flt
        (y - of_int (ty * TILE_SIZE))%flt
        (radius + of_int 1)%flt (of_int 1 / (radius * radius))%flt
        color_r_ color_g_ color_b_ opaque hardness alpha_eraser s =
      (Ok (inl tt), set_heap (<[p := buf']> (heap s)) s) ∧
    ∀ xp yp, 0 ≤ xp ≤ TILE_SIZE - 1 → 0 ≤ yp ≤ TILE_SIZE - 1 →
      pixel_at buf' (yp * TILE_SIZE + xp) ≠ pixel_at buf (yp * TILE_SIZE + xp) →
      in_dab_circle x y radius (tx * TILE_SIZE + xp) (ty * TILE_SIZE + yp) ∧
      in_dab_bbox x y radius (tx * TILE_SIZE + xp) (ty * TILE_SIZE + yp).
Proof.
  intros Hrad%radius_guard_Q Hp Hlen.
  destruct (draw_dab_pixels_pointwise p buf (x - of_int (tx * TILE_SIZE))%flt
              (y - of_int (ty * TILE_SIZE))%flt
              (radius + of_int 1)%flt (of_int 1 / (radius * radius))%flt
              color_r_ color_g_ color_b_ opaque hardness alpha_eraser s)
    as (buf' & Hrun & _ & Hpt); [done..|].
  exists buf'. split; [done|]. intros xp yp Hxp Hyp Hne.
  rewrite Hpt in Hne by done.
  destruct (dab_reaches _ _ _ _ _); [|done].
  destruct (dab_rr (x - of_int (tx * TILE_SIZE))%flt (y - of_int (ty * TILE_SIZE))%flt
              (of_int 1 / (radius * radius))%flt xp yp <=? of_int 1)%flt eqn:Hrr.
  - apply dab_rr_circle in Hrr; [|done]. split; [done|].
    apply circle_in_bbox; [lra|done].
  - exfalso. apply Hne. destruct (pixel_at buf _) as [px|]; [|done].
    simpl. by rewrite dab_on_pixel_outside.
Qed.

(** X12.  With exact arithmetic, for a radius that passes the guard of
    [draw_dab]: every pixel of the surface whose centre is within
    [radius] of the centre of the dab is reached by the loops.  Its tile
    is in the tile range [tx1..tx2] x [ty1..ty2], its position in the
    tile is in the clipped rectangle [x0..x1] x [y0..y1] of that tile,
    and the test [rr <= 1.0] holds there, so the pixel is composited. *)
Theorem every_pixel_of_the_disc_is_composited (x y radius : Q) (X Y : Z) :
  (radius <? lit_0_1)%flt = false →
  in_dab_circle x y radius X Y →
  let r_fringe := (radius + of_int 1)%flt in
  let tx := X / TILE_SIZE in
  let ty := Y / TILE_SIZE in
  let xp := X mod TILE_SIZE in
  let yp := Y mod TILE_SIZE in
  let xc := (x - of_int (tx * TILE_SIZE))%flt in
  let yc := (y - of_int (ty * TILE_SIZE))%flt in
  (tile_lo x r_fringe ≤ tx ≤ tile_hi x r_fringe ∧
   tile_lo y r_fringe ≤ ty ≤ tile_hi y r_fringe) ∧
  (0 ≤ xp ≤ TILE_SIZE - 1 ∧ 0 ≤ yp ≤ TILE_SIZE - 1) ∧
  dab_reaches xc yc r_fringe xp yp = true ∧
  (dab_rr xc yc (of_int 1 / (radius * radius))%flt xp yp <=? of_int 1)%flt = true.
Proof.
  intros Hrad%radius_guard_Q Hc. cbv zeta.
  assert (Hxp : 0 ≤ X mod TILE_SIZE ≤ TILE_SIZE - 1)
    by (pose proof (Z.mod_pos_bound X TILE_SIZE); unfold TILE_SIZE in *; lia).
  assert (Hyp : 0 ≤ Y mod TILE_SIZE ≤ TILE_SIZE - 1)
    by (pose proof (Z.mod_pos_bound Y TILE_SIZE); unfold TILE_SIZE in *; lia).
  assert (HX : X / TILE_SIZE * TILE_SIZE + X mod TILE_SIZE = X)
    by (pose proof (Z.div_mod X TILE_SIZE); unfold TILE_SIZE in *; lia).
  assert (HY : Y / TILE_SIZE * TILE_SIZE + Y mod TILE_SIZE = Y)
    by (pose proof (Z.div_mod Y TILE_SIZE); unfold TILE_SIZE in *; lia).
  split; [split|split; [done|split]].
  - apply (circle_tile_range x radius (inject_Z Y + (1 # 2) - y)%Q X); [lra|done].
  - apply (circle_tile_range y radius (inject_Z X + (1 # 2) - x)%Q Y); [lra|].
    unfold in_dab_circle in Hc. cbv zeta in *. lra.
  - apply (circle_reaches x y radius); [lra|done|done|]. by rewrite HX, HY.
  - apply dab_rr_circle; [done|]. by rewrite HX, HY.
Qed.

Lemma dab_weights_hard (rr : Q) :
  dab_weights (falloff (of_int 1) (of_int 1) rr) (of_int 1) = (1 ≪ 15, 0).
Proof. reflexivity. Qed.

Lemma over_pixel_opaque (color_r_ color_g_ color_b_ : Z) (px : Z * Z * Z * Z) :
  0 ≤ color_r_ ≤ 2 ^ 15 → 0 ≤ color_g_ ≤ 2 ^ 15 → 0 ≤ color_b_ ≤ 2 ^ 15 →
  over_pixel (1 ≪ 15) 0 color_r_ color_g_ color_b_ px =
    (color_r_, color_g_, color_b_, 1 ≪ 15).
Proof.
  intros Hr Hg Hb. destruct px as [[[r g] b] a]. unfold over_pixel, mul32, add32.
  change (1 ≪ 15) with (2 ^ 15). rewrite !Z.mul_0_l.
  change (uint32 0) with 0. change (0 / 2 ^ 15) with 0. rewrite !Z.add_0_r.
  rewrite !(uint32_small (2 ^ 15 * _)) by lia.
  rewrite !(Z.mul_comm (2 ^ 15)), !Z.div_mul by lia.
  rewrite !uint16_small by lia.
  by rewrite uint32_small, uint16_small by lia.
Qed.

(** X13.  With exact arithmetic: the pixel loops of a dab of full opacity
    and hardness 1 (and the default eraser strength 1) set each pixel of
    the tile whose centre is within [radius] of the centre of the dab to
    the colour of the dab at full alpha, whatever the pixel held before,
    and leave every other pixel of the tile as it was. *)
Theorem hard_opaque_dab_paints_its_disc (x y radius color_r color_g color_b : Q)
    (tx ty : Z) (p : ptr) (buf : list Z) (s : State) :
  (radius <? lit_0_1)%flt = false →
  unit_range color_r = true → unit_range color_g = true →
  unit_range color_b = true →
  heap s !! p = Some buf →
  Z.of_nat (length buf) = TILE_SIZE * TILE_SIZE * 4 →
  let color_r_ := to_uint32 (color_r * of_int (1 ≪ 15))%flt in
  let color_g_ := to_uint32 (color_g * of_int (1 ≪ 15))%flt in
  let color_b_ := to_uint32 (color_b * of_int (1 ≪ 15))%flt in
  ∃ buf',
    draw_dab_pixels p (x - of_int (tx * TILE_SIZE))%flt
        (y - of_int (ty * TILE_SIZE))%flt
        (radius + of_int 1)%flt (of_int 1 / (radius * radius))%flt
        color_r_ color_g_ color_b_ (of_int 1) (of_int 1) (of_int 1) s =
      (Ok (inl tt), set_heap (<[p := buf']> (heap s)) s) ∧
    ∀ xp yp, 0 ≤ xp ≤ TILE_SIZE - 1 → 0 ≤ yp ≤ TILE_SIZE - 1 →
      (in_dab_circle x y radius (tx * TILE_SIZE + xp) (ty * TILE_SIZE + yp) →
       pixel_at buf' (yp * TILE_SIZE + xp)
         = Some (color_r_, color_g_, color_b_, 1 ≪ 15)) ∧
      (¬ in_dab_circle x y radius (tx * TILE_SIZE + xp) (ty * TILE_SIZE + yp) →
       pixel_at buf' (yp * TILE_SIZE + xp) = pixel_at buf (yp * TILE_SIZE + xp)).
Proof.
  intros Hrad%radius_guard_Q [Hr0 Hr1]%unit_range_Q [Hg0 Hg1]%unit_range_Q
    [Hb0 Hb1]%unit_range_Q Hp Hlen color_r_ color_g_ color_b_.
  pose proof (color_fixed_point_range color_r Hr0 Hr1) as Hcr.
  pose proof (color_fixed_point_range color_g Hg0 Hg1) as Hcg.
  pose proof (color_fixed_point_range color_b Hb0 Hb1) as Hcb.
  fold color_r_ in Hcr. fold color_g_ in Hcg. fold color_b_ in Hcb.
  destruct (draw_dab_pixels_pointwise p buf (x - of_int (tx * TILE_SIZE))%flt
              (y - of_int (ty * TILE_SIZE))%flt
              (radius + of_int 1)%flt (of_int 1 / (radius * radius))%flt
              color_r_ color_g_ color_b_ (of_int 1) (of_int 1) (of_int 1) s)
    as (buf' & Hrun & _ & Hpt); [done..|].
  exists buf'. split; [done|]. intros xp yp Hxp Hyp.
  rewrite Hpt by done. split.
  - intros Hc. rewrite (circle_reaches x y radius) by (done || lra).
    apply dab_rr_circle in Hc; [|done].
    destruct (pixel_at_Some buf (yp * TILE_SIZE + xp)) as [px ->];
      [unfold TILE_SIZE in *; lia..|].
    simpl. rewrite (dab_on_pixel_inside _ _ _ _ _ _ _ _ _ _ _ _ Hc).
    rewrite dab_weights_hard. cbn [fst snd].
    by rewrite over_pixel_opaque.
  - intros Hc. destruct (dab_reaches _ _ _ _ _); [|done].
    destruct (dab_rr (x - of_int (tx * TILE_SIZE))%flt
                (y - of_int (ty * TILE_SIZE))%flt
                (of_int 1 / (radius * radius))%flt xp yp <=? of_int 1)%flt eqn:Hrr.
    + by apply dab_rr_circle in Hrr.
    + destruct (pixel_at buf _) as [px|]; [|done].
      simpl. by rewrite dab_on_pixel_outside.
Qed.

(** ** Painting and erasing, pixel by pixel over the heap: proofs *)

Section TileSteps.
Context {F : Type} {FO : FloatOps F}.

(** an invariant of the steps of [draw_dab] on whole tiles (a fetch of a
    tile of the tile range, the pixel loops of such a tile, the expansion
    of the dirty box) is an invariant of [draw_dab] *)
Lemma draw_dab_preserves_tiles (I : State → Prop) (x y radius color_r color_g color_b
    opaque hardness alpha_eraser : F) (s : State) :
  (∀ tx ty s', I s' → I (get_tile_memory tx ty false s').2) →
  (∀ tx ty p s', I s' →
     I (draw_dab_pixels p (x - of_int (tx * TILE_SIZE))%flt
          (y - of_int (ty * TILE_SIZE))%flt
          (radius + of_int 1)%flt (of_int 1 / (radius * radius))%flt
          (to_uint32 (color_r * of_int (1 ≪ 15))%flt)
          (to_uint32 (color_g * of_int (1 ≪ 15))%flt)
          (to_uint32 (color_b * of_int (1 ≪ 15))%flt)
          opaque hardness alpha_eraser s').2) →
  (∀ s', I s' → I (expand_dirty_bbox x y radius s').2) →
  I s →
  I (draw_dab x y radius color_r color_g color_b opaque hardness alpha_eraser s).2.
Proof.
  intros Hget Hpix Hexp HI. rewrite draw_dab_spec.
  destruct (_ && _); [|done].
  destruct (_ || _); [done|].
  destruct (0 <? atomic (surf s)); [|done].
  apply (bind_preserves I).
  2:{ intros [[]|b] Htiles; [|done].
      apply (bind_preserves I); [by apply Hexp|done]. }
  unfold draw_dab_tiles.
  apply (for_range_preserves I); [|done]. intros ty [] s1 Hty HI1.
  apply (for_range_preserves I); [|done]. intros tx [] s2 Htx HI2.
  unfold draw_dab_tile. apply (bind_preserves I); [by apply Hget|].
  intros [p|] HI3; [|done]. by apply Hpix.
Qed.
End TileSteps.

Lemma over_pixel_premultiplied (opa_a opa_b color_r_ color_g_ color_b_ : Z)
    (r g b a : Z) :
  0 ≤ opa_a → 0 ≤ opa_b → opa_a + opa_b ≤ 2 ^ 15 →
  0 ≤ color_r_ ≤ 2 ^ 15 → 0 ≤ color_g_ ≤ 2 ^ 15 → 0 ≤ color_b_ ≤ 2 ^ 15 →
  premultiplied_pixel (r, g, b, a) = true →
  over_pixel opa_a opa_b color_r_ color_g_ color_b_ (r, g, b, a) =
    ((opa_a * color_r_ + opa_b * r) / 2 ^ 15,
     (opa_a * color_g_ + opa_b * g) / 2 ^ 15,
     (opa_a * color_b_ + opa_b * b) / 2 ^ 15,
     opa_a + opa_b * a / 2 ^ 15) ∧
  premultiplied_pixel
    (over_pixel opa_a opa_b color_r_ color_g_ color_b_ (r, g, b, a)) = true.
Proof.
  intros Ha Hb Hab Hcr Hcg Hcb (Hr & Hg & Hbl & Hal)%premultiplied_pixel_spec.
  unfold over_pixel.
  destruct (over_channel_range opa_a opa_b color_r_ r a)
    as (_ & _ & -> & -> & Hr' & Ha'); [lia..|].
  destruct (over_channel_range opa_a opa_b color_g_ g a)
    as (_ & _ & -> & _ & Hg' & _); [lia..|].
  destruct (over_channel_range opa_a opa_b color_b_ b a)
    as (_ & _ & -> & _ & Hb' & _); [lia..|].
  split; [done|]. apply premultiplied_pixel_spec. lia.
Qed.

(** With exact arithmetic, for arguments in their ranges: if [R] is
    reflexive and transitive and holds between a premultiplied pixel and
    what the loop body makes of it, then [R] holds between each pixel of
    the heap before [draw_dab] and the same pixel after it. *)
Lemma draw_dab_heap_related (R : Z * Z * Z * Z → Z * Z * Z * Z → Prop)
    (x y radius color_r color_g color_b opaque hardness alpha_eraser : Q)
    (s : State) :
  (∀ px, R px px) →
  (∀ px1 px2 px3, R px1 px2 → R px2 px3 → R px1 px3) →
  (∀ rr px, (0 <= rr)%Q → (rr <= 1)%Q → premultiplied_pixel px = true →
     R px (over_pixel (dab_weights (falloff opaque hardness rr) alpha_eraser).1
                      (dab_weights (falloff opaque hardness rr) alpha_eraser).2
                      (to_uint32 (color_r * of_int (1 ≪ 15))%flt)
                      (to_uint32 (color_g * of_int (1 ≪ 15))%flt)
                      (to_uint32 (color_b * of_int (1 ≪ 15))%flt) px)) →
  unit_range color_r = true → unit_range color_g = true →
  unit_range color_b = true → unit_range opaque = true →
  unit_range hardness = true → (hardness =? of_int 0)%flt = false →
  unit_range alpha_eraser = true →
  premultiplied_heap (heap s) →
  heap_pixels_related R (heap s)
    (heap (draw_dab x y radius color_r color_g color_b
             opaque hardness alpha_eraser s).2).
Proof.
  intros Hrefl Htrans Hstep [Hr0 Hr1]%unit_range_Q [Hg0 Hg1]%unit_range_Q
    [Hb0 Hb1]%unit_range_Q [Ho0 Ho1]%unit_range_Q [Hh0 Hh1]%unit_range_Q Hh
    [He0 He1]%unit_range_Q Hheap.
  assert (Hhpos : (0 < hardness)%Q).
  { apply Qle_lt_or_eq in Hh0 as [?|Heq]; [done|].
    simpl in Hh. symmetry in Heq. apply Qeq_bool_iff in Heq.
    change (inject_Z 0) with 0%Q in Hh. congruence. }
  pose proof (color_fixed_point_range color_r Hr0 Hr1) as Hcr.
  pose proof (color_fixed_point_range color_g Hg0 Hg1) as Hcg.
  pose proof (color_fixed_point_range color_b Hb0 Hb1) as Hcb.
  apply (draw_dab_preserves_tiles (λ s', heap_pixels_related R (heap s) (heap s'))).
  - intros tx ty s' HI.
    destruct (get_tile_memory_frame tx ty false s') as (res & s1 & -> & Hhp & _).
    simpl. by rewrite Hhp.
  - intros tx ty p s' HI.
    destruct (heap s' !! p) as [b|] eqn:Hb; [|by rewrite draw_dab_pixels_unmapped].
    pose proof (HI p) as HIp. rewrite Hb in HIp.
    destruct (heap s !! p) as [b0|] eqn:Hq0; [|done].
    destruct HIp as [Hblen Hbpx].
    edestruct (draw_dab_pixels_pointwise p b) as (buf' & -> & Hlen' & Hpt);
      [exact Hb|exact Hblen|].
    unfold set_heap; simpl. intros q.
    destruct (decide (q = p)) as [->|Hne];
      [|rewrite lookup_insert_ne by done; apply HI].
    rewrite Hq0, lookup_insert_eq. split; [done|].
    intros k Hk. destruct (Hbpx k Hk) as (px0 & px & Hpx0 & Hpx & Hok & HR).
    assert (Hkx : 0 ≤ k mod TILE_SIZE ≤ TILE_SIZE - 1)
      by (pose proof (Z.mod_pos_bound k TILE_SIZE); unfold TILE_SIZE in *; lia).
    assert (Hky : 0 ≤ k / TILE_SIZE ≤ TILE_SIZE - 1).
    { unfold TILE_SIZE in *. split; [apply Z.div_pos; lia|].
      assert (k / 64 < 64) by (apply Z.div_lt_upper_bound; lia). lia. }
    assert (Hkk : k / TILE_SIZE * TILE_SIZE + k mod TILE_SIZE = k)
      by (pose proof (Z.div_mod k TILE_SIZE); unfold TILE_SIZE in *; lia).
    specialize (Hpt _ _ Hkx Hky). rewrite Hkk, Hpx in Hpt.
    exists px0. destruct (dab_reaches _ _ _ _ _); [|by exists px].
    simpl in Hpt. eexists. split; [done|]. split; [exact Hpt|].
    set (rr := dab_rr (x - of_int (tx * TILE_SIZE))%flt
                 (y - of_int (ty * TILE_SIZE))%flt
                 (of_int 1 / (radius * radius))%flt
                 (k mod TILE_SIZE) (k / TILE_SIZE)).
    destruct (rr <=? of_int 1)%flt eqn:Hrr.
    + rewrite (dab_on_pixel_inside _ _ _ _ _ _ _ _ _ _ _ _ Hrr). fold rr.
      assert (Hrr0 : (0 <= rr)%Q) by apply dab_rr_nonneg.
      assert (Hrr1 : (rr <= 1)%Q) by (by apply Qle_bool_iff).
      destruct (falloff_unit_range opaque hardness rr) as [Hf0 Hf1]; [done..|].
      pose proof (dab_weights_range (falloff opaque hardness rr) alpha_eraser
                    Hf0 Hf1 He0 He1) as (Ha & Hbw & Hab).
      destruct px as [[[r g] bl] a].
      split.
      * by apply over_pixel_premultiplied.
      * eapply Htrans; [exact HR|]. by apply Hstep.
    + rewrite (dab_on_pixel_outside _ _ _ _ _ _ _ _ _ _ _ _ Hrr). done.
  - intros s' HI. unfold expand_dirty_bbox.
    by destruct (dab_bbox x y radius) as [[ax ay] [bx by']].
  - intros p. destruct (heap s !! p) as [b|] eqn:Hb; [|done].
    apply (Hheap p b) in Hb. apply premultiplied_tile_spec in Hb as [Hlen Hpx].
    split; [done|]. intros k Hk. destruct (Hpx k Hk) as (px & Hat & Hok).
    by exists px, px.
Qed.

Lemma to_int_mul_1 (z : Z) : to_int (of_int z * of_int 1)%flt = z.
Proof.
  cbn [to_int fmul of_int Q_FloatOps]. unfold Qmult, inject_Z. simpl.
  by rewrite Z.mul_1_r, Z.quot_1_r.
Qed.

Lemma to_int_mul_0 (z : Z) : to_int (of_int z * of_int 0)%flt = 0.
Proof.
  cbn [to_int fmul of_int Q_FloatOps]. unfold Qmult, inject_Z. simpl.
  by rewrite Z.mul_0_r.
Qed.

(** the weights of a pixel for the eraser strength 1: they add up to one *)
Lemma dab_weights_paint (opa : Q) :
  (0 <= opa)%Q → (opa <= 1)%Q →
  0 ≤ (dab_weights opa (of_int 1)).1 ∧ 0 ≤ (dab_weights opa (of_int 1)).2 ∧
  (dab_weights opa (of_int 1)).1 + (dab_weights opa (of_int 1)).2 = 2 ^ 15.
Proof.
  intros Ho0 Ho1. unfold dab_weights. cbn [fst snd].
  destruct (to_uint32_range (of_int (1 ≪ 15) * opa)%flt (2 ^ 15)) as [_ Ha0];
    [done|simpl; change (inject_Z (1 ≪ 15)) with 32768%Q; nra
    |simpl; change (inject_Z (1 ≪ 15)) with 32768%Q;
     change (inject_Z (2 ^ 15)) with 32768%Q; nra|].
  set (opa_a0 := to_uint32 (of_int (1 ≪ 15) * opa)%flt) in *.
  unfold to_uint32 at 1 2. rewrite to_int_mul_1.
  unfold sub32. change (1 ≪ 15) with (2 ^ 15).
  rewrite !uint32_small by lia. lia.
Qed.

(** the weights of a pixel for the eraser strength 0: nothing is added *)
Lemma dab_weights_erase (opa : Q) :
  (0 <= opa)%Q → (opa <= 1)%Q →
  (dab_weights opa (of_int 0)).1 = 0 ∧
  0 ≤ (dab_weights opa (of_int 0)).2 ≤ 2 ^ 15.
Proof.
  intros Ho0 Ho1. unfold dab_weights. cbn [fst snd].
  destruct (to_uint32_range (of_int (1 ≪ 15) * opa)%flt (2 ^ 15)) as [_ Ha0];
    [done|simpl; change (inject_Z (1 ≪ 15)) with 32768%Q; nra
    |simpl; change (inject_Z (1 ≪ 15)) with 32768%Q;
     change (inject_Z (2 ^ 15)) with 32768%Q; nra|].
  set (opa_a0 := to_uint32 (of_int (1 ≪ 15) * opa)%flt) in *.
  unfold to_uint32 at 1. rewrite to_int_mul_0.
  unfold sub32. change (1 ≪ 15) with (2 ^ 15).
  rewrite !uint32_small by lia. split; [done|lia].
Qed.

(** X14.  With exact arithmetic, for colours, opacity and hardness in
    their ranges and the default eraser strength 1: [draw_dab] never
    makes a pixel more transparent.  Whatever its outcome, every tile
    buffer is still there, its pixels are premultiplied, and the alpha of
    each pixel is at least what it was before the call. *)
Theorem painting_never_lowers_alpha
    (x y radius color_r color_g color_b opaque hardness : Q) (s : State) :
  unit_range color_r = true → unit_range color_g = true →
  unit_range color_b = true → unit_range opaque = true →
  unit_range hardness = true → (hardness =? of_int 0)%flt = false →
  premultiplied_heap (heap s) →
  heap_pixels_related alpha_not_below (heap s)
    (heap (draw_dab x y radius color_r color_g color_b
             opaque hardness (of_int 1) s).2).
Proof.
  intros Hr Hg Hb Ho Hh Hh0 Hheap.
  apply draw_dab_heap_related; [| | |done..].
  - intros px. unfold alpha_not_below. lia.
  - intros px1 px2 px3. unfold alpha_not_below. lia.
  - intros rr [[[r g] b] a] Hrr0 Hrr1 Hpx.
    apply unit_range_Q in Hr as [Hr0 Hr1], Hg as [Hg0 Hg1], Hb as [Hb0 Hb1],
      Ho as [Ho0 Ho1], Hh as [Hh1 Hh2].
    assert (Hhpos : (0 < hardness)%Q).
    { apply Qle_lt_or_eq in Hh1 as [?|Heq]; [done|].
      simpl in Hh0. symmetry in Heq. apply Qeq_bool_iff in Heq.
      change (inject_Z 0) with 0%Q in Hh0. congruence. }
    destruct (falloff_unit_range opaque hardness rr) as [Hf0 Hf1]; [done..|].
    destruct (dab_weights_paint (falloff opaque hardness rr) Hf0 Hf1)
      as (Ha & Hbw & Hab).
    destruct (over_pixel_premultiplied
                (dab_weights (falloff opaque hardness rr) (of_int 1)).1
                (dab_weights (falloff opaque hardness rr) (of_int 1)).2
                (to_uint32 (color_r * of_int (1 ≪ 15))%flt)
                (to_uint32 (color_g * of_int (1 ≪ 15))%flt)
                (to_uint32 (color_b * of_int (1 ≪ 15))%flt) r g b a) as [-> _];
      [lia|lia|lia|by apply color_fixed_point_range..|done|].
    apply premultiplied_pixel_spec in Hpx as (_ & _ & _ & Hal).
    unfold alpha_not_below. cbn [snd].
    set (oa := (dab_weights (falloff opaque hardness rr) (of_int 1)).1) in *.
    set (ob := (dab_weights (falloff opaque hardness rr) (of_int 1)).2) in *.
    assert (H1 : a - oa ≤ ob * a / 2 ^ 15).
    { apply Z.div_le_lower_bound; [lia|]. nia. }
    lia.
Qed.

(** X15.  With exact arithmetic, for colours, opacity and hardness in
    their ranges and the eraser strength 0: [draw_dab] only erases.
    Whatever its outcome, every tile buffer is still there, its pixels are
    premultiplied, and no channel of any pixel (red, green, blue, alpha)
    is above what it was before the call. *)
Theorem erasing_never_raises_a_channel
    (x y radius color_r color_g color_b opaque hardness : Q) (s : State) :
  unit_range color_r = true → unit_range color_g = true →
  unit_range color_b = true → unit_range opaque = true →
  unit_range hardness = true → (hardness =? of_int 0)%flt = false →
  premultiplied_heap (heap s) →
  heap_pixels_related no_channel_above (heap s)
    (heap (draw_dab x y radius color_r color_g color_b
             opaque hardness (of_int 0) s).2).
Proof.
  intros Hr Hg Hb Ho Hh Hh0 Hheap.
  apply draw_dab_heap_related; [| | |done..].
  - intros px. unfold no_channel_above. lia.
  - intros px1 px2 px3 (H1 & H2 & H3 & H4) (H5 & H6 & H7 & H8).
    unfold no_channel_above. lia.
  - intros rr [[[r g] b] a] Hrr0 Hrr1 Hpx.
    apply unit_range_Q in Hr as [Hr0 Hr1], Hg as [Hg0 Hg1], Hb as [Hb0 Hb1],
      Ho as [Ho0 Ho1], Hh as [Hh1 Hh2].
    assert (Hhpos : (0 < hardness)%Q).
    { apply Qle_lt_or_eq in Hh1 as [?|Heq]; [done|].
      simpl in Hh0. symmetry in Heq. apply Qeq_bool_iff in Heq.
      change (inject_Z 0) with 0%Q in Hh0. congruence. }
    destruct (falloff_unit_range opaque hardness rr) as [Hf0 Hf1]; [done..|].
    destruct (dab_weights_erase (falloff opaque hardness rr) Hf0 Hf1)
      as (Ha & Hbw).
    destruct (over_pixel_premultiplied
                (dab_weights (falloff opaque hardness rr) (of_int 0)).1
                (dab_weights (falloff opaque hardness rr) (of_int 0)).2
                (to_uint32 (color_r * of_int (1 ≪ 15))%flt)
                (to_uint32 (color_g * of_int (1 ≪ 15))%flt)
                (to_uint32 (color_b * of_int (1 ≪ 15))%flt) r g b a) as [-> _];
      [lia|lia|lia|by apply color_fixed_point_range..|done|].
    apply premultiplied_pixel_spec in Hpx as (Hpr & Hpg & Hpb & Hal).
    rewrite Ha.
    set (ob := (dab_weights (falloff opaque hardness rr) (of_int 0)).2) in *.
    unfold no_channel_above. cbn [fst snd]. rewrite !Z.mul_0_l, !Z.add_0_l.
    assert (Hdiv : ∀ c, 0 ≤ c → ob * c / 2 ^ 15 ≤ c).
    { intros c Hc. apply Z.div_le_upper_bound; [lia|]. nia. }
    repeat split; apply Hdiv; lia.
Qed.

(** ** Flattening, byte by byte: proofs *)

Lemma iterate_indexed {A : Type} (I : Z → A → Prop) (body : Z → A → option A)
    (n : nat) (i : Z) (acc : A) :
  (∀ j a, i ≤ j < i + Z.of_nat n → I j a → ∃ a', body j a = Some a' ∧ I (j + 1) a') →
  I i acc → ∃ a', iterate n i body acc = Some a' ∧ I (i + Z.of_nat n) a'.
Proof.
  revert i acc. induction n as [|n IH]; intros i acc Hbody HI.
  - exists acc. split; [done|]. by replace (i + Z.of_nat 0) with i by lia.
  - destruct (Hbody i acc) as (a1 & Hb & HI1); [lia|done|].
    destruct (IH (i + 1) a1) as (a' & Hrun & HI'); [|done|].
    { intros j a Hj. apply Hbody. lia. }
    exists a'. split.
    + cbn [iterate]. rewrite Hb. exact Hrun.
    + by replace (i + Z.of_nat (S n)) with (i + 1 + Z.of_nat n) by lia.
Qed.

(** [composite_tile_over_rgb8] as a function on the destination memory,
    for rows that do not overlap: it succeeds, each byte of a pixel is
    what the loop body computes from the source pixel and the byte that
    was there before the call, and the bytes outside the 64 rows of 192
    bytes (the padding between rows, and what lies behind the last row)
    are as they were. *)
Lemma flatten_pointwise (src dst : list Z) (stride0 : Z) :
  Z.of_nat (length src) = TILE_SIZE * TILE_SIZE * 4 →
  3 * TILE_SIZE ≤ stride0 →
  (TILE_SIZE - 1) * stride0 + 3 * TILE_SIZE ≤ Z.of_nat (length dst) →
  ∃ dst',
    composite_tile_over_rgb8 src stride0 dst = Some dst' ∧
    length dst' = length dst ∧
    (∀ y x ch, 0 ≤ y < TILE_SIZE → 0 ≤ x < TILE_SIZE → 0 ≤ ch < 3 →
       index dst' (dst_offset stride0 y x ch) = flattened_byte src stride0 dst y x ch) ∧
    (∀ i, (∀ y, 0 ≤ y < TILE_SIZE →
                ¬ (y * stride0 ≤ i < y * stride0 + 3 * TILE_SIZE)) →
          index dst' i = index dst i).
Proof.
  unfold TILE_SIZE. intros Hsrc Hstride Hroom.
  assert (Hrow : ∀ y, 0 ≤ y < 64 → 0 ≤ y * stride0 ≤ 63 * stride0) by (intros; nia).
  assert (Hsep : ∀ y y', 0 ≤ y → y < y' → y * stride0 + stride0 ≤ y' * stride0)
    by (intros; nia).
  set (Inv := λ (D : Z → Z → bool) (d : list Z),
    length d = length dst ∧
    (∀ y x ch, 0 ≤ y < 64 → 0 ≤ x < 64 → 0 ≤ ch < 3 →
       index d (dst_offset stride0 y x ch) =
         if D y x then flattened_byte src stride0 dst y x ch
         else index dst (dst_offset stride0 y x ch)) ∧
    (∀ i, (∀ y, 0 ≤ y < 64 → ¬ (y * stride0 ≤ i < y * stride0 + 3 * 64)) →
          index d i = index dst i)).
  assert (Hext : ∀ D D' d,
            (∀ y x, 0 ≤ y < 64 → 0 ≤ x < 64 → D y x = D' y x) →
            Inv D d → Inv D' d).
  { intros D D' d HD (Hl & Hpx & Hout). split; [done|]. split; [|done].
    intros y x ch Hy Hx Hch. rewrite <-HD by done. by apply Hpx. }
  assert (Hstep : ∀ D y x d, 0 ≤ y < 64 → 0 ≤ x < 64 → D y x = false → Inv D d →
            ∃ d', composite_pixel src ((y * 64 + x) * 4) (y * stride0 + x * 3) d
                    = Some d' ∧
                  Inv (λ y' x', D y' x' || ((y' =? y) && (x' =? x))) d').
  { intros D y x d Hy Hx HD (Hl & Hpx & Hout).
    pose proof (Hrow y Hy) as Hry.
    destruct (composite_pixel_Some src d ((y * 64 + x) * 4) (y * stride0 + x * 3))
      as (r & g & b & a & d0 & d1 & d2 & Er & Eg & Eb & Ea & E0 & E1 & E2 & ->);
      [lia..|].
    eexists. split; [done|].
    pose proof (Hpx y x 0 Hy Hx) as P0. pose proof (Hpx y x 1 Hy Hx) as P1.
    pose proof (Hpx y x 2 Hy Hx) as P2.
    rewrite HD in P0, P1, P2. unfold dst_offset in P0, P1, P2.
    rewrite E0 in P0 by lia. rewrite E1 in P1 by lia. rewrite E2 in P2 by lia.
    split; [by rewrite !length_insert|]. split.
    - intros y' x' ch' Hy' Hx' Hch'.
      destruct (Z.eqb_spec y' y) as [->|Hney].
      + destruct (Z.eqb_spec x' x) as [->|Hnex].
        * rewrite orb_true_r. unfold flattened_byte, dst_offset, TILE_SIZE.
          assert (ch' = 0 ∨ ch' = 1 ∨ ch' = 2) as [->|[->| ->]] by lia.
          -- rewrite !index_insert_ne by lia.
             rewrite index_insert_eq by lia.
             rewrite Er, Ea, <-P0 by lia. done.
          -- rewrite (index_insert_ne _ (y * stride0 + x * 3 + 1)) by lia.
             rewrite index_insert_eq by (rewrite ?length_insert; lia).
             rewrite Eg, Ea, <-P1 by lia. done.
          -- rewrite index_insert_eq by (rewrite ?length_insert; lia).
             rewrite Eb, Ea, <-P2 by lia. done.
        * rewrite andb_false_r, orb_false_r. unfold dst_offset.
          rewrite !index_insert_ne by lia. by apply Hpx.
      + rewrite orb_false_r. unfold dst_offset.
        assert (y' * stride0 + stride0 ≤ y * stride0 ∨
                y * stride0 + stride0 ≤ y' * stride0) as Hs.
        { destruct (Z.lt_ge_cases y' y); [left|right]; apply Hsep; lia. }
        rewrite !index_insert_ne by lia. by apply Hpx.
    - intros i Hi. pose proof (Hi y Hy) as Hiy.
      rewrite !index_insert_ne by lia. by apply Hout. }
  set (Dout := λ j y x : Z, y <? j).
  set (Din := λ j i y x : Z, (y <? j) || ((y =? j) && (x <? i))).
  unfold composite_tile_over_rgb8, TILE_SIZE.
  destruct (iterate_indexed (λ j, Inv (Dout j))
              (λ y d, iterate (Z.to_nat 64) 0
                        (λ x d, composite_pixel src ((y * 64 + x) * 4)
                                  (y * stride0 + x * 3) d) d)
              (Z.to_nat 64) 0 dst) as (dst' & Hrun & Hl & Hpx & Hout).
  - intros y d Hy HI.
    destruct (iterate_indexed (λ i, Inv (Din y i))
                (λ x d, composite_pixel src ((y * 64 + x) * 4)
                          (y * stride0 + x * 3) d)
                (Z.to_nat 64) 0 d) as (d' & Hrow' & HI').
    + intros x d1 Hx HI1.
      destruct (Hstep (Din y x) y x d1) as (d2 & Hpix & HI2); [lia|lia| |done|].
      { unfold Din. apply eq_true_iff_eq.
        rewrite ?orb_true_iff, ?andb_true_iff, ?Z.leb_le, ?Z.ltb_lt, ?Z.eqb_eq. lia. }
      exists d2. split; [done|]. eapply Hext; [|exact HI2].
      intros y' x' Hy' Hx'. cbv beta. unfold Din. apply eq_true_iff_eq.
      rewrite ?orb_true_iff, ?andb_true_iff, ?Z.leb_le, ?Z.ltb_lt, ?Z.eqb_eq. lia.
    + apply (Hext (Dout y)); [|done]. intros y' x' Hy' Hx'.
      unfold Din, Dout. apply eq_true_iff_eq.
      rewrite ?orb_true_iff, ?andb_true_iff, ?Z.leb_le, ?Z.ltb_lt, ?Z.eqb_eq. lia.
    + exists d'. split; [done|]. apply (Hext (Din y (0 + Z.of_nat (Z.to_nat 64)))); [|done].
      intros y' x' Hy' Hx'. unfold Din, Dout. apply eq_true_iff_eq.
      rewrite ?orb_true_iff, ?andb_true_iff, ?Z.leb_le, ?Z.ltb_lt, ?Z.eqb_eq. lia.
  - split; [done|]. split; [|done]. intros y x ch Hy Hx Hch.
    replace (Dout 0 y x) with false; [done|].
    unfold Dout. symmetry. apply Z.ltb_ge. lia.
  - exists dst'. split; [exact Hrun|]. split; [done|]. split; [|done].
    intros y x ch Hy Hx Hch. rewrite Hpx by done.
    replace (Dout (0 + Z.of_nat (Z.to_nat 64)) y x) with true; [done|].
    unfold Dout. symmetry. apply Z.ltb_lt. lia.
Qed.

(** one channel of the flattening of a premultiplied pixel onto a byte:
    no wrap-around, and the result is a byte *)
Lemma flatten_channel_exact (a c d : Z) :
  0 ≤ c ≤ a → a ≤ 2 ^ 15 → 0 ≤ d < 256 →
  flatten_channel a c d = (c * 255 + (2 ^ 15 - a) * d) / 2 ^ 15 ∧
  0 ≤ (c * 255 + (2 ^ 15 - a) * d) / 2 ^ 15 ≤ 255.
Proof.
  intros Hc Ha Hd. unfold flatten_channel, sub32, mul32, add32.
  change (1 ≪ 15) with (2 ^ 15).
  assert (H1 : 0 ≤ (2 ^ 15 - a) * d ≤ (2 ^ 15 - a) * 255) by nia.
  assert (H2 : 0 ≤ c * 255 + (2 ^ 15 - a) * d ≤ 2 ^ 15 * 255) by nia.
  assert (H3 : 0 ≤ (c * 255 + (2 ^ 15 - a) * d) / 2 ^ 15 ≤ 255).
  { split; [apply Z.div_pos; lia|].
    apply Z.div_le_upper_bound; lia. }
  rewrite (uint32_small (2 ^ 15 - a)) by lia.
  rewrite (uint32_small (c * 255)), (uint32_small ((2 ^ 15 - a) * d)) by lia.
  rewrite uint32_small by lia.
  split; [|done]. unfold uint8, wrap. apply Z.mod_small. lia.
Qed.

Lemma premultiplied_tile_channel (src : list Z) (y x ch : Z) :
  premultiplied_tile src = true →
  0 ≤ y < TILE_SIZE → 0 ≤ x < TILE_SIZE → 0 ≤ ch < 3 →
  ∃ c a, index src ((y * TILE_SIZE + x) * 4 + ch) = Some c ∧
         index src ((y * TILE_SIZE + x) * 4 + 3) = Some a ∧
         0 ≤ c ≤ a ∧ a ≤ 2 ^ 15.
Proof.
  intros [_ Hpx]%premultiplied_tile_spec Hy Hx Hch.
  destruct (Hpx (y * TILE_SIZE + x)) as ([[[r g] b] a] & Hat & Hok);
    [unfold TILE_SIZE in *; lia|].
  apply premultiplied_pixel_spec in Hok as (Hr & Hg & Hb & Ha).
  apply pixel_at_inv in Hat as (E0 & E1 & E2 & E3).
  replace ((y * TILE_SIZE + x) * 4 + 3) with (4 * (y * TILE_SIZE + x) + 3) by lia.
  replace ((y * TILE_SIZE + x) * 4 + ch) with (4 * (y * TILE_SIZE + x) + ch) by lia.
  assert (ch = 0 ∨ ch = 1 ∨ ch = 2) as [->|[->| ->]] by lia;
    eexists _, a; (split; [eassumption|]); (split; [done|]); lia.
Qed.

Lemma faint_pixel_spec (r g b a : Z) :
  faint_pixel (r, g, b, a) = true ↔
  a = 0 ∧ 0 ≤ r ∧ r * 255 < 2 ^ 15 ∧ 0 ≤ g ∧ g * 255 < 2 ^ 15 ∧
  0 ≤ b ∧ b * 255 < 2 ^ 15.
Proof.
  unfold faint_pixel.
  rewrite !andb_true_iff, !Z.leb_le, !Z.ltb_lt, Z.eqb_eq. tauto.
Qed.

(** C7.  Flattening leaves the destination as it was wherever the source
    is transparent.  A pixel is without effect when its alpha is 0 and
    its colour words are at most 128 ([c * 255 < 2^15]); in the tile data
    model (premultiplied pixels: no colour above alpha) every pixel with
    alpha 0 is such a pixel.
    - For every source tile that has only such pixels, and every
      destination of bytes that holds the 64 rows, [stride0] bytes apart,
      [composite_tile_over_rgb8] returns the destination unchanged.
    - For every source tile, whatever its other pixels hold, and rows
      that do not overlap, the three destination bytes of each such
      pixel are unchanged. *)
Theorem flatten_transparent_tile_is_identity (src dst : list Z) (stride0 : Z) :
  rgb8_buffer dst = true →
  (TILE_SIZE - 1) * stride0 + 3 * TILE_SIZE ≤ Z.of_nat (length dst) →
  (∀ r g b a, premultiplied_pixel (r, g, b, a) = true → a = 0 →
              faint_pixel (r, g, b, a) = true) ∧
  (0 ≤ stride0 →
   (∀ k, 0 ≤ k < TILE_SIZE * TILE_SIZE →
         ∃ px, pixel_at src k = Some px ∧ faint_pixel px = true) →
   composite_tile_over_rgb8 src stride0 dst = Some dst) ∧
  (Z.of_nat (length src) = TILE_SIZE * TILE_SIZE * 4 →
   3 * TILE_SIZE ≤ stride0 →
   ∃ dst',
     composite_tile_over_rgb8 src stride0 dst = Some dst' ∧
     ∀ y x px, 0 ≤ y < TILE_SIZE → 0 ≤ x < TILE_SIZE →
       pixel_at src (y * TILE_SIZE + x) = Some px → faint_pixel px = true →
       ∀ ch, 0 ≤ ch < 3 →
         index dst' (dst_offset stride0 y x ch) = index dst (dst_offset stride0 y x ch)).
Proof.
  intros Hdst Hlen. split; [|split].
  - intros r g b a Hpx ->. apply premultiplied_pixel_spec in Hpx.
    apply faint_pixel_spec. lia.
  - intros Hstride Hfaint. unfold composite_tile_over_rgb8.
    apply iterate_fixed. intros y Hy.
    apply iterate_fixed. intros x Hx.
    change (Z.of_nat (Z.to_nat TILE_SIZE)) with TILE_SIZE in *.
    assert (Hk : 0 ≤ y * TILE_SIZE + x < TILE_SIZE * TILE_SIZE)
      by (unfold TILE_SIZE in *; lia).
    replace ((y * TILE_SIZE + x) * 4) with (4 * (y * TILE_SIZE + x)) by lia.
    apply composite_pixel_transparent; [|done| |].
    + destruct (Hfaint _ Hk) as ([[[r g] b] a] & Hat & Hok).
      apply faint_pixel_spec in Hok as (-> & Hok).
      by exists r, g, b.
    + unfold TILE_SIZE in *. nia.
    + unfold TILE_SIZE in *. nia.
  - intros Hsrc Hstride.
    destruct (flatten_pointwise src dst stride0 Hsrc Hstride Hlen)
      as (dst' & Hrun & _ & Hpx & _).
    exists dst'. split; [done|].
    intros y x [[[r g] b] a] Hy Hx Hat Hok ch Hch.
    rewrite (Hpx y x ch Hy Hx Hch). unfold flattened_byte.
    apply faint_pixel_spec in Hok as (-> & Hr0 & Hr & Hg0 & Hg & Hb0 & Hb).
    apply pixel_at_inv in Hat as (E0 & E1 & E2 & E3).
    replace ((y * TILE_SIZE + x) * 4 + 3) with (4 * (y * TILE_SIZE + x) + 3) by lia.
    rewrite E3.
    destruct (index_Some dst (dst_offset stride0 y x ch)) as [d Hd].
    { unfold dst_offset, TILE_SIZE in *. nia. }
    pose proof (rgb8_buffer_index _ _ _ Hdst Hd) as Hd256.
    rewrite Hd.
    assert (Hc : ∃ c, index src ((y * TILE_SIZE + x) * 4 + ch) = Some c ∧
                      0 ≤ c ∧ c * 255 < 2 ^ 15).
    { assert (ch = 0 ∨ ch = 1 ∨ ch = 2) as [->|[->| ->]] by lia;
        replace ((y * TILE_SIZE + x) * 4) with (4 * (y * TILE_SIZE + x)) by lia;
        eauto. }
    destruct Hc as (c & -> & Hc0 & Hc). simpl. f_equal.
    by apply flatten_channel_transparent.
Qed.

(** X16.  Flattening a tile of premultiplied pixels onto a memory of
    bytes whose rows do not overlap: [composite_tile_over_rgb8] stays
    inside both buffers, and each colour byte of each of the 64 x 64
    pixels becomes [(c * 255 + (2^15 - a) * d) / 2^15] for the source
    colour [c], the source alpha [a] and the byte [d] that was there, with
    no wrap-around in the 32-bit arithmetic or in the conversion to a
    byte (the result is at most 255).  The bytes between the rows and
    behind the last row are as they were. *)
Theorem flatten_blends_each_byte_without_overflow (src dst : list Z) (stride0 : Z) :
  premultiplied_tile src = true →
  rgb8_buffer dst = true →
  3 * TILE_SIZE ≤ stride0 →
  (TILE_SIZE - 1) * stride0 + 3 * TILE_SIZE ≤ Z.of_nat (length dst) →
  ∃ dst',
    composite_tile_over_rgb8 src stride0 dst = Some dst' ∧
    length dst' = length dst ∧
    (∀ y x ch, 0 ≤ y < TILE_SIZE → 0 ≤ x < TILE_SIZE → 0 ≤ ch < 3 →
       ∃ c a d,
         index src ((y * TILE_SIZE + x) * 4 + ch) = Some c ∧
         index src ((y * TILE_SIZE + x) * 4 + 3) = Some a ∧
         index dst (dst_offset stride0 y x ch) = Some d ∧
         index dst' (dst_offset stride0 y x ch)
           = Some ((c * 255 + (2 ^ 15 - a) * d) / 2 ^ 15) ∧
         0 ≤ (c * 255 + (2 ^ 15 - a) * d) / 2 ^ 15 ≤ 255) ∧
    (∀ i, (∀ y, 0 ≤ y < TILE_SIZE →
                ¬ (y * stride0 ≤ i < y * stride0 + 3 * TILE_SIZE)) →
          index dst' i = index dst i).
Proof.
  intros Hsrc Hdst Hstride Hroom.
  pose proof (proj1 (proj1 (premultiplied_tile_spec src) Hsrc)) as Hlen.
  destruct (flatten_pointwise src dst stride0 Hlen Hstride Hroom)
    as (dst' & Hrun & Hl & Hpx & Hout).
  exists dst'. split; [done|]. split; [done|]. split; [|done].
  intros y x ch Hy Hx Hch.
  destruct (premultiplied_tile_channel src y x ch Hsrc Hy Hx Hch)
    as (c & a & Ec & Ea & Hc & Ha).
  destruct (index_Some dst (dst_offset stride0 y x ch)) as [d Ed].
  { unfold dst_offset, TILE_SIZE in *. nia. }
  pose proof (rgb8_buffer_index dst _ d Hdst Ed) as Hd.
  destruct (flatten_channel_exact a c d Hc Ha Hd) as [Hfl Hrange].
  exists c, a, d. do 3 (split; [done|]). split; [|done].
  rewrite Hpx by done. unfold flattened_byte. rewrite Ec, Ea, Ed. simpl.
  by rewrite Hfl.
Qed.

Lemma opaque_tile_spec (src : list Z) (k : Z) :
  opaque_tile src = true → 0 ≤ k < TILE_SIZE * TILE_SIZE →
  index src (4 * k + 3) = Some (2 ^ 15).
Proof.
  unfold opaque_tile. rewrite forallb_forall. intros Hall Hk.
  assert (Hin : In k (seqZ 0 (TILE_SIZE * TILE_SIZE))).
  { apply list_elem_of_In, elem_of_seqZ. lia. }
  apply Hall in Hin. destruct (index src (4 * k + 3)) as [a|]; [|done].
  simpl in Hin. apply Z.eqb_eq in Hin. by subst.
Qed.

(** X17.  Flattening a fully opaque tile of premultiplied pixels
    overwrites the destination: each colour byte of each pixel becomes
    [c * 255 / 2^15] for the source colour [c], whatever byte the
    destination held there. *)
Theorem flatten_opaque_tile_overwrites (src dst : list Z) (stride0 : Z) :
  premultiplied_tile src = true →
  opaque_tile src = true →
  rgb8_buffer dst = true →
  3 * TILE_SIZE ≤ stride0 →
  (TILE_SIZE - 1) * stride0 + 3 * TILE_SIZE ≤ Z.of_nat (length dst) →
  ∃ dst',
    composite_tile_over_rgb8 src stride0 dst = Some dst' ∧
    ∀ y x ch, 0 ≤ y < TILE_SIZE → 0 ≤ x < TILE_SIZE → 0 ≤ ch < 3 →
      ∃ c, index src ((y * TILE_SIZE + x) * 4 + ch) = Some c ∧
           index dst' (dst_offset stride0 y x ch) = Some (c * 255 / 2 ^ 15).
Proof.
  intros Hsrc Hop Hdst Hstride Hroom.
  pose proof (proj1 (proj1 (premultiplied_tile_spec src) Hsrc)) as Hlen.
  destruct (flatten_pointwise src dst stride0 Hlen Hstride Hroom)
    as (dst' & Hrun & Hl & Hpx & Hout).
  exists dst'. split; [done|].
  intros y x ch Hy Hx Hch.
  destruct (premultiplied_tile_channel src y x ch Hsrc Hy Hx Hch)
    as (c & a & Ec & Ea & Hc & Ha).
  pose proof (opaque_tile_spec src (y * TILE_SIZE + x) Hop) as Eo.
  replace (4 * (y * TILE_SIZE + x) + 3) with ((y * TILE_SIZE + x) * 4 + 3) in Eo by lia.
  rewrite Eo in Ea by (unfold TILE_SIZE in *; lia). injection Ea as <-.
  destruct (index_Some dst (dst_offset stride0 y x ch)) as [d Ed].
  { unfold dst_offset, TILE_SIZE in *. nia. }
  pose proof (rgb8_buffer_index dst _ d Hdst Ed) as Hd.
  destruct (flatten_channel_exact (2 ^ 15) c d Hc ltac:(lia) Hd) as [Hfl _].
  exists c. split; [done|].
  rewrite Hpx by done. unfold flattened_byte.
  rewrite Ec, Eo by (unfold TILE_SIZE in *; lia). rewrite Ed. simpl.
  rewrite Hfl. f_equal. f_equal. lia.
Qed.

(** ** The colour under a probe: proofs *)

Lemma for_loop_acc {A R : Type} (I : A → State → Prop)
    (body : Z → A → M (A + R)) (n : nat) (i : Z) (acc acc' : A) (s s' : State) :
  (∀ j a s0 a' s1, i ≤ j < i + Z.of_nat n → I a s0 →
     body j a s0 = (Ok (inl a'), s1) → I a' s1) →
  I acc s →
  for_loop n i body acc s = (Ok (inl acc'), s') → I acc' s'.
Proof.
  revert i acc s. induction n as [|n IH]; intros i acc s Hbody HI.
  - simpl. by intros [= <- <-].
  - simpl. unfold mbind, M_bind.
    destruct (body i acc s) as [[[a1|r]| |] s1] eqn:Hb; try done.
    apply IH.
    + intros j a s0 a' s2 Hj. apply Hbody. lia.
    + eapply Hbody; [|exact HI|exact Hb]. lia.
Qed.

Lemma for_range_acc {A R : Type} (I : A → State → Prop)
    (body : Z → A → M (A + R)) (lo hi : Z) (acc acc' : A) (s s' : State) :
  (∀ j a s0 a' s1, lo ≤ j ≤ hi → I a s0 →
     body j a s0 = (Ok (inl a'), s1) → I a' s1) →
  I acc s →
  for_range lo hi body acc s = (Ok (inl acc'), s') → I acc' s'.
Proof.
  intros Hbody. unfold for_range. apply for_loop_acc.
  intros j a s0 a' s1 Hj. apply Hbody. lia.
Qed.

Lemma load_Ok_inv (p : ptr) (i v : Z) (s s' : State) :
  load p i s = (Ok v, s') →
  s' = s ∧ ∃ buf, heap s !! p = Some buf ∧ index buf i = Some v.
Proof.
  unfold load, index. destruct (heap s !! p) as [buf|]; [|done].
  destruct (0 <=? i); [|done].
  destruct (buf !! Z.to_nat i) as [w|] eqn:Hw; [|done].
  intros [= <- <-]. split; [done|]. by exists buf.
Qed.

Section GetColorLoops.
Context {F : Type} {FO : FloatOps F}.

Lemma get_color_eq (x y radius : F) :
  get_color x y radius =
    (assert (lit_0_1 <=? radius)%flt;;
     res ← get_color_sums x y radius;
     match res with
     | inr _ => ret None
     | inl acc => get_color_result acc
     end).
Proof. reflexivity. Qed.

(** one step of the pixel loop of [get_color], when it does not fault:
    the state is unchanged, and the sums either are unchanged (the pixel
    is outside the disc) or have taken in the pixel read from the buffer *)
Lemma get_color_pixel_inv (p : ptr) (xc yc one_over_radius2 : F) (yp xp : Z)
    (acc acc' : sums) (s s' : State) :
  get_color_pixel p xc one_over_radius2
    ((of_int yp + lit_0_5 - yc) * (of_int yp + lit_0_5 - yc))%flt yp xp acc s
    = (Ok acc', s') →
  s' = s ∧
  (acc' = acc ∨
   ∃ buf r g b a,
     (dab_rr xc yc one_over_radius2 xp yp <=? of_int 1)%flt = true ∧
     heap s !! p = Some buf ∧
     index buf (pixel_idx xp yp + 0) = Some r ∧
     index buf (pixel_idx xp yp + 1) = Some g ∧
     index buf (pixel_idx xp yp + 2) = Some b ∧
     index buf (pixel_idx xp yp + 3) = Some a ∧
     let opa := falloff (of_int 1) lit_0_5 (dab_rr xc yc one_over_radius2 xp yp) in
     acc' = {| sum_weight := (sum_weight acc + opa)%flt;
               sum_r := (sum_r acc + opa * of_int r / of_int (1 ≪ 15))%flt;
               sum_g := (sum_g acc + opa * of_int g / of_int (1 ≪ 15))%flt;
               sum_b := (sum_b acc + opa * of_int b / of_int (1 ≪ 15))%flt;
               sum_a := (sum_a acc + opa * of_int a / of_int (1 ≪ 15))%flt |}).
Proof.
  unfold get_color_pixel, dab_rr. cbv zeta.
  destruct (_ <=? _)%flt eqn:Hrr; [|intros [= <- <-]; split; [done|by left]].
  unfold mbind, M_bind.
  destruct (load p (pixel_idx xp yp + 0) s) as [[r| |] s1] eqn:L0; try done.
  apply load_Ok_inv in L0 as (-> & buf & Hp & E0).
  destruct (load p (pixel_idx xp yp + 1) s) as [[g| |] s1] eqn:L1; try done.
  apply load_Ok_inv in L1 as (-> & buf1 & Hp1 & E1).
  destruct (load p (pixel_idx xp yp + 2) s) as [[b| |] s1] eqn:L2; try done.
  apply load_Ok_inv in L2 as (-> & buf2 & Hp2 & E2).
  destruct (load p (pixel_idx xp yp + 3) s) as [[a| |] s1] eqn:L3; try done.
  apply load_Ok_inv in L3 as (-> & buf3 & Hp3 & E3).
  assert (buf1 = buf) as -> by congruence.
  assert (buf2 = buf) as -> by congruence.
  assert (buf3 = buf) as -> by congruence.
  intros [= <- <-]. split; [done|]. right.
  exists buf, r, g, b, a. do 6 (split; [done|]). done.
Qed.
End GetColorLoops.

(** With exact arithmetic: a property [J] of the sums that holds for the
    zeroed sums and is kept when a pixel that satisfies [P] is taken in
    with a weight in [[0, 1]] holds for the sums that the tile loops of
    [get_color] return over a heap of such pixels; the loops leave the
    heap as it was. *)
Lemma get_color_sums_invariant (J : @sums Q → Prop) (P : Z * Z * Z * Z → Prop)
    (x y radius : Q) (acc : @sums Q) (s s1 : State) :
  heap_pixels P (heap s) →
  J {| sum_r := of_int 0; sum_g := of_int 0; sum_b := of_int 0;
       sum_a := of_int 0; sum_weight := of_int 0 |} →
  (∀ acc0 opa r g b a,
     J acc0 → (0 <= opa)%Q → (opa <= 1)%Q → P (r, g, b, a) →
     J {| sum_weight := (sum_weight acc0 + opa)%flt;
          sum_r := (sum_r acc0 + opa * of_int r / of_int (1 ≪ 15))%flt;
          sum_g := (sum_g acc0 + opa * of_int g / of_int (1 ≪ 15))%flt;
          sum_b := (sum_b acc0 + opa * of_int b / of_int (1 ≪ 15))%flt;
          sum_a := (sum_a acc0 + opa * of_int a / of_int (1 ≪ 15))%flt |}) →
  get_color_sums x y radius s = (Ok (inl acc), s1) →
  J acc ∧ heap s1 = heap s.
Proof.
  intros Hheap Hzero Hstep. unfold get_color_sums. cbv zeta.
  apply (for_range_acc (λ a s', J a ∧ heap s' = heap s)); [|done].
  intros ty acc1 s2 acc1' s2' _ HI1.
  apply (for_range_acc (λ a s', J a ∧ heap s' = heap s)); [|done].
  intros tx acc2 s3 acc2' s3' _ [HJ2 Hh3].
  unfold get_color_tile, mbind, M_bind.
  destruct (get_tile_memory_frame tx ty true s3) as (res & s4 & -> & Hh4 & _).
  destruct res as [p|]; [|done].
  unfold get_color_pixels.
  pose proof (clip_lo_nonneg (x - of_int (tx * TILE_SIZE))%flt (radius + of_int 1)%flt) as Hx0.
  pose proof (clip_lo_nonneg (y - of_int (ty * TILE_SIZE))%flt (radius + of_int 1)%flt) as Hy0.
  pose proof (clip_hi_bound (x - of_int (tx * TILE_SIZE))%flt (radius + of_int 1)%flt) as Hx1.
  pose proof (clip_hi_bound (y - of_int (ty * TILE_SIZE))%flt (radius + of_int 1)%flt) as Hy1.
  apply (for_range_acc (λ a s', J a ∧ heap s' = heap s));
    [|split; [done|congruence]].
  intros yp acc3 s5 acc3' s5' Hyp HI3.
  apply (for_range_acc (λ a s', J a ∧ heap s' = heap s)); [|done].
  intros xp acc4 s6 acc4' s6' Hxp [HJ4 Hh6].
  unfold mbind, M_bind.
  destruct (get_color_pixel _ _ _ _ _ _ _ s6) as [[acc5| |] s7] eqn:Hpix; try done.
  intros [= <- <-].
  apply get_color_pixel_inv in Hpix as [-> [->|Hin]]; [done|].
  destruct Hin as (buf & r & g & b & a & Hrr & Hp & E0 & E1 & E2 & E3 & ->).
  split; [|done]. rewrite Hh6 in Hp.
  destruct (Hheap p buf Hp) as [Hlen Hpx].
  destruct (pixel_idx_tile xp yp) as [Hidx Hk]; [lia|lia|].
  destruct (Hpx _ Hk) as ([[[r' g'] b'] a'] & Hat & HP).
  apply pixel_at_inv in Hat as (E0' & E1' & E2' & E3').
  rewrite Hidx in E0, E1, E2, E3.
  assert (r' = r) as -> by congruence. assert (g' = g) as -> by congruence.
  assert (b' = b) as -> by congruence. assert (a' = a) as -> by congruence.
  set (rr := dab_rr (x - of_int (tx * TILE_SIZE))%flt (y - of_int (ty * TILE_SIZE))%flt
               (of_int 1 / (radius * radius))%flt xp yp) in *.
  assert (Hrr0 : (0 <= rr)%Q) by apply dab_rr_nonneg.
  assert (Hrr1 : (rr <= 1)%Q) by (by apply Qle_bool_iff).
  destruct (falloff_unit_range (of_int 1) lit_0_5 rr) as [Hf0 Hf1];
    [done|done|done|done|done|done|].
  by apply Hstep.
Qed.

Lemma assert_true {B : Type} (b : bool) (k : unit → M B) (s : State) :
  b = true → (assert b ≫= k) s = k tt s.
Proof. intros ->. done. Qed.

Lemma fltb_Q (a b : Q) : (a <? b)%flt = true ↔ (a < b)%Q.
Proof.
  cbn [fltb Q_FloatOps]. rewrite negb_true_iff, <-not_true_iff_false, Qle_bool_iff.
  split; [apply Qnot_le_lt|apply Qlt_not_le].
Qed.

Lemma fleb_Q (a b : Q) : (a <=? b)%flt = true ↔ (a <= b)%Q.
Proof. apply Qle_bool_iff. Qed.

Lemma sums_premultiplied_quotients (acc : @sums Q) :
  sums_premultiplied acc → (0 < sum_weight acc)%Q →
  let A := (sum_a acc / sum_weight acc)%Q in
  let R := (sum_r acc / sum_weight acc)%Q in
  let G := (sum_g acc / sum_weight acc)%Q in
  let B := (sum_b acc / sum_weight acc)%Q in
  (0 <= A)%Q ∧ (A <= 1)%Q ∧
  (0 <= R)%Q ∧ (R <= A)%Q ∧ (0 <= G)%Q ∧ (G <= A)%Q ∧ (0 <= B)%Q ∧ (B <= A)%Q.
Proof.
  intros (Hr0 & Hr1 & Hg0 & Hg1 & Hb0 & Hb1 & Ha) Hw. cbv zeta. unfold Qdiv.
  assert (Hu : (sum_weight acc * / sum_weight acc == 1)%Q) by (apply Qmult_inv_r; lra).
  assert (Hu0 : (0 < / sum_weight acc)%Q) by (by apply Qinv_lt_0_compat).
  set (u := (/ sum_weight acc)%Q) in *.
  repeat split; nra.
Qed.

Lemma unit_quotient (R A : Q) :
  (0 <= R)%Q → (R <= A)%Q → (0 < A)%Q → (0 <= R / A)%Q ∧ (R / A <= 1)%Q.
Proof.
  intros HR0 HR1 HA. unfold Qdiv.
  assert (Hv : (A * / A == 1)%Q) by (apply Qmult_inv_r; lra).
  assert (Hv0 : (0 < / A)%Q) by (by apply Qinv_lt_0_compat).
  set (v := (/ A)%Q) in *. split; nra.
Qed.

(** With exact arithmetic, for sums over premultiplied pixels with a
    positive sum of the weights: every assertion of the last part of
    [get_color] holds, and the result is the alpha sum over the weight
    sum and, when that is positive, the colour sums over the alpha sum. *)
Lemma get_color_result_Q (acc : @sums Q) (s1 : State) :
  sums_premultiplied acc → (0 < sum_weight acc)%Q →
  let A := (sum_a acc / sum_weight acc)%flt in
  let R := (sum_r acc / sum_weight acc)%flt in
  let G := (sum_g acc / sum_weight acc)%flt in
  let B := (sum_b acc / sum_weight acc)%flt in
  get_color_result acc s1 =
    (Ok (Some (if (of_int 0 <? A)%flt
               then ((R / A)%flt, (G / A)%flt, (B / A)%flt, A)
               else (of_int 0, of_int 1, of_int 0, A))), s1).
Proof.
  intros HJ Hw.
  destruct (sums_premultiplied_quotients acc HJ Hw)
    as (HA0 & HA1 & HR0 & HR1 & HG0 & HG1 & HB0 & HB1).
  cbv zeta in *. unfold get_color_result.
  rewrite assert_true by (by apply fltb_Q).
  destruct (of_int 0 <? sum_a acc / sum_weight acc)%flt eqn:HA.
  - apply fltb_Q in HA. change (of_int 0) with 0%Q in HA.
    destruct (unit_quotient _ _ HR0 HR1 HA) as [H1 H2].
    destruct (unit_quotient _ _ HG0 HG1 HA) as [H3 H4].
    destruct (unit_quotient _ _ HB0 HB1 HA) as [H5 H6].
    assert (H1001 : (1 <= lit_1_001)%Q) by (by apply Qle_bool_iff).
    cbv beta iota.
    rewrite !assert_true; [done|apply fleb_Q..];
      first [done | eapply Qle_trans; [eassumption|exact H1001]].
  - cbv beta iota.
    rewrite !assert_true by (apply fleb_Q; first [done | by apply Qle_bool_iff]).
    done.
Qed.

Lemma premultiplied_heap_pixels (hp : gmap ptr (list Z)) :
  premultiplied_heap hp → heap_pixels (λ px, premultiplied_pixel px = true) hp.
Proof. intros H p buf Hp. apply (H p buf) in Hp. by apply premultiplied_tile_spec. Qed.

Lemma inject_Z_range (c a : Z) :
  0 ≤ c ≤ a → (0 <= inject_Z c)%Q ∧ (inject_Z c <= inject_Z a)%Q.
Proof.
  intros [H0 H1]. change 0%Q with (inject_Z 0). by rewrite <-!Zle_Qle.
Qed.

Lemma sums_premultiplied_step (acc0 : @sums Q) (opa : Q) (r g b a : Z) :
  sums_premultiplied acc0 → (0 <= opa)%Q → (opa <= 1)%Q →
  premultiplied_pixel (r, g, b, a) = true →
  sums_premultiplied
    {| sum_weight := (sum_weight acc0 + opa)%flt;
       sum_r := (sum_r acc0 + opa * of_int r / of_int (1 ≪ 15))%flt;
       sum_g := (sum_g acc0 + opa * of_int g / of_int (1 ≪ 15))%flt;
       sum_b := (sum_b acc0 + opa * of_int b / of_int (1 ≪ 15))%flt;
       sum_a := (sum_a acc0 + opa * of_int a / of_int (1 ≪ 15))%flt |}.
Proof.
  intros (Hr0 & Hr1 & Hg0 & Hg1 & Hb0 & Hb1 & Ha) Ho0 Ho1
    (Hr & Hg & Hb & Hal)%premultiplied_pixel_spec.
  unfold sums_premultiplied.
  cbn [sum_r sum_g sum_b sum_a sum_weight fadd fmul fdiv of_int Q_FloatOps].
  unfold Qdiv. change (/ inject_Z (1 ≪ 15))%Q with (1 # 32768)%Q.
  pose proof (inject_Z_range r a Hr) as Hqr.
  pose proof (inject_Z_range g a Hg) as Hqg.
  pose proof (inject_Z_range b a Hb) as Hqb.
  assert (Hqa : (inject_Z a <= 32768)%Q).
  { change 32768%Q with (inject_Z (2 ^ 15)). rewrite <-Zle_Qle. lia. }
  destruct Hqr as [Hqr0 Hqr1], Hqg as [Hqg0 Hqg1], Hqb as [Hqb0 Hqb1].
  set (R := inject_Z r) in *. set (G := inject_Z g) in *.
  set (B := inject_Z b) in *. set (A := inject_Z a) in *.
  assert (H1 : (0 <= opa * R)%Q) by nra. assert (H2 : (opa * R <= opa * A)%Q) by nra.
  assert (H3 : (0 <= opa * G)%Q) by nra. assert (H4 : (opa * G <= opa * A)%Q) by nra.
  assert (H5 : (0 <= opa * B)%Q) by nra. assert (H6 : (opa * B <= opa * A)%Q) by nra.
  assert (H7 : (opa * A <= opa * 32768)%Q) by nra.
  repeat split; lra.
Qed.

Section GetColorCall.
Context {F : Type} {FO : FloatOps F}.

(** [get_color], once its tile loops have run to their end *)
Lemma get_color_after_sums (x y radius : F) (acc : sums) (s s1 : State) :
  (lit_0_1 <=? radius)%flt = true →
  get_color_sums x y radius s = (Ok (inl acc), s1) →
  get_color x y radius s = get_color_result acc s1.
Proof.
  intros Hrad Hsums. rewrite get_color_eq, assert_true by done.
  unfold mbind, M_bind. by rewrite Hsums.
Qed.
End GetColorCall.

(** X18.  With exact arithmetic, over tiles of premultiplied pixels: when
    the tile loops of [get_color] run to their end, no colour sum is
    negative or above the alpha sum and the alpha sum is not above the
    weight sum.  Then, if some pixel had a positive weight, none of the
    seven range assertions fails: [get_color] returns an alpha and three
    colour components that all lie in [[0, 1]], and [get_alpha] returns
    that alpha.  If no pixel had a positive weight, the assertion
    [sum_weight > 0.0] fails. *)
Theorem get_color_returns_a_colour_in_range (x y radius : Q) (acc : @sums Q)
    (s s1 : State) :
  premultiplied_heap (heap s) →
  (lit_0_1 <=? radius)%flt = true →
  get_color_sums x y radius s = (Ok (inl acc), s1) →
  sums_premultiplied acc ∧
  ((0 < sum_weight acc)%Q →
   ∃ r g b a,
     get_color x y radius s = (Ok (Some (r, g, b, a)), s1) ∧
     get_alpha x y radius s = (Ok (Some a), s1) ∧
     (0 <= a)%Q ∧ (a <= 1)%Q ∧ (0 <= r)%Q ∧ (r <= 1)%Q ∧
     (0 <= g)%Q ∧ (g <= 1)%Q ∧ (0 <= b)%Q ∧ (b <= 1)%Q) ∧
  ((sum_weight acc <= 0)%Q →
   get_color x y radius s = (AssertionFailed, s1)).
Proof.
  intros Hheap Hrad Hsums.
  destruct (get_color_sums_invariant sums_premultiplied
              (λ px, premultiplied_pixel px = true) x y radius acc s s1)
    as [HJ _]; [by apply premultiplied_heap_pixels| | |done|].
  { unfold sums_premultiplied. by cbn. }
  { intros acc0 opa r g b a. apply sums_premultiplied_step. }
  pose proof (get_color_after_sums x y radius acc s s1 Hrad Hsums) as Hgc.
  split; [done|]. split.
  - intros Hw.
    destruct (sums_premultiplied_quotients acc HJ Hw)
      as (HA0 & HA1 & HR0 & HR1 & HG0 & HG1 & HB0 & HB1). cbv zeta in *.
    pose proof (get_color_result_Q acc s1 HJ Hw) as Hres. cbv zeta in Hres.
    rewrite <-Hgc in Hres.
    destruct (of_int 0 <? sum_a acc / sum_weight acc)%flt eqn:HA.
    + apply fltb_Q in HA. change (of_int 0) with 0%Q in HA.
      destruct (unit_quotient _ _ HR0 HR1 HA) as [H1 H2].
      destruct (unit_quotient _ _ HG0 HG1 HA) as [H3 H4].
      destruct (unit_quotient _ _ HB0 HB1 HA) as [H5 H6].
      eexists _, _, _, _. split; [exact Hres|].
      split; [unfold get_alpha, mbind, M_bind; by rewrite Hres|]. done.
    + eexists _, _, _, _. split; [exact Hres|].
      split; [unfold get_alpha, mbind, M_bind; by rewrite Hres|].
      repeat split; done.
  - intros Hw. rewrite Hgc. unfold get_color_result, mbind, M_bind, assert.
    destruct (of_int 0 <? sum_weight acc)%flt eqn:Hlt; [|done].
    apply fltb_Q in Hlt. change (of_int 0) with 0%Q in Hlt. lra.
Qed.

Lemma sums_uniform_step (r g b a : Z) (acc0 : @sums Q) (opa : Q) :
  sums_uniform r g b a acc0 →
  sums_uniform r g b a
    {| sum_weight := (sum_weight acc0 + opa)%flt;
       sum_r := (sum_r acc0 + opa * of_int r / of_int (1 ≪ 15))%flt;
       sum_g := (sum_g acc0 + opa * of_int g / of_int (1 ≪ 15))%flt;
       sum_b := (sum_b acc0 + opa * of_int b / of_int (1 ≪ 15))%flt;
       sum_a := (sum_a acc0 + opa * of_int a / of_int (1 ≪ 15))%flt |}.
Proof.
  intros (Hr & Hg & Hb & Ha). unfold sums_uniform.
  cbn [sum_r sum_g sum_b sum_a sum_weight fadd fmul fdiv of_int Q_FloatOps].
  rewrite Hr, Hg, Hb, Ha. change (1 ≪ 15) with (2 ^ 15).
  repeat split; field; discriminate.
Qed.

(** X19.  With exact arithmetic: over tiles whose pixels all hold the same
    premultiplied value [(r, g, b, a)], when the tile loops run to their
    end and some pixel had a positive weight, [get_color] returns the
    alpha [a / 2^15] and, for [a > 0], the colour [r / a], [g / a],
    [b / a] (the colour of the area, not premultiplied); for [a = 0] it
    returns the colour (0, 1, 0). *)
Theorem get_color_of_a_uniform_area (x y radius : Q) (r g b a : Z)
    (acc : @sums Q) (s s1 : State) :
  premultiplied_pixel (r, g, b, a) = true →
  heap_pixels (λ px, px = (r, g, b, a)) (heap s) →
  (lit_0_1 <=? radius)%flt = true →
  get_color_sums x y radius s = (Ok (inl acc), s1) →
  (0 < sum_weight acc)%Q →
  ∃ cr cg cb ca,
    get_color x y radius s = (Ok (Some (cr, cg, cb, ca)), s1) ∧
    (ca == inject_Z a / inject_Z (2 ^ 15))%Q ∧
    (0 < a → (cr == inject_Z r / inject_Z a)%Q ∧
             (cg == inject_Z g / inject_Z a)%Q ∧
             (cb == inject_Z b / inject_Z a)%Q) ∧
    (a = 0 → cr = of_int 0 ∧ cg = of_int 1 ∧ cb = of_int 0).
Proof.
  intros Hpx Hheap Hrad Hsums Hw.
  destruct (get_color_sums_invariant
              (λ acc, sums_uniform r g b a acc ∧ sums_premultiplied acc)
              (λ px, px = (r, g, b, a)) x y radius acc s s1)
    as [[HU HJ] _]; [done| | |done|].
  { split; [|unfold sums_premultiplied; by cbn].
    unfold sums_uniform. cbn [sum_r sum_g sum_b sum_a sum_weight of_int Q_FloatOps].
    repeat split; field; discriminate. }
  { intros acc0 opa r' g' b' a' [HU0 HJ0] Ho0 Ho1 [= -> -> -> ->].
    split; [by apply sums_uniform_step|by apply sums_premultiplied_step]. }
  pose proof (get_color_after_sums x y radius acc s s1 Hrad Hsums) as Hgc.
  pose proof (get_color_result_Q acc s1 HJ Hw) as Hres. cbv zeta in Hres.
  rewrite <-Hgc in Hres.
  destruct HU as (Hr & Hg & Hb & Ha).
  apply premultiplied_pixel_spec in Hpx as (Hpr & Hpg & Hpb & Hpa).
  assert (HA : (sum_a acc / sum_weight acc == inject_Z a / inject_Z (2 ^ 15))%Q).
  { rewrite Ha. field. split; [discriminate|lra]. }
  destruct (of_int 0 <? sum_a acc / sum_weight acc)%flt eqn:Hlt.
  - apply fltb_Q in Hlt. change (of_int 0) with 0%Q in Hlt.
    cbn [fdiv Q_FloatOps] in Hlt. rewrite HA in Hlt.
    assert (Hapos : 0 < a).
    { destruct (Z.lt_ge_cases 0 a) as [|Hle]; [done|].
      assert (a = 0) as -> by lia. by vm_compute in Hlt. }
    assert (Hqa : (0 < inject_Z a)%Q) by (change 0%Q with (inject_Z 0); by rewrite <-Zlt_Qlt).
    eexists _, _, _, _. split; [exact Hres|]. split; [exact HA|]. split; [|lia].
    intros _. cbn [fdiv Q_FloatOps]. rewrite Hr, Hg, Hb, Ha.
    repeat split; field; (repeat split; try discriminate; lra).
  - eexists _, _, _, _. split; [exact Hres|]. split; [exact HA|]. split; [|done].
    intros Hapos. exfalso.
    assert (Hqa : (0 < inject_Z a)%Q) by (change 0%Q with (inject_Z 0); by rewrite <-Zlt_Qlt).
    assert (Hlt' : (of_int 0 <? sum_a acc / sum_weight acc)%flt = true).
    { apply fltb_Q. change (of_int 0) with 0%Q. cbn [fdiv Q_FloatOps]. rewrite HA.
      change (inject_Z (2 ^ 15)) with 32768%Q. unfold Qdiv.
      change (/ 32768)%Q with (1 # 32768)%Q. lra. }
    congruence.
Qed.

(** ** No access outside the tile buffers: proofs *)

Lemma for_loop_safe {A R : Type} (I : State → Prop)
    (body : Z → A → M (A + R)) (n : nat) (i : Z) (acc : A) (s : State) :
  (∀ j a s0, I s0 → ∃ r s1, body j a s0 = (Ok r, s1) ∧ I s1) →
  I s →
  ∃ r s', for_loop n i body acc s = (Ok r, s') ∧ I s'.
Proof.
  intros Hbody. revert i acc s. induction n as [|n IH]; intros i acc s HI.
  - by exists (inl acc), s.
  - destruct (Hbody i acc s HI) as (r & s1 & Hb & HI1).
    simpl. unfold mbind, M_bind. rewrite Hb.
    destruct r as [a|r]; [by apply IH|by exists (inr r), s1].
Qed.

Lemma find_tile_elem (slots : list TileMemory.t) (tx ty : Z) (p : ptr) :
  find_tile slots tx ty = Some p → ∃ e, e ∈ slots ∧ TileMemory.rgba_p e = p.
Proof.
  induction slots as [|e slots IH]; [done|]. simpl.
  destruct (_ && _).
  - intros [= <-]. exists e. split; [apply list_elem_of_here|done].
  - intros (e' & Hin & Hp)%IH. exists e'. split; [by apply list_elem_of_further|done].
Qed.

Lemma tile_mapped_insert (hp : gmap ptr (list Z)) (p q : ptr) (buf' : list Z) :
  Z.of_nat (length buf') = TILE_SIZE * TILE_SIZE * 4 →
  tile_mapped hp q → tile_mapped (<[p := buf']> hp) q.
Proof.
  intros Hlen (buf & Hq & Hl). destruct (decide (q = p)) as [->|Hne].
  - exists buf'. by rewrite lookup_insert_eq.
  - exists buf. by rewrite lookup_insert_ne.
Qed.

(** the valid slots after an insertion: the slots that were valid, or the
    new one *)
Lemma cache_insert_valid_slots (tx ty : Z) (p : ptr) (t : TiledSurface)
    (e : TileMemory.t) :
  cache_consistent t →
  e ∈ take (Z.to_nat (tileMemoryValid (cache_insert tx ty p t)))
        (tileMemory (cache_insert tx ty p t)) →
  e = TileMemory.mk tx ty p ∨
  e ∈ take (Z.to_nat (tileMemoryValid t)) (tileMemory t).
Proof.
  intros ((Hlen & Hv & Hw) & Hsync & _). unfold cache_insert, TILE_MEMORY_SIZE in *.
  destruct (Z.ltb_spec (tileMemoryValid t) 8) as [Hlt|Hge]; simpl.
  - rewrite (Hsync Hlt).
    replace (Z.to_nat (tileMemoryValid t + 1)) with (S (Z.to_nat (tileMemoryValid t)))
      by lia.
    erewrite take_S_r; last (apply list_lookup_insert_eq; lia).
    rewrite take_insert_ge by lia.
    intros [Hin|Hin%list_elem_of_singleton]%elem_of_app; [by right|by left].
  - intros (i & Hi)%list_elem_of_lookup.
    apply lookup_take_Some in Hi as [Hi Hlti].
    apply list_lookup_insert_Some in Hi as [(_ & <- & _)|[_ Hi]]; [by left|].
    right. apply list_elem_of_lookup. exists i. apply lookup_take_Some. done.
Qed.

Lemma get_tile_memory_in_place (tx ty : Z) (ro : bool) (s : State) :
  tiles_in_place s →
  ∃ res s1,
    get_tile_memory tx ty ro s = (Ok res, s1) ∧ tiles_in_place s1 ∧
    ∀ p, res = Some p → tile_mapped (heap s1) p.
Proof.
  intros (Hc & Hstore & Hcache).
  destruct (cache_lookup (surf s) tx ty) as [p|] eqn:Hl.
  - rewrite (get_tile_memory_hit _ _ _ _ _ Hl). eexists _, _. split; [done|].
    split; [done|]. intros q [= <-].
    apply find_tile_elem in Hl as (e & Hin & <-). by apply Hcache.
  - rewrite (get_tile_memory_miss _ _ _ _ Hl). cbv zeta.
    eexists _, _. split; [done|].
    destruct (py_get_tile_memory _ _ _ _ _) as [p|] eqn:Hpy; [|by split].
    pose proof (Hstore _ _ _ _ _ Hpy) as Hp.
    split; [|by intros q [= <-]].
    destruct ro; [done|].
    split; [|split]; cbn [surf heap trace].
    + apply cache_insert_consistent; [done|by apply cache_lookup_None].
    + assert (Hself : self (cache_insert tx ty p (surf s)) = self (surf s))
        by (unfold cache_insert; by destruct (_ <? _)).
      rewrite Hself. exact Hstore.
    + intros e [->|Hin]%cache_insert_valid_slots; [done|by apply Hcache|done].
Qed.

Section NoFault.
Context {F : Type} {FO : FloatOps F}.

Lemma draw_dab_pixels_in_place (p : ptr) (xc yc r_fringe one_over_radius2 : F)
    (color_r_ color_g_ color_b_ : Z) (opaque hardness alpha_eraser : F)
    (s : State) :
  tiles_in_place s → tile_mapped (heap s) p →
  ∃ s1,
    draw_dab_pixels p xc yc r_fringe one_over_radius2
      color_r_ color_g_ color_b_ opaque hardness alpha_eraser s
      = (Ok (inl tt), s1) ∧ tiles_in_place s1.
Proof.
  intros (Hc & Hstore & Hcache) (buf & Hp & Hlen).
  destruct (draw_dab_pixels_mapped (λ _, True) p buf xc yc r_fringe one_over_radius2
              color_r_ color_g_ color_b_ opaque hardness alpha_eraser s Hp Hlen I)
    as (buf' & -> & Hlen' & _); [done|].
  eexists. split; [done|]. split; [done|]. split; simpl.
  - intros tr tx ty ro q Hq. apply tile_mapped_insert; [done|]. by eapply Hstore.
  - intros e He. apply tile_mapped_insert; [done|]. by apply Hcache.
Qed.

Lemma draw_dab_in_place (x y radius color_r color_g color_b
    opaque hardness alpha_eraser : F) (s : State) :
  tiles_in_place s →
  (draw_dab x y radius color_r color_g color_b
     opaque hardness alpha_eraser s).1 ≠ MemoryFault ∧
  tiles_in_place
    (draw_dab x y radius color_r color_g color_b opaque hardness alpha_eraser s).2.
Proof.
  intros Hs. rewrite draw_dab_spec.
  destruct (_ && _); [|done]. destruct (_ || _); [done|].
  destruct (0 <? atomic (surf s)); [|done].
  assert (Htiles : ∃ r s1,
    draw_dab_tiles x y (radius + of_int 1)%flt (of_int 1 / (radius * radius))%flt
      (to_uint32 (color_r * of_int (1 ≪ 15))%flt)
      (to_uint32 (color_g * of_int (1 ≪ 15))%flt)
      (to_uint32 (color_b * of_int (1 ≪ 15))%flt)
      opaque hardness alpha_eraser s = (Ok r, s1) ∧ tiles_in_place s1).
  { unfold draw_dab_tiles, for_range.
    apply (for_loop_safe tiles_in_place); [|done]. intros ty [] s1 H1.
    apply (for_loop_safe tiles_in_place); [|done]. intros tx [] s2 H2.
    unfold draw_dab_tile, mbind, M_bind.
    destruct (get_tile_memory_in_place tx ty false s2 H2)
      as (res & s3 & -> & H3 & Hres).
    destruct res as [p|]; [|by eexists _, _].
    destruct (draw_dab_pixels_in_place p (x - of_int (tx * TILE_SIZE))%flt
                (y - of_int (ty * TILE_SIZE))%flt (radius + of_int 1)%flt
                (of_int 1 / (radius * radius))%flt
                (to_uint32 (color_r * of_int (1 ≪ 15))%flt)
                (to_uint32 (color_g * of_int (1 ≪ 15))%flt)
                (to_uint32 (color_b * of_int (1 ≪ 15))%flt)
                opaque hardness alpha_eraser s3 H3 (Hres p eq_refl))
      as (s4 & -> & H4).
    by eexists _, _. }
  destruct Htiles as (r & s1 & Hrun & H1).
  unfold mbind, M_bind. rewrite Hrun.
  destruct r as [[]|b]; [|by unfold ret].
  unfold expand_dirty_bbox.
  destruct (dab_bbox x y radius) as [[ax ay] [bx by']].
  unfold mbind, M_bind, modify_surf, ret. by cbn [fst snd].
Qed.

Lemma get_color_in_place (x y radius : F) (s : State) :
  tiles_in_place s → (get_color x y radius s).1 ≠ MemoryFault.
Proof.
  intros Hs. rewrite get_color_eq. unfold mbind at 1, M_bind at 1, assert at 1.
  destruct (lit_0_1 <=? radius)%flt; [|done].
  assert (Hsums : ∃ r s1, get_color_sums x y radius s = (Ok r, s1) ∧ tiles_in_place s1).
  { unfold get_color_sums, for_range. cbv zeta.
    apply (for_loop_safe tiles_in_place); [|done]. intros ty acc1 s1 H1.
    apply (for_loop_safe tiles_in_place); [|done]. intros tx acc2 s2 H2.
    unfold get_color_tile, mbind, M_bind.
    destruct (get_tile_memory_in_place tx ty true s2 H2)
      as (res & s3 & -> & H3 & Hres).
    destruct res as [p|]; [|by eexists _, _].
    destruct (Hres p eq_refl) as (buf & Hp & Hlen).
    destruct (get_color_pixels_mapped p buf (x - of_int (tx * TILE_SIZE))%flt
                (y - of_int (ty * TILE_SIZE))%flt (radius + of_int 1)%flt
                (of_int 1 / (radius * radius))%flt acc2 s3 Hp Hlen) as [acc' ->].
    by eexists _, _. }
  destruct Hsums as (r & s1 & Hrun & H1).
  unfold mbind at 1, M_bind at 1. rewrite Hrun.
  destruct r as [acc|[]]; [|by unfold ret].
  unfold get_color_result, mbind, M_bind, assert.
  destruct (of_int 0 <? sum_weight acc)%flt; [|done].
  destruct (of_int 0 <? sum_a acc / sum_weight acc)%flt;
    repeat (match goal with |- context [if ?b then _ else _] => destruct b end;
            try done).
Qed.

(** X20.  When the tiles are in place (the store hands out addresses of
    tile buffers of 64 x 64 x 4 words only, the valid cache slots hold
    such addresses, and the cache is consistent), [draw_dab], [get_color]
    and [get_alpha] never read or write outside a tile buffer, whatever
    their arguments; and after [draw_dab] the tiles are still in place,
    so this holds for every further call. *)
Theorem dabs_and_probes_stay_inside_the_tiles (s : State) :
  tiles_in_place s →
  (∀ x y radius color_r color_g color_b opaque hardness alpha_eraser : F,
     (draw_dab x y radius color_r color_g color_b
        opaque hardness alpha_eraser s).1 ≠ MemoryFault ∧
     tiles_in_place
       (draw_dab x y radius color_r color_g color_b
          opaque hardness alpha_eraser s).2) ∧
  (∀ x y radius : F,
     (get_color x y radius s).1 ≠ MemoryFault ∧
     (get_alpha x y radius s).1 ≠ MemoryFault).
Proof.
  intros Hs. split.
  - intros. by apply draw_dab_in_place.
  - intros x y radius.
    pose proof (get_color_in_place x y radius s Hs) as Hgc.
    split; [done|]. unfold get_alpha, mbind, M_bind.
    by destruct (get_color x y radius s) as [[c| |] s'].
Qed.
End NoFault.

(** ** A probe without a result: proofs *)

Section ProbeOutcomes.
Context {F : Type} {FO : FloatOps F}.

Lemma get_color_pixels_inl (p : ptr) (xc yc r_fringe one_over_radius2 : F)
    (acc : sums) (s s' : State) (u : unit) :
  get_color_pixels p xc yc r_fringe one_over_radius2 acc s ≠ (Ok (inr u), s').
Proof.
  intros H. unfold get_color_pixels in H.
  apply for_range_inr in H as (yp & a1 & s1 & _ & H).
  apply for_range_inr in H as (xp & a2 & s2 & _ & H).
  unfold mbind, M_bind in H.
  by destruct (get_color_pixel _ _ _ _ _ _ _ s2) as [[?| |] ?].
Qed.

Lemma get_color_sums_inr (x y radius : F) (s s' : State) (u : unit) :
  get_color_sums x y radius s = (Ok (inr u), s') →
  ∃ tr tx ty,
    tile_lo x (radius + of_int 1)%flt ≤ tx ≤ tile_hi x (radius + of_int 1)%flt ∧
    tile_lo y (radius + of_int 1)%flt ≤ ty ≤ tile_hi y (radius + of_int 1)%flt ∧
    trace s' = tr ++ [EvGetTileMemory tx ty true None].
Proof.
  intros H. unfold get_color_sums in H. cbv zeta in H.
  apply for_range_inr in H as (ty & a1 & s1 & Hty & H).
  apply for_range_inr in H as (tx & a2 & s2 & Htx & H).
  unfold get_color_tile, mbind, M_bind in H.
  destruct (cache_lookup (surf s2) tx ty) as [p|] eqn:Hl.
  - rewrite (get_tile_memory_hit _ _ _ _ _ Hl) in H.
    by apply get_color_pixels_inl in H.
  - rewrite (get_tile_memory_miss _ _ _ _ Hl) in H. cbv zeta in H.
    destruct (py_get_tile_memory _ _ _ _ _) as [p|].
    + by apply get_color_pixels_inl in H.
    + destruct u. injection H as <-. by exists (trace s2), tx, ty.
Qed.

Lemma get_color_result_Some (acc : sums) (s : State) :
  (get_color_result acc s).1 ≠ Ok None.
Proof.
  unfold get_color_result, mbind, M_bind, assert.
  destruct (of_int 0 <? sum_weight acc)%flt; [|done].
  destruct (of_int 0 <? sum_a acc / sum_weight acc)%flt;
    repeat (match goal with |- context [if ?b then _ else _] => destruct b end;
            try done).
Qed.

(** X21.  [get_color] returns without a result (its four outputs are not
    written) in one case only: the last thing it did was to request a
    tile of the tile range of the probe in read-only mode, and the
    request failed.  [get_alpha] has no result either then. *)
Theorem probe_without_result_had_a_failed_fetch (x y radius : F) (s : State) :
  (get_color x y radius s).1 = Ok None →
  (get_alpha x y radius s).1 = Ok None ∧
  ∃ tr tx ty,
    tile_lo x (radius + of_int 1)%flt ≤ tx ≤ tile_hi x (radius + of_int 1)%flt ∧
    tile_lo y (radius + of_int 1)%flt ≤ ty ≤ tile_hi y (radius + of_int 1)%flt ∧
    trace (get_color x y radius s).2 = tr ++ [EvGetTileMemory tx ty true None].
Proof.
  intros Hnone. split.
  { unfold get_alpha, mbind, M_bind.
    destruct (get_color x y radius s) as [[c| |] s']; simpl in Hnone; [|done..].
    by injection Hnone as ->. }
  revert Hnone. rewrite get_color_eq.
  unfold mbind at 1 3, M_bind at 1 3, assert at 1 2.
  destruct (lit_0_1 <=? radius)%flt; [|done].
  unfold mbind, M_bind.
  destruct (get_color_sums x y radius s) as [[[acc|u]| |] s1] eqn:Hrun; [|simpl|done..].
  - intros Hnone. by apply get_color_result_Some in Hnone.
  - intros _. by apply (get_color_sums_inr _ _ _ _ _ _ Hrun).
Qed.
End ProbeOutcomes.

(** ** Instances of the theorems *)

Lemma open_batch_cache_wf : cache_wf (surf open_batch).
Proof. repeat split; vm_compute; congruence. Qed.

(** Eight tiles, four repeated requests and a ninth tile, in a fresh batch. *)
Lemma cache_capacity_and_round_robin_eviction_witness :
  (tileMemoryValid (surf (fetch_tiles fetch_sequence open_batch).2)
     ≤ TILE_MEMORY_SIZE ∧
   (length (cached_tiles (surf (fetch_tiles fetch_sequence open_batch).2)) ≤ 8)%nat)
  ∧
  (cached_tiles (surf (fetch_tiles fetch_sequence open_batch).2)
     = (8, 0) :: tail eight_tiles ∧
   store_calls (trace (fetch_tiles fetch_sequence open_batch).2) =
     store_calls (trace open_batch)
       ++ ((λ t, (t.1, t.2, false)) <$> (eight_tiles ++ [(8, 0)])) ∧
   (∀ t, t ∈ (8, 0) :: tail eight_tiles →
      ∃ p, get_tile_memory t.1 t.2 false (fetch_tiles fetch_sequence open_batch).2
             = (Ok (Some p), (fetch_tiles fetch_sequence open_batch).2)) ∧
   ((0, 0) ∉ cached_tiles (surf (fetch_tiles fetch_sequence open_batch).2)) ∧
   ∃ res s'',
     get_tile_memory 0 0 false (fetch_tiles fetch_sequence open_batch).2
       = (Ok res, s'') ∧
     trace s'' = trace (fetch_tiles fetch_sequence open_batch).2
                   ++ [EvGetTileMemory 0 0 false res] ∧
     (is_Some res →
      cached_tiles (surf s'') = (8, 0) :: (0, 0) :: tail (tail eight_tiles))).
Proof.
  split.
  - apply (proj1 cache_capacity_and_round_robin_eviction fetch_sequence open_batch).
    exact open_batch_cache_wf.
  - apply (proj2 cache_capacity_and_round_robin_eviction
             eight_tiles revisited_tiles (0, 0) (8, 0) open_batch
             (fetch_tiles fetch_sequence open_batch).2
             ((λ t, Some (t.1 + 1000 * t.2)) <$> fetch_sequence)).
    + exact open_batch_cache_wf.
    + reflexivity.
    + reflexivity.
    + reflexivity.
    + refine (bool_decide_unpack (NoDup (eight_tiles ++ [(8, 0)])) _).
      vm_compute. exact I.
    + reflexivity.
    + refine (bool_decide_unpack (Forall (λ t, t ∈ eight_tiles) revisited_tiles) _).
      vm_compute. exact I.
    + vm_compute. reflexivity.
    + refine (bool_decide_unpack (Forall is_Some _) _). vm_compute. exact I.
Defined.

(** The dab of the scenario with opacity 0. *)
Lemma degenerate_dab_is_noop_witness :
  (draw_dab (F := Q) 100%Q 100%Q 10%Q 1%Q 0%Q 0%Q 0%Q (1 # 2)%Q 1%Q open_batch).2
    = open_batch ∧
  draw_dab (F := Q) 100%Q 100%Q 10%Q 1%Q 0%Q 0%Q 0%Q (1 # 2)%Q 1%Q open_batch
    = (Ok false, open_batch).
Proof.
  destruct (degenerate_dab_is_noop (F := Q) 100%Q 100%Q 10%Q 1%Q 0%Q 0%Q 0%Q
              (1 # 2)%Q 1%Q open_batch) as [Hstate Hret].
  - reflexivity.
  - split; [exact Hstate|]. apply Hret; reflexivity.
Defined.

(** A close at depth 2, and the close at depth 1 with a pending dirty box. *)
Lemma only_outermost_close_flushes_witness :
  end_atomic nested_batch =
    (Ok tt, {| surf := set_atomic (atomic (surf nested_batch) - 1) (surf nested_batch);
               heap := heap nested_batch; trace := trace nested_batch |}) ∧
  notifications (trace (end_atomic pending_batch).2) =
    notifications (trace pending_batch) ++ [Rect.mk 89 89 22 22].
Proof.
  split.
  - apply (proj1 only_outermost_close_flushes nested_batch). vm_compute. reflexivity.
  - apply (proj1 (proj2 only_outermost_close_flushes) pending_batch). reflexivity.
Defined.

(** A read-only request for tile (3, 4) in a fresh batch. *)
Lemma readonly_miss_leaves_cache_unchanged_witness :
  ∃ res s',
    get_tile_memory 3 4 true open_batch = (Ok res, s') ∧
    trace s' = trace open_batch ++ [EvGetTileMemory 3 4 true res] ∧
    tileMemoryValid (surf s') = tileMemoryValid (surf open_batch) ∧
    tileMemoryWrite (surf s') = tileMemoryWrite (surf open_batch) ∧
    tileMemory (surf s') = tileMemory (surf open_batch) ∧
    surf s' = surf open_batch.
Proof.
  apply (readonly_miss_leaves_cache_unchanged 3 4 open_batch). reflexivity.
Defined.

Lemma faint_tile_pixels (k : Z) :
  0 ≤ k < TILE_SIZE * TILE_SIZE →
  ∃ px, pixel_at faint_tile k = Some px ∧ faint_pixel px = true.
Proof.
  intros Hk. unfold faint_tile, pixel_at.
  assert (Hblank : ∀ i, 0 ≤ i < TILE_SIZE * TILE_SIZE * 4 → index blank_tile i = Some 0).
  { intros i Hi. unfold blank_tile. apply index_replicate. lia. }
  rewrite (index_insert_ne _ (4 * k + 1) 0), (index_insert_ne _ (4 * k + 2) 0),
    (index_insert_ne _ (4 * k + 3) 0) by lia.
  rewrite !Hblank by (unfold TILE_SIZE in *; lia).
  destruct (decide (k = 0)) as [->|Hne].
  - assert (E : index (<[0%nat := 128]> blank_tile) (4 * 0 + 0) = Some 128).
    { apply (index_insert_eq blank_tile 0 128).
      unfold blank_tile. rewrite length_replicate. unfold TILE_SIZE. lia. }
    rewrite E. by eexists.
  - rewrite (index_insert_ne _ (4 * k + 0) 0) by lia.
    rewrite Hblank by (unfold TILE_SIZE in *; lia). by eexists.
Qed.

(** The tile with red 128 and alpha 0 at pixel (0, 0) over a contiguous
    destination of bytes 7. *)
Lemma flatten_transparent_tile_is_identity_witness :
  faint_pixel (0, 0, 0, 0) = true ∧
  composite_tile_over_rgb8 faint_tile 192 (replicate (Z.to_nat (64 * 192)) 7)
    = Some (replicate (Z.to_nat (64 * 192)) 7) ∧
  ∃ dst',
    composite_tile_over_rgb8 faint_tile 192 (replicate (Z.to_nat (64 * 192)) 7)
      = Some dst' ∧
    index dst' (dst_offset 192 0 0 0)
      = index (replicate (Z.to_nat (64 * 192)) 7) (dst_offset 192 0 0 0).
Proof.
  destruct (flatten_transparent_tile_is_identity faint_tile
              (replicate (Z.to_nat (64 * 192)) 7) 192) as (Hmodel & Hall & Hone).
  - apply rgb8_buffer_replicate. lia.
  - rewrite length_replicate. vm_compute. discriminate.
  - split; [by apply Hmodel|]. split.
    + apply Hall; [lia|]. exact faint_tile_pixels.
    + destruct Hone as (dst' & Hrun & Hpx).
      * unfold faint_tile, blank_tile. rewrite length_insert, length_replicate.
        unfold TILE_SIZE. lia.
      * unfold TILE_SIZE. lia.
      * exists dst'. split; [exact Hrun|].
        destruct (faint_tile_pixels 0) as (px & Hat & Hok); [unfold TILE_SIZE; lia|].
        apply (Hpx 0 0 px); unfold TILE_SIZE; try lia; done.
Defined.

(** The outermost close with a pending dirty box and an observer that
    raises. *)
Lemma end_atomic_resets_before_notifying_witness :
  ∃ (r : option Rect.t) (s1 : State),
    end_atomic_reset pending_batch = (Ok r, s1) ∧
    trace s1 = trace pending_batch ∧
    Rect.w (dirty_bbox (surf s1)) = 0 ∧
    tileMemoryValid (surf s1) = 0 ∧
    tileMemoryWrite (surf s1) = 0 ∧
    (∀ bbox, surf (end_atomic_notify bbox s1).2 = surf s1) ∧
    surf (end_atomic pending_batch).2 = surf s1.
Proof.
  apply (end_atomic_resets_before_notifying pending_batch). reflexivity.
Defined.

(** The dab of the scenario on a blank tile, and its weights halfway out
    ([rr = 1/2]) over the pixel (100, 200, 300, 400). *)
Lemma draw_dab_keeps_pixels_premultiplied_witness :
  premultiplied_heap
    (heap (draw_dab (F := Q) 100%Q 100%Q 10%Q 1%Q 0%Q 0%Q 1%Q (1 # 2)%Q 1%Q
             pending_batch).2)
  ∧
  (let opa := falloff (F := Q) 1%Q (1 # 2)%Q (1 # 2)%Q in
   let opa_a := (dab_weights opa 1%Q).1 in
   let opa_b := (dab_weights opa 1%Q).2 in
   0 ≤ to_int (of_int (1 ≪ 15) * opa)%flt ≤ 2 ^ 15 ∧
   opa_a + opa_b ≤ 2 ^ 15 ∧
   0 ≤ opa_b * 400 < 2 ^ 32 ∧
   opa_a + opa_b * 400 / 2 ^ 15 < 2 ^ 16).
Proof.
  destruct (draw_dab_keeps_pixels_premultiplied 100%Q 100%Q 10%Q 1%Q 0%Q 0%Q 1%Q
              (1 # 2)%Q 1%Q pending_batch) as [Hheap Hpix]; try reflexivity.
  { apply map_Forall_singleton. exact blank_tile_premultiplied. }
  split; [exact Hheap|].
  destruct (Hpix (1 # 2)%Q 100 200 300 400) as (H1 & _ & _ & H2 & H3 & H4 & _).
  - reflexivity.
  - unfold Qle. simpl. lia.
  - unfold Qle. simpl. lia.
  - reflexivity.
  - exact (conj H1 (conj H2 (conj H3 H4))).
Defined.

(** Pixel (47, 25) of tile (1, 1) under the dab of the scenario, and the
    two pixel loops of that dab on the blank buffer of the tile. *)
Lemma clipped_pixels_stay_inside_tile_witness :
  (0 ≤ 47 ≤ TILE_SIZE - 1 ∧ 0 ≤ 25 ≤ TILE_SIZE - 1 ∧
   0 ≤ pixel_idx 47 25 ∧ pixel_idx 47 25 + 3 < TILE_SIZE * TILE_SIZE * 4)
  ∧
  (draw_dab_pixels (F := Q) 1001 (100%Q - of_int (1 * TILE_SIZE))%flt
     (100%Q - of_int (1 * TILE_SIZE))%flt (10%Q + of_int 1)%flt (1 # 100)%Q
     32768 0 0 1%Q (1 # 2)%Q 1%Q pending_batch).1 = Ok (inl tt)
  ∧
  (∃ acc', (get_color_pixels (F := Q) 1001 (100%Q - of_int (1 * TILE_SIZE))%flt
              (100%Q - of_int (1 * TILE_SIZE))%flt (10%Q + of_int 1)%flt (1 # 100)%Q
              (mkSums 0%Q 0%Q 0%Q 0%Q 0%Q) pending_batch).1 = Ok (inl acc')).
Proof.
  pose proof (clipped_pixels_stay_inside_tile (F := Q) 100%Q 100%Q 10%Q 1 1)
    as (_ & Hidx & Hdraw & Hget).
  split; [|split].
  - apply (Hidx 47 25).
    + vm_compute. split; discriminate.
    + vm_compute. split; discriminate.
  - apply (Hdraw 1001 blank_tile pending_batch).
    + apply lookup_singleton_eq.
    + unfold blank_tile. rewrite length_replicate. unfold TILE_SIZE. lia.
  - apply (Hget 1001 blank_tile pending_batch).
    + apply lookup_singleton_eq.
    + unfold blank_tile. rewrite length_replicate. unfold TILE_SIZE. lia.
Defined.

(** The dab across tiles (0, 0) and (1, 0), both handed out by the store. *)
Lemma draw_dab_expands_dirty_bbox_once_witness :
  ∃ s', border_dab two_tile_batch = (Ok true, s') ∧
        dirty_expanded_by_dab (F := Q) 64%Q 10%Q 1%Q two_tile_batch s'.
Proof.
  destruct (draw_dab_expands_dirty_bbox_once (F := Q)
              64%Q 10%Q 1%Q 1%Q 0%Q 0%Q 1%Q (1 # 2)%Q 1%Q two_tile_batch
              (draw_dab_tiles (F := Q) 64%Q 10%Q (1 + 1)%Q (1 / (1 * 1))%Q
                 32768 0 0 1%Q (1 # 2)%Q 1%Q two_tile_batch).2)
    as [_ (s' & Hrun & Hbox & _)].
  all: try (vm_compute; reflexivity).
  exists s'. split; [exact Hrun|exact Hbox].
Defined.

(** The scenario over a store with a blank tile (1, 1). *)
Lemma scenario_reports_dab_bounding_box_witness :
  notifications
    (trace (scenario_dab (fresh example_store {[1001 := blank_tile]})).2)
    = [Rect.mk 89 89 22 22] ∧
  scenario_reports (fresh example_store {[1001 := blank_tile]}) 89 110.
Proof.
  apply (scenario_reports_dab_bounding_box example_store {[1001 := blank_tile]}
           1001 blank_tile).
  - reflexivity.
  - vm_compute. reflexivity.
  - vm_compute. reflexivity.
Defined.

(** ** Instances of the further theorems *)

Lemma flat_tile_pixel_at (v k : Z) :
  0 ≤ k < TILE_SIZE * TILE_SIZE → pixel_at (flat_tile v) k = Some (v, v, v, v).
Proof.
  intros Hk. unfold pixel_at, flat_tile. unfold TILE_SIZE in *.
  rewrite !index_replicate by lia. done.
Qed.

Lemma flat_tile_length (v : Z) :
  Z.of_nat (length (flat_tile v)) = TILE_SIZE * TILE_SIZE * 4.
Proof. unfold flat_tile. rewrite length_replicate. unfold TILE_SIZE. lia. Qed.

Lemma flat_tile_premultiplied (v : Z) :
  0 ≤ v ≤ 2 ^ 15 → premultiplied_tile (flat_tile v) = true.
Proof.
  intros Hv. apply premultiplied_tile_spec. split; [apply flat_tile_length|].
  intros k Hk. exists (v, v, v, v). split; [by apply flat_tile_pixel_at|].
  apply premultiplied_pixel_spec. lia.
Qed.

Lemma flat_tile_opaque : opaque_tile (flat_tile (2 ^ 15)) = true.
Proof.
  unfold opaque_tile. apply forallb_forall.
  intros k Hk%list_elem_of_In%elem_of_seqZ.
  unfold flat_tile, TILE_SIZE in *. rewrite index_replicate by lia. done.
Qed.

Lemma flat_tile_heap_pixels (p : ptr) (v : Z) :
  heap_pixels (λ px, px = (v, v, v, v)) {[p := flat_tile v]}.
Proof.
  intros q buf [-> <-]%lookup_singleton_Some. split; [apply flat_tile_length|].
  intros k Hk. exists (v, v, v, v). split; [by apply flat_tile_pixel_at|done].
Qed.

Lemma blank_tile_length : Z.of_nat (length blank_tile) = TILE_SIZE * TILE_SIZE * 4.
Proof. unfold blank_tile. rewrite length_replicate. unfold TILE_SIZE. lia. Qed.

Lemma pending_batch_premultiplied : premultiplied_heap (heap pending_batch).
Proof. apply map_Forall_singleton. exact blank_tile_premultiplied. Qed.

(** A first fetch of tile (3, 4) in a fresh batch, then a second request. *)
Lemma fetched_tile_is_served_from_cache_witness :
  get_tile_memory 3 4 true (get_tile_memory 3 4 false open_batch).2
    = (Ok (Some 4003), (get_tile_memory 3 4 false open_batch).2).
Proof.
  apply (fetched_tile_is_served_from_cache 3 4 4003 open_batch
           (get_tile_memory 3 4 false open_batch).2).
  - split; [exact open_batch_cache_wf|]. split; [reflexivity|apply NoDup_nil_2].
  - reflexivity.
Defined.

(** A batch with a dab and a probe on a new surface. *)
Lemma cache_is_consistent_after_any_calls_witness :
  NoDup (cached_tiles
           (surf (run_methods painting_session
                    (fresh example_store {[1001 := blank_tile]})).2)).
Proof.
  apply (cache_is_consistent_after_any_calls painting_session example_store
           (Rect.mk 0 0 0 0) (replicate 8 (TileMemory.mk 0 0 0))
           {[1001 := blank_tile]}).
  reflexivity.
Defined.

Lemma begin_atomic_succeeds_after_any_calls_witness :
  idle_clean (surf (run_methods painting_session
                      (fresh example_store {[1001 := blank_tile]})).2).
Proof.
  apply (begin_atomic_succeeds_after_any_calls painting_session example_store
           (Rect.mk 0 0 0 0) (replicate 8 (TileMemory.mk 0 0 0))
           {[1001 := blank_tile]}).
  reflexivity.
Defined.

Lemma fresh_idle_clean (py : PyObject) (hp : gmap ptr (list Z)) :
  idle_clean (surf (fresh py hp)).
Proof. split; simpl; [lia|done]. Qed.

(** An empty batch on a new surface. *)
Lemma empty_batch_is_noop_witness :
  (begin_atomic;; end_atomic) (fresh example_store ∅) = (Ok tt, fresh example_store ∅).
Proof. apply (empty_batch_is_noop (fresh example_store ∅)). apply fresh_idle_clean. Defined.

(** Two nested empty batches on a new surface. *)
Lemma batch_calls_fail_only_when_unmatched_witness :
  atomic (surf (run_calls nested_batches (fresh example_store ∅)).2)
    = atomic (surf (fresh example_store ∅)) + depth_change nested_batches.
Proof.
  apply (batch_calls_fail_only_when_unmatched nested_batches (fresh example_store ∅)).
  - apply fresh_idle_clean.
  - reflexivity.
Defined.

(** The dab on the border of two tiles, on top of a store that raises. *)
Lemma aborted_dab_reports_true_witness :
  border_dab failing_batch = (Ok true, border_tiles_run.2) ∧
  dirty_bbox (surf border_tiles_run.2) = dirty_bbox (surf failing_batch).
Proof.
  destruct (aborted_dab_reports_true (F := Q) 64%Q 10%Q 1%Q 1%Q 0%Q 0%Q 1%Q
              (1 # 2)%Q 1%Q failing_batch border_tiles_run.2 true)
    as (Hret & Hbox & _); try reflexivity.
  split; [exact Hret|exact Hbox].
Defined.

(** The dab of the scenario on its tile (1, 1). *)
Lemma dab_composites_each_pixel_of_a_tile_once_witness :
  ∃ buf',
    draw_dab_tile (F := Q) 100%Q 100%Q 11%Q (1 # 100)%Q 32768 0 0
        1%Q (1 # 2)%Q 1%Q 1 1 pending_batch =
      (Ok (inl tt), set_heap (<[1001 := buf']> (heap pending_batch)) pending_batch) ∧
    Z.of_nat (length buf') = TILE_SIZE * TILE_SIZE * 4.
Proof.
  destruct (dab_composites_each_pixel_of_a_tile_once (F := Q) 100%Q 100%Q 11%Q
              (1 # 100)%Q 32768 0 0 1%Q (1 # 2)%Q 1%Q 1 1 1001 blank_tile
              pending_batch pending_batch) as (buf' & Hrun & Hlen & _).
  - reflexivity.
  - apply lookup_singleton_eq.
  - exact blank_tile_length.
  - exists buf'. split; [exact Hrun|exact Hlen].
Defined.

Lemma dab_changes_only_pixels_of_its_disc_witness :
  ∃ buf',
    draw_dab_pixels (F := Q) 1001 (100%Q - of_int (1 * TILE_SIZE))%flt
        (100%Q - of_int (1 * TILE_SIZE))%flt
        (10%Q + of_int 1)%flt (of_int 1 / (10 * 10)%Q)%flt
        32768 0 0 1%Q (1 # 2)%Q 1%Q pending_batch =
      (Ok (inl tt), set_heap (<[1001 := buf']> (heap pending_batch)) pending_batch).
Proof.
  destruct (dab_changes_only_pixels_of_its_disc 100%Q 100%Q 10%Q 32768 0 0
              1%Q (1 # 2)%Q 1%Q 1 1 1001 blank_tile pending_batch)
    as (buf' & Hrun & _).
  - reflexivity.
  - apply lookup_singleton_eq.
  - exact blank_tile_length.
  - exists buf'. exact Hrun.
Defined.

(** Pixel (100, 100) under the dab of the scenario. *)
Lemma every_pixel_of_the_disc_is_composited_witness :
  dab_reaches (F := Q) (100%Q - of_int (100 / TILE_SIZE * TILE_SIZE))%flt
    (100%Q - of_int (100 / TILE_SIZE * TILE_SIZE))%flt (10%Q + of_int 1)%flt
    (100 mod TILE_SIZE) (100 mod TILE_SIZE) = true.
Proof.
  destruct (every_pixel_of_the_disc_is_composited 100%Q 100%Q 10%Q 100 100)
    as (_ & _ & Hreach & _).
  - reflexivity.
  - unfold in_dab_circle. vm_compute. discriminate.
  - exact Hreach.
Defined.

(** A hard red dab of radius 10 on tile (1, 1). *)
Lemma hard_opaque_dab_paints_its_disc_witness :
  ∃ buf',
    draw_dab_pixels (F := Q) 1001 (100%Q - of_int (1 * TILE_SIZE))%flt
        (100%Q - of_int (1 * TILE_SIZE))%flt
        (10%Q + of_int 1)%flt (of_int 1 / (10 * 10)%Q)%flt
        (to_uint32 (1%Q * of_int (1 ≪ 15))%flt)
        (to_uint32 (0%Q * of_int (1 ≪ 15))%flt)
        (to_uint32 (0%Q * of_int (1 ≪ 15))%flt)
        (of_int 1) (of_int 1) (of_int 1) pending_batch =
      (Ok (inl tt), set_heap (<[1001 := buf']> (heap pending_batch)) pending_batch).
Proof.
  destruct (hard_opaque_dab_paints_its_disc 100%Q 100%Q 10%Q 1%Q 0%Q 0%Q
              1 1 1001 blank_tile pending_batch) as (buf' & Hrun & _).
  - reflexivity.
  - reflexivity.
  - reflexivity.
  - reflexivity.
  - apply lookup_singleton_eq.
  - exact blank_tile_length.
  - exists buf'. exact Hrun.
Defined.

(** The dab of the scenario, and the same dab as an eraser. *)
Lemma painting_never_lowers_alpha_witness :
  heap_pixels_related alpha_not_below (heap pending_batch)
    (heap (draw_dab (F := Q) 100%Q 100%Q 10%Q 1%Q 0%Q 0%Q 1%Q (1 # 2)%Q (of_int 1)
             pending_batch).2).
Proof.
  apply (painting_never_lowers_alpha 100%Q 100%Q 10%Q 1%Q 0%Q 0%Q 1%Q (1 # 2)%Q
           pending_batch); try reflexivity.
  exact pending_batch_premultiplied.
Defined.

Lemma erasing_never_raises_a_channel_witness :
  heap_pixels_related no_channel_above (heap pending_batch)
    (heap (draw_dab (F := Q) 100%Q 100%Q 10%Q 1%Q 0%Q 0%Q 1%Q (1 # 2)%Q (of_int 0)
             pending_batch).2).
Proof.
  apply (erasing_never_raises_a_channel 100%Q 100%Q 10%Q 1%Q 0%Q 0%Q 1%Q (1 # 2)%Q
           pending_batch); try reflexivity.
  exact pending_batch_premultiplied.
Defined.

(** A half-transparent white tile flattened onto a grey image. *)
Lemma flatten_blends_each_byte_without_overflow_witness :
  ∃ dst',
    composite_tile_over_rgb8 (flat_tile (2 ^ 14)) 192
      (replicate (Z.to_nat (64 * 192)) 100) = Some dst' ∧
    length dst' = length (replicate (Z.to_nat (64 * 192)) 100).
Proof.
  destruct (flatten_blends_each_byte_without_overflow (flat_tile (2 ^ 14))
              (replicate (Z.to_nat (64 * 192)) 100) 192)
    as (dst' & Hrun & Hlen & _).
  - apply flat_tile_premultiplied. lia.
  - apply rgb8_buffer_replicate. lia.
  - unfold TILE_SIZE. lia.
  - rewrite length_replicate. unfold TILE_SIZE. lia.
  - exists dst'. split; [exact Hrun|exact Hlen].
Defined.

(** An opaque white tile flattened onto a grey image. *)
Lemma flatten_opaque_tile_overwrites_witness :
  ∃ dst',
    composite_tile_over_rgb8 (flat_tile (2 ^ 15)) 192
      (replicate (Z.to_nat (64 * 192)) 100) = Some dst'.
Proof.
  destruct (flatten_opaque_tile_overwrites (flat_tile (2 ^ 15))
              (replicate (Z.to_nat (64 * 192)) 100) 192)
    as (dst' & Hrun & _).
  - apply flat_tile_premultiplied. lia.
  - exact flat_tile_opaque.
  - apply rgb8_buffer_replicate. lia.
  - unfold TILE_SIZE. lia.
  - rewrite length_replicate. unfold TILE_SIZE. lia.
  - exists dst'. exact Hrun.
Defined.

Lemma white_surface_premultiplied : premultiplied_heap (heap white_surface).
Proof. apply map_Forall_singleton. apply flat_tile_premultiplied. lia. Qed.

(** A probe of radius 1/2 on a half-transparent white tile. *)
Lemma get_color_returns_a_colour_in_range_witness :
  ∃ r g b a,
    get_color (F := Q) (17 # 2)%Q (17 # 2)%Q (1 # 2)%Q white_surface
      = (Ok (Some (r, g, b, a)), probe_sums_run.2) ∧
    (0 <= a)%Q ∧ (a <= 1)%Q.
Proof.
  destruct (get_color_returns_a_colour_in_range (17 # 2)%Q (17 # 2)%Q (1 # 2)%Q
              probe_sums white_surface probe_sums_run.2) as (_ & Hpos & _).
  - exact white_surface_premultiplied.
  - reflexivity.
  - vm_compute. reflexivity.
  - destruct Hpos as (r & g & b & a & Hgc & _ & Ha0 & Ha1 & _).
    + vm_compute. reflexivity.
    + exists r, g, b, a. split; [exact Hgc|]. split; [exact Ha0|exact Ha1].
Defined.

Lemma get_color_of_a_uniform_area_witness :
  ∃ cr cg cb ca,
    get_color (F := Q) (17 # 2)%Q (17 # 2)%Q (1 # 2)%Q white_surface
      = (Ok (Some (cr, cg, cb, ca)), probe_sums_run.2) ∧
    (ca == inject_Z (2 ^ 14) / inject_Z (2 ^ 15))%Q.
Proof.
  destruct (get_color_of_a_uniform_area (17 # 2)%Q (17 # 2)%Q (1 # 2)%Q
              (2 ^ 14) (2 ^ 14) (2 ^ 14) (2 ^ 14)
              probe_sums white_surface probe_sums_run.2)
    as (cr & cg & cb & ca & Hgc & Ha & _).
  - reflexivity.
  - apply flat_tile_heap_pixels.
  - reflexivity.
  - vm_compute. reflexivity.
  - vm_compute. reflexivity.
  - exists cr, cg, cb, ca. split; [exact Hgc|exact Ha].
Defined.

Lemma one_tile_surface_in_place : tiles_in_place one_tile_surface.
Proof.
  split; [|split].
  - split; [|split]; [|done|apply NoDup_nil_2].
    split; [done|]. unfold TILE_MEMORY_SIZE. cbn [one_tile_surface fresh surf
      TiledSurface_new tileMemoryValid tileMemoryWrite]. lia.
  - intros tr tx ty ro p.
    cbn [one_tile_surface fresh surf heap self TiledSurface_new
         py_get_tile_memory one_tile_store].
    destruct (_ && _); [|done]. intros [= <-].
    exists blank_tile. split; [apply lookup_singleton_eq|apply blank_tile_length].
  - cbn [one_tile_surface fresh surf TiledSurface_new tileMemoryValid tileMemory].
    intros e He. by apply elem_of_nil in He.
Qed.

Lemma one_tile_batch_in_place : tiles_in_place one_tile_batch.
Proof.
  pose proof one_tile_surface_in_place as H. unfold one_tile_batch.
  rewrite begin_atomic_spec. by destruct (_ && _).
Qed.

(** Inside a batch on a surface whose store has one blank tile and raises
    for every other tile: every dab and every probe. *)
Lemma dabs_and_probes_stay_inside_the_tiles_witness :
  tiles_in_place one_tile_batch ∧
  (∀ x y radius color_r color_g color_b opaque hardness alpha_eraser : Q,
     (draw_dab x y radius color_r color_g color_b
        opaque hardness alpha_eraser one_tile_batch).1 ≠ MemoryFault ∧
     tiles_in_place
       (draw_dab x y radius color_r color_g color_b
          opaque hardness alpha_eraser one_tile_batch).2) ∧
  (∀ x y radius : Q,
     (get_color x y radius one_tile_batch).1 ≠ MemoryFault ∧
     (get_alpha x y radius one_tile_batch).1 ≠ MemoryFault).
Proof.
  split; [exact one_tile_batch_in_place|].
  apply (dabs_and_probes_stay_inside_the_tiles (F := Q) one_tile_batch).
  exact one_tile_batch_in_place.
Defined.

(** A probe on a new surface over a store that raises. *)
Lemma probe_without_result_had_a_failed_fetch_witness :
  (get_color (F := Q) (17 # 2)%Q (17 # 2)%Q (1 # 2)%Q (fresh failing_store ∅)).1
    = Ok None ∧
  (get_alpha (F := Q) (17 # 2)%Q (17 # 2)%Q (1 # 2)%Q (fresh failing_store ∅)).1
    = Ok None.
Proof.
  split; [reflexivity|].
  apply (probe_without_result_had_a_failed_fetch (F := Q) (17 # 2)%Q (17 # 2)%Q
           (1 # 2)%Q (fresh failing_store ∅)).
  reflexivity.
Defined.
